(** * Topology generation of the alexandria [MyMol] class (gromacs)

    A shallow embedding of the topology pipeline implemented in
    [mymol.cpp]: ring detection, the linearity test, non-bonded parameter
    combination, initialisation and filling of [gmx_mtop_t], force-constant
    lookup, [GenerateTopology], the insertion of polarisable shells, the
    symmetry test and the box around a conformation.

    Conventions of the embedding.
    - C arrays are lists; [a[i]] is [l !!! i] and [a[i] = v] is
      [<[i:=v]> l].  An access outside the array is undefined behaviour in C;
      here a read yields the default value and a write does nothing, and the
      theorems state the range conditions they need.
    - [int] counters and atom indices are [nat]; an [int] that may hold the
      sentinel [NOTSET] is [Z], except for atom indices, where the sentinel
      is [None].
    - [real] and [double] values are rationals ([Q]); the square roots and
      powers of [generate_nbparam] are taken in [R].
    - [gmx_fatal] does not return: a function that may call it returns a
      [result], whose [Fatal] carries the diagnostic.
    - Functions and tables of gromacs that are used but not defined in this
      file of the sources are collected in interfaces (type classes). *)

From Stdlib Require Import QArith Qabs Qround Reals Lqa Lra.
From stdpp Require Import base list strings.

Local Open Scope nat_scope.
Set Warnings "-clear-no-such-hyp".
Set Default Proof Using "Type".


(* ===================================================================== *)
(** * Part I: the data model and the operations                           *)
(* ===================================================================== *)

(** ** Results of functions that may call [gmx_fatal] *)

Inductive result (A : Type) : Type :=
| Ok (x : A)
| Fatal (msg : string).
Arguments Ok {A} x.
Arguments Fatal {A} msg.

Global Instance result_ret : MRet result := fun A x => Ok x.
Global Instance result_bind : MBind result := fun A B k m =>
  match m with
  | Ok x => k x
  | Fatal msg => Fatal msg
  end.

(** A [for] loop whose body may be fatal. *)
Fixpoint rfold {A S} (body : S → A → result S) (s : S) (l : list A) : result S :=
  match l with
  | [] => Ok s
  | x :: l' => s' ← body s x; rfold body s' l'
  end.

Definition is_fatal {A} (m : result A) : Prop :=
  match m with Fatal _ => True | Ok _ => False end.

(** ** Interaction parameters ([t_param], [t_params]) *)

(** [t_param]: the atoms [a[MAXATOMLIST]] and the force constants
    [c[MAXFORCEPARAM]] of one interaction. *)
Record t_param := mk_param {
  p_a : list nat;
  p_c : list Q
}.

(** [t_params] is the list of its [param] entries, [nr] is its length. *)
Definition t_params := list t_param.

(** ** Ring detection *)

(** One pass of the search pattern
    [a' = NOTSET; if (b.a[0] == a) a' = b.a[1]; else if (b.a[1] == a) a' = b.a[0];]
    [None] stands for [NOTSET]. *)
Definition other_atom (b : t_param) (ai : nat) : option nat :=
  if p_a b !!! 0 =? ai then Some (p_a b !!! 1)
  else if p_a b !!! 1 =? ai then Some (p_a b !!! 0)
  else None.

(** [for (j = 0; j < bonds->nr; j++) body(bonds->param[j])] *)
Definition for_bonds {S} (bonds : t_params) (body : t_param → S → S) (s : S) : S :=
  foldl (fun s b => body b s) s bonds.

(** [bRing[a1] = bRing[a2] = ... = TRUE] *)
Definition mark_ring (l : list nat) (bRing : list bool) : list bool :=
  foldr (fun a r => <[a:=true]> r) bRing l.

Section detect_rings.
Variable bonds : t_params.

(** Innermost loop (index [q]): closes an 8-ring. *)
Definition ring_q (a1 a2 a3 a4 a5 a6 a7 a8 : nat) : list bool → list bool :=
  for_bonds bonds (fun b bRing =>
    match other_atom b a8 with
    | Some a9 =>
        if a9 =? a1 then mark_ring [a1; a2; a3; a4; a5; a6; a7; a8] bRing
        else bRing
    | None => bRing
    end).

(** Loop [p]: closes a 7-ring or extends the chain. *)
Definition ring_p (a1 a2 a3 a4 a5 a6 a7 : nat) : list bool → list bool :=
  for_bonds bonds (fun b bRing =>
    match other_atom b a7 with
    | Some a8 =>
        if negb (a8 =? a6) then
          if a8 =? a1 then mark_ring [a1; a2; a3; a4; a5; a6; a7] bRing
          else ring_q a1 a2 a3 a4 a5 a6 a7 a8 bRing
        else bRing
    | None => bRing
    end).

(** Loop [o]: closes a 6-ring or extends the chain. *)
Definition ring_o (a1 a2 a3 a4 a5 a6 : nat) : list bool → list bool :=
  for_bonds bonds (fun b bRing =>
    match other_atom b a6 with
    | Some a7 =>
        if negb (a7 =? a5) then
          if a7 =? a1 then mark_ring [a1; a2; a3; a4; a5; a6] bRing
          else ring_p a1 a2 a3 a4 a5 a6 a7 bRing
        else bRing
    | None => bRing
    end).

(** Loop [n]: closes a 5-ring or extends the chain. *)
Definition ring_n (a1 a2 a3 a4 a5 : nat) : list bool → list bool :=
  for_bonds bonds (fun b bRing =>
    match other_atom b a5 with
    | Some a6 =>
        if negb (a6 =? a4) then
          if a6 =? a1 then mark_ring [a1; a2; a3; a4; a5] bRing
          else ring_o a1 a2 a3 a4 a5 a6 bRing
        else bRing
    | None => bRing
    end).

(** Loop [m]: closes a 4-ring or, [else if (a3 != a1)], extends. *)
Definition ring_m (a1 a2 a3 a4 : nat) : list bool → list bool :=
  for_bonds bonds (fun b bRing =>
    match other_atom b a4 with
    | Some a5 =>
        if negb (a5 =? a3) then
          if a5 =? a1 then mark_ring [a1; a2; a3; a4] bRing
          else if negb (a3 =? a1) then ring_n a1 a2 a3 a4 a5 bRing
          else bRing
        else bRing
    | None => bRing
    end).

(** Loop [l]: the fourth atom, which must differ from [a2]. *)
Definition ring_l (a1 a2 a3 : nat) : list bool → list bool :=
  for_bonds bonds (fun b bRing =>
    match other_atom b a3 with
    | Some a4 => if negb (a4 =? a2) then ring_m a1 a2 a3 a4 bRing else bRing
    | None => bRing
    end).

(** Loop [k]: the third atom, which must differ from [a1]. *)
Definition ring_k (a1 a2 : nat) : list bool → list bool :=
  for_bonds bonds (fun b bRing =>
    match other_atom b a2 with
    | Some a3 => if negb (a3 =? a1) then ring_l a1 a2 a3 bRing else bRing
    | None => bRing
    end).

(** Loop [j]: the second atom. *)
Definition ring_j (a1 : nat) : list bool → list bool :=
  for_bonds bonds (fun b bRing =>
    match other_atom b a1 with
    | Some a2 => ring_k a1 a2 bRing
    | None => bRing
    end).

(** [for (j = 0; j < natom; j++) bRing[j] = FALSE;] *)
Definition clear_rings (natom : nat) (bRing : list bool) : list bool :=
  foldl (fun r j => <[j:=false]> r) bRing (seq 0 natom).

Definition detect_rings (natom : nat) (bRing : list bool) : list bool :=
  foldl (fun r a1 => ring_j a1 r) (clear_rings natom bRing) (seq 0 natom).

(** *** The chains the search walks, stated on their own *)

(** Two atoms are joined by an entry of the bond list. *)
Definition bonded (x y : nat) : Prop :=
  ∃ b, b ∈ bonds ∧ other_atom b x = Some y.

(** Consecutive atoms are bonded and no hop goes straight back. *)
Fixpoint chain_ok (p : list nat) : Prop :=
  match p with
  | x :: t =>
      match t with
      | y :: rest =>
          bonded x y ∧ match rest with z :: _ => z ≠ x | [] => True end ∧ chain_ok t
      | [] => True
      end
  | [] => True
  end.

(** A chain of 4 to 8 atoms that starts at [a1] and closes back to [a1]
    from its last atom: the closed walk [p ++ [a1]] is bonded hop by hop
    and never reverses a hop, and the chain does not pass through [a1]
    from its fifth atom on (the search closes the ring there). *)
Definition closed_chain (a1 : nat) (p : list nat) : Prop :=
  head p = Some a1 ∧ 4 ≤ length p ≤ 8 ∧ chain_ok (p ++ [a1]) ∧
  Forall (fun z => z ≠ a1) (drop 4 p).

(** What the loops [m] to [q] look for: with [path] walked so far, ending
    in [prev], [cur], at most [d] further atoms before the chain closes. *)
Fixpoint extends (d a1 : nat) (path : list nat) (prev cur x : nat) : Prop :=
  ∃ nxt, bonded cur nxt ∧ nxt ≠ prev ∧
    ((nxt = a1 ∧ x ∈ path) ∨
     (nxt ≠ a1 ∧
      match d with
      | 0 => False
      | S d' => extends d' a1 (path ++ [nxt]) cur nxt x
      end)).

(** A loop over the flags that only ever sets flags, those of [M]. *)
Record marks (F : list bool → list bool) (M : nat → Prop) : Prop := {
  marks_length : ∀ st, length (F st) = length st;
  marks_lookup : ∀ st x,
    F st !! x = Some true ↔ st !! x = Some true ∨ (x < length st ∧ M x)
}.

Definition on_closed_chain (natom x : nat) : Prop :=
  ∃ a1 p, a1 < natom ∧ closed_chain a1 p ∧ x ∈ p.

(** *** Rings, as the specification words them *)

(** Consecutive atoms of [l] are bonded. *)
Fixpoint path_bonded (l : list nat) : Prop :=
  match l with
  | x :: t =>
      match t with
      | y :: _ => bonded x y ∧ path_bonded t
      | [] => True
      end
  | [] => True
  end.

(** A ring of 4 to 8 atoms: distinct atoms, each bonded to the next and
    the last one to the first. *)
Definition ring (p : list nat) : Prop :=
  4 ≤ length p ≤ 8 ∧ NoDup p ∧ path_bonded (p ++ take 1 p).

Definition on_ring (x : nat) : Prop := ∃ p, ring p ∧ x ∈ p.

(** Every atom named by a bond is an atom of the molecule. *)
Definition bonds_in_range (natom : nat) : Prop :=
  ∀ b, b ∈ bonds → p_a b !!! 0 < natom ∧ p_a b !!! 1 < natom.
End detect_rings.

(** The test molecule: a six-membered ring 0-1-2-3-4-5-0 and a seventh
    atom without bonds. *)
Definition bond (i j : nat) : t_param := mk_param [i; j] [].
Definition hexagon : t_params :=
  [bond 0 1; bond 1 2; bond 2 3; bond 3 4; bond 4 5; bond 5 0].

(** The same ring with the seventh atom bonded to atom 0, as a hydrogen on
    a benzene ring. *)
Definition hexagon_pendant : t_params := hexagon ++ [bond 6 0].

(** ** Constants, tables and functions of gromacs used by the file *)

(** Constants and tables that the file takes from gromacs headers
    ([typedefs.h], [idef.h], [ifunc.h], [gpp_atomtype.h]); their values are
    not fixed here. *)
Class gmx_tables := {
  NOTSET : Z;                      (* sentinel for an unset int or real *)
  MAXFORCEPARAM : nat;             (* length of the array [c] of a parameter *)
  F_NRE : nat;                     (* number of function types *)
  F_BONDS : nat; F_ANGLES : nat; F_PDIHS : nat; F_IDIHS : nat;
  F_LJ : nat; F_BHAM : nat; F_LJ14 : nat; F_POLARIZATION : nat;
  F_CMAP : nat;
  NRAL : nat → nat;                (* atoms of an interaction of a type *)
  NRFPA : nat → nat;               (* force parameters of a type *)
  eptShell : nat;                  (* particle type of a shell *)
  eCOMB_GEOMETRIC : Z; eCOMB_ARITHMETIC : Z; eCOMB_GEOM_SIG_EPS : Z;
  egdPDIHS : nat; egdIDIHS : nat; egdNR : nat
}.

Global Instance Q_inhabited : Inhabited Q := populate 0%Q.
Global Instance R_inhabited : Inhabited R := populate 0%R.

Definition Qltb (x y : Q) : bool := negb (Qle_bool y x).

(** [NOTSET == c] for a real [c]. *)
Definition is_notset `{gmx_tables} (c : Q) : bool := Qeq_bool (inject_Z NOTSET) c.

(** The force-field parameter store [gmx_poldata_t] is consumed through its
    access functions only ([poldata.h]); the store is the record of what
    they return.  A search returns its [int] result together with the
    value and the parameter string it hands back. *)
Record gmx_poldata_t := {
  gmx_poldata_get_bond_ftype : Z;
  gmx_poldata_get_angle_ftype : Z;
  gmx_poldata_get_dihedral_ftype : nat → Z;
  gmx_poldata_get_vdw_ftype : Z;
  gmx_poldata_get_fudgeLJ : Q;
  gmx_poldata_get_length_unit : string;
  gmx_poldata_atype_to_btype : string → string;
  gmx_poldata_search_bond : string → string → Z * Q * string;
  gmx_poldata_search_angle : string → string → string → Z * Q * string;
  gmx_poldata_search_dihedral :
    nat → string → string → string → string → Z * Q * string;
  (** [Some (pol, sigpol)] when the function returns 1 *)
  gmx_poldata_get_atype_pol : string → option (Q * Q)
}.

(** ** Atoms *)

Record t_atom := mk_atom {
  atom_m : Q; atom_q : Q; atom_mB : Q; atom_qB : Q;
  atom_type : nat; atom_typeB : nat;
  atom_ptype : nat;
  atom_resind : nat;
  atom_atomnumber : nat
}.

(** An atom as [snew] and [memset] leave it. *)
Definition zero_atom : t_atom := mk_atom 0 0 0 0 0 0 0 0 0.
Global Instance t_atom_inhabited : Inhabited t_atom := populate zero_atom.

(** [t_atoms]: [nr] is the length of [atom]; names are the strings behind
    the symbol-table handles. *)
Record t_atoms := mk_atoms {
  atom : list t_atom;
  atomname : list string;
  atomtype : list string;
  atomtypeB : list string
}.

Definition atoms_nr (atoms : t_atoms) : nat := length (atom atoms).

(** [init_t_atoms(atoms, natoms, _)] followed by the allocation of the type
    name arrays. *)
Definition init_t_atoms (natoms : nat) : t_atoms :=
  mk_atoms (replicate natoms zero_atom) (replicate natoms EmptyString)
           (replicate natoms EmptyString) (replicate natoms EmptyString).

Definition rvec : Type := Q * Q * Q.

(** ** The linearity and planarity tests *)

(** [bond_angle] and [dih_angle] ([bonded.h]) return an angle in radians;
    [RAD2DEG] converts to degrees.  The periodic box is [epbcNONE]. *)
Class gmx_geometry := {
  RAD2DEG : Q;
  bond_angle : rvec → rvec → rvec → Q;
  dih_angle : rvec → rvec → rvec → rvec → Q
}.

Section geometry.
Context `{gmx_geometry}.

Definition is_planar (xi xj xk xl : rvec) (phi_toler : Q) : bool :=
  let phi := (RAD2DEG * dih_angle xi xj xk xl)%Q in
  Qltb (Qabs phi) phi_toler.

Definition is_linear (xi xj xk : rvec) (th_toler : Q) : bool :=
  let th := Qabs (RAD2DEG * bond_angle xi xj xk)%Q in
  Qltb th_toler th || Qltb th (180 - th_toler)%Q.

(** The calls [MakeSpecialInteractions] makes on the virtual-site
    generator [gvt] while it tests the initial geometry. *)
Inductive gvt_call :=
| addLinear (ai aj ak : nat)
| addPlanar (ai aj ak al : nat) (nbonds : list nat).

(** [bonds[bi->GetAi() - 1].push_back(bi->GetAj() - 1)] and back, for the
    bonds of the molecule (atoms numbered from 1). *)
Definition neighbour_table (natom : nat) (mbonds : list (nat * nat)) : list (list nat) :=
  foldl (fun bonds '(ai, aj) =>
           let bonds := <[ai - 1 := bonds !!! (ai - 1) ++ [aj - 1]]> bonds in
           <[aj - 1 := bonds !!! (aj - 1) ++ [ai - 1]]> bonds)
        (replicate natom []) mbonds.

(** The loop of [MakeSpecialInteractions] over the atoms, with
    [th_toler = 5] and [ph_toler = 5]. *)
Definition special_motifs (x_ : list rvec) (natom : nat) (mbonds : list (nat * nat))
  : list gvt_call :=
  let th_toler := 5%Q in
  let ph_toler := 5%Q in
  let bonds := neighbour_table natom mbonds in
  let nbonds := map length bonds in
  foldl (fun gvt i =>
           let b := bonds !!! i in
           if (length b =? 2) && is_linear (x_ !!! i) (x_ !!! (b !!! 0)) (x_ !!! (b !!! 1)) th_toler
           then gvt ++ [addLinear (b !!! 0) i (b !!! 1)]
           else if (length b =? 3) &&
                   is_planar (x_ !!! i) (x_ !!! (b !!! 0)) (x_ !!! (b !!! 1)) (x_ !!! (b !!! 2))
                             ph_toler
           then gvt ++ [addPlanar i (b !!! 0) (b !!! 1) (b !!! 2) nbonds]
           else gvt)
        [] (seq 0 natom).
End geometry.

(** The test configurations: the centre at the origin with neighbours on
    the x axis (180 degrees), and with one neighbour moved to the y axis
    (90 degrees).  Atom 1 is the centre, bonded to atoms 2 and 3. *)
Definition x_straight : list rvec := [(0, 0, 0); (1, 0, 0); (-1 # 1, 0, 0)]%Q.
Definition x_bent : list rvec := [(0, 0, 0); (0, 1, 0); (-1 # 1, 0, 0)]%Q.
Definition centre_bonds : list (nat * nat) := [(1, 2); (1, 3)].

(** ** Combination of non-bonded parameters *)

Section nbparam.
Context `{gmx_tables}.
Local Open Scope R_scope.

(** The result is the pair [(ip->lj.c6, ip->lj.c12)]. *)
Definition generate_nbparam (ftype comb : Z) (ci cj : list R) : result (R * R) :=
  if decide (ftype = Z.of_nat F_LJ) then
    if decide (comb = eCOMB_GEOMETRIC) then
      Ok (sqrt (ci !!! 0%nat * cj !!! 0%nat), sqrt (ci !!! 1%nat * cj !!! 1%nat))
    else if decide (comb = eCOMB_ARITHMETIC) then
      let sig := (ci !!! 0%nat + cj !!! 0%nat) * 0.5 in
      let eps := sqrt (ci !!! 1%nat * cj !!! 1%nat) in
      Ok (4 * eps * sig ^ 6, 4 * eps * sig ^ 12)
    else if decide (comb = eCOMB_GEOM_SIG_EPS) then
      let sig := sqrt (ci !!! 0%nat * cj !!! 0%nat) in
      let eps := sqrt (ci !!! 1%nat * cj !!! 1%nat) in
      Ok (4 * eps * sig ^ 6, 4 * eps * sig ^ 12)
    else Fatal "No such combination rule"
  else Fatal "No such function type supported".
End nbparam.

(** A small table of function types for the examples: bonds, angles,
    proper and improper dihedrals, 1-4 pairs, Lennard-Jones, Buckingham,
    polarisation and CMAP, with their numbers of atoms and parameters. *)
Definition small_tables : gmx_tables := {|
  NOTSET := -12345;
  MAXFORCEPARAM := 12;
  F_NRE := 9;
  F_BONDS := 0; F_ANGLES := 1; F_PDIHS := 2; F_IDIHS := 3;
  F_LJ14 := 4; F_LJ := 5; F_BHAM := 6; F_POLARIZATION := 7; F_CMAP := 8;
  NRAL := fun ft => [2; 3; 4; 4; 2; 2; 2; 2; 5] !!! ft;
  NRFPA := fun ft => [2; 2; 3; 2; 2; 2; 3; 1; 0] !!! ft;
  eptShell := 2;
  eCOMB_GEOMETRIC := 1; eCOMB_ARITHMETIC := 2; eCOMB_GEOM_SIG_EPS := 3;
  egdPDIHS := 0; egdIDIHS := 1; egdNR := 2
|}.

(** ** The assembled topology [gmx_mtop_t] *)

(** [t_iparams] is a union of structs of reals; it is the list of its
    slots, [MAXFORCEPARAM] of them, and a member is its position:
    [lj.c6], [lj.c12] are slots 0 and 1, [bham.a], [bham.b], [bham.c] slots
    0 to 2, [morse.b0A], [morse.cbA], [morse.betaA] slots 0 to 2. *)
Definition t_iparams : Type := list Q.

Record gmx_ffparams_t := mk_ffparams {
  atnr : nat;
  ntypes : nat;
  reppow : Q;
  functype : list Z;
  iparams : list t_iparams
}.

(** The fields of [gmx_mtop_t] the file writes; there is one molecule type
    ([moltype[0]]) and one molecule block ([molblock[0]]). *)
(** [t_blocka]: the exclusions as one array [a] with the start [index] of
    each atom. *)
Record t_blocka := mk_blocka {
  blocka_nr : nat;
  blocka_index : list nat;
  blocka_nra : nat;
  blocka_a : list nat
}.

Record gmx_mtop_t := mk_mtop {
  mtop_name : string;
  nmoltype : nat;
  moltype_name : string;
  moltype_atoms : t_atoms;
  moltype_cgs : list nat;             (* the index of the charge-group block *)
  moltype_ilist : list (list nat);    (* [ilist[ftype].iatoms] *)
  moltype_excls : t_blocka;
  nmolblock : nat;
  molblock_nmol : nat;
  molblock_type : nat;
  molblock_natoms_mol : nat;
  egcENER_nr : nat;
  ffparams : gmx_ffparams_t;
  natoms : nat
}.

Section mtop.
Context `{gmx_tables}.

Definition zero_iparams : t_iparams := replicate MAXFORCEPARAM 0%Q.

(** The types of the atoms that precede atom [i] are compared with [itp]
    until one is equal:
    [for (j = 0; !found && (j < i); j++) found = (itp == atom[j].type);] *)
Definition type_found (types : list nat) (i itp : nat) : bool :=
  foldl (fun (found : bool) j => if found then found else itp =? types !!! j)
        false (seq 0 i).

(** The count of atom types of [do_init_mtop]: it starts at 1 and grows
    for each atom from the second on whose type was not seen before. *)
Definition count_types (types : list nat) : nat :=
  foldl (fun ntype i => if type_found types i (types !!! i) then ntype else S ntype)
        1 (seq 1 (length types - 1)).

(** The loops over [i] and [j] that fill the type-by-type matrix. *)
Definition init_nbmatrix (vdw_type : Z) (ntype : nat)
    (ft : list Z) (ip : list t_iparams) : list Z * list t_iparams :=
  foldl (fun st i =>
    foldl (fun (st : list Z * list t_iparams) j =>
      let '(ft, ip) := st in
      let idx := ntype * i + j in
      let ft := <[idx := vdw_type]> ft in
      if decide (vdw_type = Z.of_nat F_LJ) then
        (ft, <[idx := <[1 := 0%Q]> (<[0 := 0%Q]> (ip !!! idx))]> ip)
      else if decide (vdw_type = Z.of_nat F_BHAM) then
        (ft, <[idx := <[2 := 0%Q]> (<[1 := 0%Q]> (<[0 := 0%Q]> (ip !!! idx)))]> ip)
      else (ft, ip))
      st (seq 0 ntype))
    (ft, ip) (seq 0 ntype).

Definition do_init_mtop (pd : gmx_poldata_t) (molname : string) (atoms : t_atoms)
  : gmx_mtop_t :=
  let ntype := count_types (map atom_type (atom atoms)) in
  let vdw_type := gmx_poldata_get_vdw_ftype pd in
  let '(ft, ip) := init_nbmatrix vdw_type ntype
                     (replicate (ntype * ntype) 0%Z)
                     (replicate (ntype * ntype) zero_iparams) in
  {| mtop_name := molname;
     nmoltype := 1;
     moltype_name := molname;
     moltype_atoms := init_t_atoms (atoms_nr atoms);
     moltype_cgs := seq 0 (S (atoms_nr atoms));
     moltype_ilist := replicate F_NRE [];
     moltype_excls := mk_blocka 0 [] 0 [];
     nmolblock := 1;
     molblock_nmol := 1;
     molblock_type := 0;
     molblock_natoms_mol := atoms_nr atoms;
     egcENER_nr := 1;
     ffparams := mk_ffparams ntype (ntype * ntype) 12 ft ip;
     natoms := atoms_nr atoms |}.

Definition lj_c6 (ip : t_iparams) : Q := ip !!! 0.
Definition lj_c12 (ip : t_iparams) : Q := ip !!! 1.

(** *** Copying the interaction lists into the topology *)

(** [enter_params] ([convparm.h]) enters a parameter tuple of a function
    type into the table of [ffparams] and returns the table and the index of
    the tuple; the caller passes the combination rule 0, [reppow], the
    index returned before and [bAppend = TRUE]. *)
Variable enter_params :
  gmx_ffparams_t → nat → list Q → Z → Q → nat → bool → gmx_ffparams_t * nat.

(** The array [c] built for the term [p] of function type [i]. *)
Definition term_coeffs (fudgeLJ : Q) (mtop : gmx_mtop_t) (i : nat) (p : t_param)
  : list Q :=
  let nrfp := NRFPA i in
  let c :=
    if i =? F_LJ14 then
      let ati := atom_type (atom (moltype_atoms mtop) !!! (p_a p !!! 0)) in
      let atj := atom_type (atom (moltype_atoms mtop) !!! (p_a p !!! 1)) in
      let tp := ati * atnr (ffparams mtop) + atj in
      [ (lj_c6 (iparams (ffparams mtop) !!! tp) * fudgeLJ)%Q;
        (lj_c12 (iparams (ffparams mtop) !!! tp) * fudgeLJ)%Q ]
    else
      map (fun l => let cl := p_c p !!! l in
                    if is_notset cl then 0%Q else cl) (seq 0 nrfp) in
  c ++ replicate (MAXFORCEPARAM - length c) 0%Q.

Definition set_ffparams (mtop : gmx_mtop_t) (ff : gmx_ffparams_t) : gmx_mtop_t :=
  mk_mtop (mtop_name mtop) (nmoltype mtop) (moltype_name mtop)
    (moltype_atoms mtop) (moltype_cgs mtop) (moltype_ilist mtop)
    (moltype_excls mtop) (nmolblock mtop) (molblock_nmol mtop)
    (molblock_type mtop) (molblock_natoms_mol mtop) (egcENER_nr mtop)
    ff (natoms mtop).

Definition set_ilist (mtop : gmx_mtop_t) (il : list (list nat)) : gmx_mtop_t :=
  mk_mtop (mtop_name mtop) (nmoltype mtop) (moltype_name mtop)
    (moltype_atoms mtop) (moltype_cgs mtop) il
    (moltype_excls mtop) (nmolblock mtop) (molblock_nmol mtop)
    (molblock_type mtop) (molblock_natoms_mol mtop) (egcENER_nr mtop)
    (ffparams mtop) (natoms mtop).

(** One interaction: its tuple is entered and the handle and the atoms are
    appended to [iatoms]. *)
Definition enter_term (fudgeLJ : Q) (i : nat)
    (st : gmx_mtop_t * nat * list nat) (p : t_param) : gmx_mtop_t * nat * list nat :=
  let '(mtop, n, iatoms) := st in
  let c := term_coeffs fudgeLJ mtop i p in
  let '(ff, n) := enter_params (ffparams mtop) i c 0 12 n true in
  (set_ffparams mtop ff, n, iatoms ++ n :: map (fun l => p_a p !!! l) (seq 0 (NRAL i))).

Definition plist_to_mtop (pd : gmx_poldata_t) (plist_ : list t_params)
    (mtop_ : gmx_mtop_t) : gmx_mtop_t :=
  let fudgeLJ := gmx_poldata_get_fudgeLJ pd in
  let nfptot :=
    foldl (fun tot i => tot + length (plist_ !!! i) * NRFPA i)
          (ntypes (ffparams mtop_)) (seq 0 F_NRE) in
  let ff := ffparams mtop_ in
  let mtop_ :=
    set_ffparams mtop_
      (mk_ffparams (atnr ff) (ntypes ff) (reppow ff)
         (resize nfptot 0%Z (functype ff)) (resize nfptot zero_iparams (iparams ff))) in
  fst (foldl (fun (st : gmx_mtop_t * nat) i =>
         let '(mtop_, n) := st in
         let '(mtop_, n, iatoms) :=
           foldl (enter_term fudgeLJ i) (mtop_, n, []) (plist_ !!! i) in
         (set_ilist mtop_ (<[i := iatoms]> (moltype_ilist mtop_)), n))
       (mtop_, 0) (seq 0 F_NRE)).
End mtop.

(** ** Force constants from the parameter store *)

(** Library functions used on strings and units ([stringutil.h],
    [units.h], libc).  [string2unit] returns -1 for an unknown unit. *)
Definition space : Ascii.ascii := Ascii.Space.

Class gmx_strings := {
  split : string → Ascii.ascii → list string;
  atof : string → Q;
  string2unit : string → Z;
  convert2gmx : Q → Z → Q;
  eg2cPm : Z
}.

Section force_constants.
Context `{gmx_tables} `{gmx_strings}.

(** The loop over the tokens of the parameter string:
    [if ((pi->length() > 0) && (n < MAXFORCEPARAM-1)) c[1+n] = atof(pi->c_str()), n++]. *)
Definition set_aux_params (ptr : list string) (c : list Q) : list Q :=
  snd (foldl (fun (st : nat * list Q) tok =>
                let '(n, c) := st in
                if (0 <? String.length tok) && (n <? MAXFORCEPARAM - 1)
                then (S n, <[1 + n := atof tok]> c)
                else (n, c))
             (0, c) ptr).

(** [ATP(ii)]: the bond type of the atom type of atom [ii]. *)
Definition ATP (pd : gmx_poldata_t) (atoms : t_atoms) (ii : nat) : string :=
  gmx_poldata_atype_to_btype pd (atomtype atoms !!! ii).

(** The body of the loop over the bonds: the constants of the term are
    written when the search succeeds and the term is left as it is
    otherwise. *)
Definition bond_constants (pd : gmx_poldata_t) (atoms : t_atoms) (p : t_param) : t_param :=
  let '(found, xx, params) :=
    gmx_poldata_search_bond pd (ATP pd atoms (p_a p !!! 0)) (ATP pd atoms (p_a p !!! 1)) in
  if (0 <? found)%Z then
    mk_param (p_a p)
      (set_aux_params (split params space) (<[0 := convert2gmx xx eg2cPm]> (p_c p)))
  else p.

Definition angle_constants (pd : gmx_poldata_t) (atoms : t_atoms) (p : t_param) : t_param :=
  let '(found, xx, params) :=
    gmx_poldata_search_angle pd (ATP pd atoms (p_a p !!! 0)) (ATP pd atoms (p_a p !!! 1))
      (ATP pd atoms (p_a p !!! 2)) in
  if (0 <? found)%Z then
    mk_param (p_a p) (set_aux_params (split params space) (<[0 := xx]> (p_c p)))
  else p.

Definition dihedral_constants (pd : gmx_poldata_t) (k : nat) (atoms : t_atoms)
    (p : t_param) : t_param :=
  let '(found, xx, params) :=
    gmx_poldata_search_dihedral pd k (ATP pd atoms (p_a p !!! 0))
      (ATP pd atoms (p_a p !!! 1)) (ATP pd atoms (p_a p !!! 2))
      (ATP pd atoms (p_a p !!! 3)) in
  if (0 <? found)%Z then
    mk_param (p_a p) (set_aux_params (split params space) (<[0 := xx]> (p_c p)))
  else p.

(** [plist[ft]] for an [int ft]. *)
Definition plist_at (plist : list t_params) (ft : Z) : t_params :=
  plist !!! Z.to_nat ft.

(** [for (j = 0; j < plist[ft].nr; j++) body(&plist[ft].param[j])] *)
Definition for_params (plist : list t_params) (ft : Z) (body : t_param → t_param)
  : list t_params :=
  <[Z.to_nat ft := map body (plist_at plist ft)]> plist.

(** [get_force_constants] returns to its caller in every case: there is no
    call of [gmx_fatal] in it. *)
Definition get_force_constants (pd : gmx_poldata_t) (plist : list t_params)
    (atoms : t_atoms) : list t_params :=
  let plist := for_params plist (gmx_poldata_get_bond_ftype pd) (bond_constants pd atoms) in
  let plist := for_params plist (gmx_poldata_get_angle_ftype pd) (angle_constants pd atoms) in
  foldl (fun plist k =>
           for_params plist (gmx_poldata_get_dihedral_ftype pd k)
                      (dihedral_constants pd k atoms))
        plist (seq 0 egdNR).

(** *** [UpdateIdef] *)

(** The flags [bOpt[ebtsBONDS]], [bOpt[ebtsANGLES]], [bOpt[ebtsPDIHS]] and
    [bOpt[ebtsIDIHS]]. *)
Record opt_flags := mk_opt {
  opt_bonds : bool; opt_angles : bool; opt_pdihs : bool; opt_idihs : bool
}.

(** The start indices [0, step, 2 step, ...] below [nr] of the loop
    [for (i = 0; i < nr; i += step)], with [step = nratoms + 1]. *)
Definition idef_starts (nr step : nat) : list nat :=
  map (fun k => k * step) (seq 0 ((nr + step - 1) / step)).

Definition set_slot (tp slot : nat) (v : Q) (ip : list t_iparams) : list t_iparams :=
  <[tp := <[slot := v]> (ip !!! tp)]> ip.

(** The tokens of the parameter string that are not empty. *)
Definition tokens (params : string) : list string :=
  filter (fun tok => 0 < String.length tok) (split params space).

(** The block of [UpdateIdef] for the bonds: [morse.b0A], [morse.cbA] and
    [morse.betaA] are slots 0, 1 and 2. *)
Definition update_bonds (pd : gmx_poldata_t) (atoms : t_atoms) (il : list (list nat))
    (ip : list t_iparams) : result (list t_iparams) :=
  let lu := string2unit (gmx_poldata_get_length_unit pd) in
  let ftb := Z.to_nat (gmx_poldata_get_bond_ftype pd) in
  let iatoms := il !!! ftb in
  rfold (fun ip i =>
           let tp := iatoms !!! i in
           let ai := iatoms !!! (i + 1) in
           let aj := iatoms !!! (i + 2) in
           let aai := gmx_poldata_atype_to_btype pd (atomtype atoms !!! ai) in
           let aaj := gmx_poldata_atype_to_btype pd (atomtype atoms !!! aj) in
           let '(gt, value, params) := gmx_poldata_search_bond pd aai aaj in
           if decide (gt ≠ 0%Z) then
             let ip := set_slot tp 0 (convert2gmx value lu) ip in
             Ok (snd (foldl (fun (st : nat * list t_iparams) tok =>
                               let '(n, ip) := st in
                               (S n, if n =? 0 then set_slot tp 1 (atof tok) ip
                                     else set_slot tp 2 (atof tok) ip))
                            (0, ip) (tokens params)))
           else
             Fatal ("There are no parameters for bond " +:+ aai +:+ "-" +:+ aaj
                    +:+ " in the force field"))
        ip (idef_starts (length iatoms) (NRAL ftb + 1)).

(** The block for the angles: [harmonic.rA], [krA], [rB], [krB] are slots
    0 to 3. *)
Definition update_angles (pd : gmx_poldata_t) (atoms : t_atoms) (il : list (list nat))
    (ip : list t_iparams) : result (list t_iparams) :=
  let fta := Z.to_nat (gmx_poldata_get_angle_ftype pd) in
  let iatoms := il !!! fta in
  rfold (fun ip i =>
           let tp := iatoms !!! i in
           let aai := gmx_poldata_atype_to_btype pd (atomtype atoms !!! (iatoms !!! (i + 1))) in
           let aaj := gmx_poldata_atype_to_btype pd (atomtype atoms !!! (iatoms !!! (i + 2))) in
           let aak := gmx_poldata_atype_to_btype pd (atomtype atoms !!! (iatoms !!! (i + 3))) in
           let '(gt, value, params) := gmx_poldata_search_angle pd aai aaj aak in
           if decide (gt ≠ 0%Z) then
             let ip := set_slot tp 2 value (set_slot tp 0 value ip) in
             Ok (foldl (fun ip tok => set_slot tp 3 (atof tok) (set_slot tp 1 (atof tok) ip))
                       ip (tokens params))
           else
             Fatal ("There are no parameters for angle " +:+ aai +:+ "-" +:+ aaj
                    +:+ "-" +:+ aak +:+ " in the force field"))
        ip (idef_starts (length iatoms) (NRAL fta + 1)).

(** Conversion of a [double] to the [int] member [pdihs.mult]. *)
Definition to_int (x : Q) : Q :=
  inject_Z (if Qle_bool 0 x then Qfloor x else Qceiling x).

(** The block for the proper dihedrals: [pdihs.phiA], [cpA], [mult], [phiB],
    [cpB] are slots 0 to 4. *)
Definition update_pdihs (pd : gmx_poldata_t) (atoms : t_atoms) (il : list (list nat))
    (ip : list t_iparams) : result (list t_iparams) :=
  let ftd := Z.to_nat (gmx_poldata_get_dihedral_ftype pd egdPDIHS) in
  let iatoms := il !!! ftd in
  rfold (fun ip i =>
           let tp := iatoms !!! i in
           let aai := gmx_poldata_atype_to_btype pd (atomtype atoms !!! (iatoms !!! (i + 1))) in
           let aaj := gmx_poldata_atype_to_btype pd (atomtype atoms !!! (iatoms !!! (i + 2))) in
           let aak := gmx_poldata_atype_to_btype pd (atomtype atoms !!! (iatoms !!! (i + 3))) in
           let aal := gmx_poldata_atype_to_btype pd (atomtype atoms !!! (iatoms !!! (i + 4))) in
           let '(gt, value, params) :=
             gmx_poldata_search_dihedral pd egdPDIHS aai aaj aak aal in
           if decide (gt ≠ 0%Z) then
             let ip := set_slot tp 0 value ip in
             Ok (snd (foldl (fun (st : nat * list t_iparams) tok =>
                               let '(n, ip) := st in
                               (S n, if n =? 0
                                     then set_slot tp 4 (atof tok) (set_slot tp 1 (atof tok) ip)
                                     else set_slot tp 2 (to_int (atof tok)) ip))
                            (0, ip) (tokens params)))
           else
             Fatal ("There are no parameters for angle " +:+ aai +:+ "-" +:+ aaj
                    +:+ "-" +:+ aak +:+ " in the force field"))
        ip (idef_starts (length iatoms) (NRAL ftd + 1)).

(** The block for the improper dihedrals; only the first token of the
    parameter string is looked at. *)
Definition update_idihs (pd : gmx_poldata_t) (molname : string) (atoms : t_atoms)
    (il : list (list nat)) (ip : list t_iparams) : result (list t_iparams) :=
  let ftd := Z.to_nat (gmx_poldata_get_dihedral_ftype pd egdIDIHS) in
  let iatoms := il !!! ftd in
  rfold (fun ip i =>
           let tp := iatoms !!! i in
           let aai := gmx_poldata_atype_to_btype pd (atomtype atoms !!! (iatoms !!! (i + 1))) in
           let aaj := gmx_poldata_atype_to_btype pd (atomtype atoms !!! (iatoms !!! (i + 2))) in
           let aak := gmx_poldata_atype_to_btype pd (atomtype atoms !!! (iatoms !!! (i + 3))) in
           let aal := gmx_poldata_atype_to_btype pd (atomtype atoms !!! (iatoms !!! (i + 4))) in
           let '(gt, value, params) :=
             gmx_poldata_search_dihedral pd egdIDIHS aai aaj aak aal in
           if decide (gt ≠ 0%Z) then
             let ip := set_slot tp 2 value (set_slot tp 0 value ip) in
             Ok (match split params space with
                 | tok :: _ =>
                     if 0 <? String.length tok
                     then set_slot tp 3 (atof tok) (set_slot tp 1 (atof tok) ip)
                     else ip
                 | [] => ip
                 end)
           else
             Fatal ("There are no parameters for improper " +:+ aai +:+ "-" +:+ aaj
                    +:+ "-" +:+ aak +:+ "-" +:+ aal +:+ " in the force field for "
                    +:+ molname))
        ip (idef_starts (length iatoms) (NRAL ftd + 1)).

(** [UpdateIdef] on the interaction lists [il] of the local topology and
    the parameters of the topology; a search without result is fatal. *)
Definition UpdateIdef (pd : gmx_poldata_t) (bOpt : opt_flags) (molname : string)
    (atoms : t_atoms) (il : list (list nat)) (ip : list t_iparams)
  : result (list t_iparams) :=
  ip ← (if opt_bonds bOpt then update_bonds pd atoms il ip else Ok ip);
  ip ← (if opt_angles bOpt then update_angles pd atoms il ip else Ok ip);
  ip ← (if opt_pdihs bOpt then update_pdihs pd atoms il ip else Ok ip);
  if opt_idihs bOpt then update_idihs pd molname atoms il ip else Ok ip.
End force_constants.

(** String functions for the examples: no parameter string is ever split,
    every unit is known. *)
Definition plain_strings : gmx_strings := {|
  split := fun _ _ => [];
  atof := fun _ => 0%Q;
  string2unit := fun _ => 0%Z;
  convert2gmx := fun x _ => x;
  eg2cPm := 0
|}.

(** ** Generation of the topology *)

(** The status values of [immStatus], in the order of the table of
    messages of [immsg]. *)
Inductive immStatus :=
| immUnknown | immOK | immZeroDip | immNoQuad | immCharged
| immAtomTypes | immAtomNumber | immMolpropConv | immBondOrder | immRespInit
| immChargeGeneration | immLOT | immQMInconsistency | immTest | immNoData
| immGenShells | immGenBonds | immCommProblem.

Global Instance immStatus_eq_dec : EqDecision immStatus.
Proof. solve_decision. Defined.

Definition immsg (imm : immStatus) : string :=
  match imm with
  | immUnknown => "Unknown status"
  | immOK => "OK"
  | immZeroDip => "Zero Dipole"
  | immNoQuad => "No Quadrupole"
  | immCharged => "Charged"
  | immAtomTypes => "Atom type problem"
  | immAtomNumber => "Atom number problem"
  | immMolpropConv => "Converting from molprop"
  | immBondOrder => "Determining bond order"
  | immRespInit => "RESP Initialization"
  | immChargeGeneration => "Charge generation"
  | immLOT => "Requested level of theory missing"
  | immQMInconsistency => "QM Inconsistency (ESP dipole does not match Elec)"
  | immTest => "Not in training set"
  | immNoData => "No experimental data"
  | immGenShells => "Generating shells"
  | immGenBonds => "Generating bonds"
  | immCommProblem => "Communicating MolProp"
  end.

Inductive eDih := edihNo | edihOne | edihAll.

(** The table of atom types [gpp_atomtype_t] ([gpp_atomtype.h]).
    [add_atomtype] returns the table and the index of the type. *)
Class gmx_atomtypes := {
  gpp_atomtype_t : Type;
  init_atomtype : gpp_atomtype_t;
  add_atomtype : gpp_atomtype_t → t_atom → string → t_param → gpp_atomtype_t * nat;
  get_atomtype_name : nat → gpp_atomtype_t → string;
  get_atomtype_ptype : nat → gpp_atomtype_t → Z
}.

(** An atom of a calculation with its charges, as [MolProp] hands it out. *)
Record AtomicCharge := mk_charge {
  charge_type : string; charge_unit : string; charge_q : Q
}.
Record CalcAtom := mk_calcatom {
  ca_name : string; ca_obtype : string; ca_unit : string;
  ca_coords : Q * Q * Q;
  ca_charges : list AtomicCharge
}.

(** The base class [MolProp] ([molprop.h]) and the atom properties
    ([atomprop.h]).  [GetLot] is [None] when no calculation has the level of
    theory; [Bonds] are the pairs [(GetAi, GetAj)], numbered from 1.
    [gmx_atomprop_query_mass resnm atomnm value] is
    [gmx_atomprop_query(ap, epropMass, resnm, atomnm, &value)]: the value
    it returns and the value it leaves in [value], which the library writes
    on either path. *)
Class gmx_molprop := {
  MolProp : Type;
  GetMolname : MolProp → string;
  GenerateComposition : gmx_poldata_t → MolProp → MolProp;
  NAtom : MolProp → Z;
  NBond : MolProp → nat;
  Bonds : MolProp → list (nat * nat);
  GetLot : MolProp → string → option (list CalcAtom);
  name2eemtype : string → Z;
  gmx_atomprop_atomnumber : string → nat;
  gmx_atomprop_query_mass : string → string → Q → bool * Q
}.

(** The state of a [MyMol] that the functions below read and write. *)
Record bts_t := mk_bts {
  bts_BONDS : Z; bts_ANGLES : Z; bts_PDIHS : Z; bts_IDIHS : Z;
  bts_EXCLS : Z; bts_CMAP : Z
}.

Record MyMol `{gmx_atomtypes} `{gmx_molprop} := mk_mymol {
  molprop : MolProp;
  bts : bts_t;
  nexcl_ : nat;
  topology_atoms : t_atoms;
  x_ : list rvec;
  plist_ : list t_params;
  excls_ : list (list nat);
  atype_ : gpp_atomtype_t;
  bHaveVSites_ : bool;
  mtop_ : option gmx_mtop_t;
  ltop_ : option (list (list nat))
}.

(** The generators of gromacs and of [gentop_vsite] that
    [GenerateTopology] calls: [MakeAngles] runs [gen_nnb], [gen_pad] and
    [generate_excls], which give the interaction lists and the exclusions;
    [generateSpecial] turns the registered motifs into interactions;
    [gmx_mtop_generate_local_top] gives the interaction lists of the local
    topology. *)
Class gmx_generators `{gmx_atomtypes} := {
  gen_pad_excls : nat → t_atoms → list t_params → list t_params * list (list nat);
  generateSpecial :
    list gvt_call → bool → gmx_poldata_t →
    t_atoms * list rvec * list t_params * gpp_atomtype_t * list (list nat) →
    t_atoms * list rvec * list t_params * gpp_atomtype_t * list (list nat);
  gmx_mtop_generate_local_top : gmx_mtop_t → list (list nat);
  enter_params :
    gmx_ffparams_t → nat → list Q → Z → Q → nat → bool → gmx_ffparams_t * nat
}.

Section topology.
Context `{gmx_tables} `{gmx_strings} `{gmx_geometry} `{gmx_atomtypes}
        `{gmx_molprop} `{!gmx_generators}.

(** [mv_plist(dst, src)]: the parameters of [src] are copied to [dst] and
    [src] is emptied. *)
Definition mv_plist (plist : list t_params) (dst src : nat) : list t_params :=
  <[src := []]> (<[dst := plist !!! src]> plist).

Definition mv_one (plist : list t_params) (ft : Z) (F : nat) (bForward : bool)
  : list t_params :=
  if decide (Z.of_nat F ≠ ft) then
    if bForward then mv_plist plist (Z.to_nat ft) F
    else mv_plist plist F (Z.to_nat ft)
  else plist.

Definition mv_plists (pd : gmx_poldata_t) (plist : list t_params) (bForward : bool)
  : result (list t_params) :=
  let ft := gmx_poldata_get_bond_ftype pd in
  if decide (NOTSET = ft) then Fatal "Bond function type not set in force field file"
  else
  let plist := mv_one plist ft F_BONDS bForward in
  let ft := gmx_poldata_get_angle_ftype pd in
  if decide (NOTSET = ft) then Fatal "Angle function type not set in force field file"
  else
  let plist := mv_one plist ft F_ANGLES bForward in
  let ft := gmx_poldata_get_dihedral_ftype pd egdPDIHS in
  if decide (NOTSET = ft) then Fatal "Dihedral function type not set in force field file"
  else
  let plist := mv_one plist ft F_PDIHS bForward in
  let ft := gmx_poldata_get_dihedral_ftype pd egdIDIHS in
  if decide (NOTSET = ft) then Fatal "Improper function type not set in force field file"
  else
  Ok (mv_one plist ft F_IDIHS bForward).

(** [excls__to_blocka] for a block that is still empty. *)
Definition excls__to_blocka (natom : nat) (excls : list (list nat)) : t_blocka :=
  let ex := map (fun i => excls !!! i) (seq 0 natom) in
  let nra := foldl (fun nra e => nra + length e) 0 ex in
  let index :=
    snd (foldl (fun (st : nat * list nat) e => (st.1 + length e, st.2 ++ [st.1]))
               (0, []) ex) in
  mk_blocka natom (index ++ [nra]) nra (concat ex ++ [0]).

(** The charge of an atom: the first charge of the requested model. *)
Definition model_charge (iModel : Z) (charges : list AtomicCharge) : Q :=
  match list_find (fun qi => name2eemtype (charge_type qi) = iModel) charges with
  | Some (_, qi) => convert2gmx (charge_q qi) (string2unit (charge_unit qi))
  | None => 0%Q
  end.

Definition set_atoms (mol : MyMol) (atoms : t_atoms) (x : list rvec)
    (atype : gpp_atomtype_t) : MyMol :=
  mk_mymol _ _ (molprop mol) (bts mol) (nexcl_ mol) atoms x (plist_ mol) (excls_ mol)
    atype (bHaveVSites_ mol) (mtop_ mol) (ltop_ mol).

(** [GenerateAtoms]: the atoms of the calculation at the level of theory
    [lot] become the atoms of the topology; without such a calculation the
    status is [immLOT].  [real mass = 0] is handed to the query for the
    mass, and the mass of the atom is what the query leaves in it; when the
    query returns false a message is printed and nothing else changes. *)
Definition GenerateAtoms (lot : string) (iModel : Z) (mol : MyMol)
  : result (immStatus * MyMol) :=
  match GetLot (molprop mol) lot with
  | Some catoms =>
      '(atoms, x) ← rfold (fun (st : t_atoms * list rvec) cai =>
          let '(atoms, x) := st in
          let myunit := string2unit (ca_unit cai) in
          if decide (myunit = (-1)%Z) then Fatal "Unknown unit for atom coords"
          else
            let '(xx, yy, zz) := ca_coords cai in
            let q := model_charge iModel (ca_charges cai) in
            let mass := (gmx_atomprop_query_mass "???" (ca_name cai) 0%Q).2 in
            let a := mk_atom mass q mass q 0 0 0 0 (gmx_atomprop_atomnumber (ca_name cai)) in
            Ok (mk_atoms (atom atoms ++ [a]) (atomname atoms ++ [ca_name cai])
                         (atomtype atoms ++ [ca_obtype cai])
                         (atomtypeB atoms ++ [ca_obtype cai]),
                x ++ [(convert2gmx xx myunit, convert2gmx yy myunit,
                       convert2gmx zz myunit)]))
        (mk_atoms [] [] [] [], []) catoms;
      let nb := mk_param (replicate 6 0) (replicate MAXFORCEPARAM 0%Q) in
      let '(atype, atom') :=
        foldl (fun (st : gpp_atomtype_t * list t_atom) i =>
                 let '(atype, al) := st in
                 let a := al !!! i in
                 let '(atype, tp) := add_atomtype atype a (atomtype atoms !!! i) nb in
                 (atype, <[i := mk_atom (atom_m a) (atom_q a) (atom_mB a) (atom_qB a)
                                   tp tp (atom_ptype a) (atom_resind a)
                                   (atom_atomnumber a)]> al))
              (atype_ mol, atom atoms) (seq 0 (length (atom atoms))) in
      Ok (immOK,
          set_atoms mol (mk_atoms atom' (atomname atoms) (atomtype atoms) (atomtypeB atoms))
                    x atype)
  | None => Ok (immLOT, mol)
  end.

Definition set_plist (mol : MyMol) (plist : list t_params) : MyMol :=
  mk_mymol _ _ (molprop mol) (bts mol) (nexcl_ mol) (topology_atoms mol) (x_ mol)
    plist (excls_ mol) (atype_ mol) (bHaveVSites_ mol) (mtop_ mol) (ltop_ mol).

(** [MakeAngles] *)
Definition MakeAngles (mol : MyMol) : MyMol :=
  let '(plist, excls) := gen_pad_excls (nexcl_ mol) (topology_atoms mol) (plist_ mol) in
  mk_mymol _ _ (molprop mol) (bts mol) (nexcl_ mol) (topology_atoms mol) (x_ mol)
    plist excls (atype_ mol) (bHaveVSites_ mol) (mtop_ mol) (ltop_ mol).

(** [MakeSpecialInteractions] *)
Definition MakeSpecialInteractions (bUseVsites : bool) (pd : gmx_poldata_t) (mol : MyMol)
  : MyMol :=
  let anr := atoms_nr (topology_atoms mol) in
  let gvt := special_motifs (x_ mol) anr (Bonds (molprop mol)) in
  let '(atoms, x, plist, atype, excls) :=
    generateSpecial gvt bUseVsites pd
      (topology_atoms mol, x_ mol, plist_ mol, atype_ mol, excls_ mol) in
  mk_mymol _ _ (molprop mol) (bts mol) (nexcl_ mol) atoms x plist excls atype
    (anr <? atoms_nr atoms) (mtop_ mol) (ltop_ mol).

(** The molecule when the function types are stored in [bts], the depth
    of the exclusions is set and the composition is generated. *)
Definition begin_topology (pd : gmx_poldata_t) (nexcl : nat) (mol : MyMol) : MyMol :=
  mk_mymol _ _ (GenerateComposition pd (molprop mol))
    (mk_bts (gmx_poldata_get_bond_ftype pd) (gmx_poldata_get_angle_ftype pd)
            (gmx_poldata_get_dihedral_ftype pd egdPDIHS)
            (gmx_poldata_get_dihedral_ftype pd egdIDIHS) 0 (Z.of_nat F_CMAP))
    nexcl (topology_atoms mol) (x_ mol) (plist_ mol) (excls_ mol) (atype_ mol)
    (bHaveVSites_ mol) (mtop_ mol) (ltop_ mol).

(** [snew(topology_, 1); init_top(topology_);] *)
Definition fresh_topology (mol : MyMol) : MyMol :=
  set_atoms mol (mk_atoms [] [] [] []) (x_ mol) (atype_ mol).

(** The blocks [if (immOK == imm) { ... }] of [GenerateTopology], each
    from the status and the molecule to the status and the molecule. *)

(** The atoms. *)
Definition topology_atoms_block (lot : string) (iModel : Z) (st : immStatus * MyMol)
  : result (immStatus * MyMol) :=
  let '(imm, mol) := st in
  if decide (immOK = imm) then GenerateAtoms lot iModel (fresh_topology mol)
  else Ok (imm, mol).

(** The bonds go to the list of [F_BONDS]; a molecule without bonds has
    the status [immGenBonds]. *)
Definition topology_bonds_block (st : immStatus * MyMol) : immStatus * MyMol :=
  let '(imm, mol) := st in
  if decide (immOK = imm) then
    let b := fun ai aj => mk_param (ai - 1 :: aj - 1 :: replicate 4 0)
                                   (replicate MAXFORCEPARAM 0%Q) in
    let plist :=
      foldl (fun plist (bi : nat * nat) =>
               <[F_BONDS := plist !!! F_BONDS ++ [b bi.1 bi.2]]> plist)
            (plist_ mol) (Bonds (molprop mol)) in
    (if NBond (molprop mol) =? 0 then immGenBonds else imm, set_plist mol plist)
  else (imm, mol).

(** Angles, dihedrals, special interactions and the move of the lists to
    the function types of the force field. *)
Definition topology_interactions_block (pd : gmx_poldata_t) (bUseVsites bPairs : bool)
    (edih : eDih) (st : immStatus * MyMol) : result (immStatus * MyMol) :=
  let '(imm, mol) := st in
  if decide (immOK = imm) then
    let mol := MakeAngles mol in
    let mol := MakeSpecialInteractions bUseVsites pd mol in
    let plist := plist_ mol in
    let plist := if bPairs then plist else <[F_LJ14 := []]> plist in
    let plist := match edih with
                 | edihNo => <[F_PDIHS := []]> plist
                 | _ => plist
                 end in
    plist ← mv_plists pd plist true;
    Ok (imm, set_plist mol plist)
  else Ok (imm, mol).

(** The force constants and the assembled topology. *)
Definition topology_mtop_block (pd : gmx_poldata_t) (st : immStatus * MyMol)
  : immStatus * MyMol :=
  let '(imm, mol) := st in
  if decide (immOK = imm) then
    let plist := get_force_constants pd (plist_ mol) (topology_atoms mol) in
    let mtop := do_init_mtop pd (GetMolname (molprop mol)) (topology_atoms mol) in
    let mtop := plist_to_mtop enter_params pd plist mtop in
    let mtop :=
      mk_mtop (mtop_name mtop) (nmoltype mtop) (moltype_name mtop)
        (moltype_atoms mtop) (moltype_cgs mtop) (moltype_ilist mtop)
        (excls__to_blocka (atoms_nr (topology_atoms mol)) (excls_ mol))
        (nmolblock mtop) (molblock_nmol mtop) (molblock_type mtop)
        (molblock_natoms_mol mtop) (egcENER_nr mtop) (ffparams mtop) (natoms mtop) in
    (imm,
     mk_mymol _ _ (molprop mol) (bts mol) (nexcl_ mol) (topology_atoms mol) (x_ mol)
       plist (excls_ mol) (atype_ mol) (bHaveVSites_ mol) (Some mtop)
       (Some (gmx_mtop_generate_local_top mtop)))
  else (imm, mol).

(** [GenerateTopology]: the result is fatal or the status together with
    the molecule. *)
Definition GenerateTopology (pd : gmx_poldata_t) (lot : string) (iModel : Z)
    (nexcl : nat) (bUseVsites bPairs : bool) (edih : eDih) (mol : MyMol)
  : result (immStatus * MyMol) :=
  if decide (NOTSET = gmx_poldata_get_bond_ftype pd)
  then Fatal "No bonded type defined in force field file"
  else
  if decide (NOTSET = gmx_poldata_get_angle_ftype pd)
  then Fatal "No angle type defined in force field file"
  else
  if decide (NOTSET = gmx_poldata_get_dihedral_ftype pd egdIDIHS)
  then Fatal "No improper dihedral type defined in force field file"
  else
  if decide (NOTSET = gmx_poldata_get_dihedral_ftype pd egdPDIHS)
  then Fatal "No dihedral type defined in force field file"
  else
  let mol := begin_topology pd nexcl mol in
  let imm := if decide (NAtom (molprop mol) ≤ 0)%Z then immAtomTypes else immOK in
  st ← topology_atoms_block lot iModel (imm, mol);
  st ← topology_interactions_block pd bUseVsites bPairs edih (topology_bonds_block st);
  Ok (topology_mtop_block pd st).
End topology.

(** ** Shells *)

Definition add_excl (excls : list nat) (e : nat) : list nat :=
  if existsb (Nat.eqb e) excls then excls else excls ++ [e].

(** [add_excl(&excls[ai], aj)] *)
Definition add_excl_at (excls : list (list nat)) (ai aj : nat) : list (list nat) :=
  <[ai := add_excl (excls !!! ai) aj]> excls.

(** [if (ai != aj) { add_excl(&excls[ai], aj); add_excl(&excls[aj], ai); }] *)
Definition add_excl_pair (excls : list (list nat)) (ai aj : nat) : list (list nat) :=
  if negb (ai =? aj) then add_excl_at (add_excl_at excls ai aj) aj ai else excls.

(** [remove_excl]: the entries after [remove] move down by one and [nr]
    decreases. *)
Definition remove_excl (excls : list nat) (remove : nat) : list nat :=
  if remove <? length excls then delete remove excls
  else take (length excls - 1) excls.

(** The loop [for (k = 0; k < excls[i].nr; )] of [prune_excl]: either entry
    [k] is removed or [k] advances, so [length e] rounds are enough. *)
Fixpoint prune_loop (is_shell : nat → bool) (fuel k : nat) (e : list nat) : list nat :=
  match fuel with
  | 0 => e
  | S fuel =>
      match e !! k with
      | Some ak =>
          if negb (is_shell ak) then prune_loop is_shell fuel k (remove_excl e k)
          else prune_loop is_shell fuel (S k) e
      | None => e
      end
  end.

(** A pair of loops that run together on two parts of the state which do
    not read each other. *)
Definition both {A B C} (f : A → C → A) (g : B → C → B) (st : A * B) (i : C) : A * B :=
  (f st.1 i, g st.2 i).

Section shells.
Context `{gmx_tables} `{gmx_atomtypes} `{gmx_molprop}.

(** [get_atomtype_ptype(atoms->atom[i].type, atype) == eptShell] *)
Definition is_shell (atoms : t_atoms) (atype : gpp_atomtype_t) (i : nat) : bool :=
  bool_decide (get_atomtype_ptype (atom_type (atom atoms !!! i)) atype = Z.of_nat eptShell).

Definition prune_excl (excls : list (list nat)) (atoms : t_atoms) (atype : gpp_atomtype_t)
  : list (list nat) :=
  foldl (fun excls i =>
           if negb (is_shell atoms atype i)
           then <[i := prune_loop (is_shell atoms atype) (length (excls !!! i)) 0
                         (excls !!! i)]> excls
           else excls)
        excls (seq 0 (atoms_nr atoms)).

(** The polarisation parameter [p] of [AddShells] after [memset]. *)
Definition zero_param : t_param :=
  mk_param (replicate 6 0) (replicate MAXFORCEPARAM 0%Q).

(** The first loop of [AddShells]: the number of shells [ns], the table
    [renum], the parameter [p] and the polarisation list. *)
Definition shell_renum (pd : gmx_poldata_t) (atoms : t_atoms) (pol : t_params)
  : nat * list nat * t_param * t_params :=
  let nr := atoms_nr atoms in
  let '(ns, renum, p, pol) :=
    foldl (fun (st : nat * list nat * t_param * t_params) i =>
             let '(ns, renum, p, pol) := st in
             let renum := <[i := i + ns]> renum in
             match gmx_poldata_get_atype_pol pd (atomtype atoms !!! i) with
             | Some (polv, sigpol) =>
                 let p := mk_param (<[1 := renum !!! i + 1]> (<[0 := renum !!! i]> (p_a p)))
                                   (<[0 := ((1 # 1000) * polv)%Q]> (p_c p)) in
                 (S ns, renum, p, pol ++ [p])
             | None => (ns, renum, p, pol)
             end)
          (0, replicate (nr * 2 + 2) 0, zero_param, pol) (seq 0 nr) in
  (ns, <[nr := nr + ns]> renum, p, pol).

(** The arrays [newa], [newx] and [newname] and the table of atom types. *)
Record shell_atoms := mk_shell_atoms {
  newa : t_atoms;
  newx : list rvec;
  newname : list string;
  newtype : gpp_atomtype_t
}.

(** The body of the loop that copies atom [i] to its new place. *)
Definition copy_atom (atoms : t_atoms) (x : list rvec) (renum : list nat)
    (sa : shell_atoms) (i : nat) : shell_atoms :=
  let r := renum !!! i in
  mk_shell_atoms
    (mk_atoms (<[r := atom atoms !!! i]> (atom (newa sa)))
              (<[r := atomname atoms !!! i]> (atomname (newa sa)))
              (<[r := atomtype atoms !!! i]> (atomtype (newa sa)))
              (<[r := atomtypeB atoms !!! i]> (atomtypeB (newa sa))))
    (<[r := x !!! i]> (newx sa))
    (<[r := atomtype atoms !!! i]> (newname sa))
    (newtype sa).

Definition set_charge (a : t_atom) (q qB : Q) : t_atom :=
  mk_atom (atom_m a) q (atom_mB a) qB (atom_type a) (atom_typeB a) (atom_ptype a)
          (atom_resind a) (atom_atomnumber a).

(** The shell [j] of atom [i]: a copy of the atom with mass and atomic
    number 0 and the type of a shell; the charge of the atom at [iat] is set
    to 0. *)
Definition make_shell (atoms : t_atoms) (x : list rvec) (p : t_param) (i iat : nat)
    (sa : shell_atoms) (j : nat) : shell_atoms :=
  let a := atom atoms !!! i in
  let al := <[j := a]> (atom (newa sa)) in
  let al := <[iat := set_charge (al !!! iat) 0 0]> al in
  let buf := get_atomtype_name (atom_type a) (newtype sa) +:+ "s" in
  let shell_atom := mk_atom 0 0 0 0 0 0 eptShell 0 0 in
  let '(atype, shell) := add_atomtype (newtype sa) shell_atom buf p in
  let aj := al !!! j in
  let al := <[j := mk_atom 0 (atom_q aj) 0 (atom_qB aj) shell shell eptShell
                          (atom_resind a) 0]> al in
  mk_shell_atoms
    (mk_atoms al
              (<[j := atomname atoms !!! i +:+ "s"]> (atomname (newa sa)))
              (<[j := buf]> (atomtype (newa sa)))
              (<[j := buf]> (atomtypeB (newa sa))))
    (<[j := x !!! i]> (newx sa))
    (<[j := buf]> (newname sa))
    atype.

(** The new indices of the shells of atom [i]:
    [for (j = iat+1; j < renum[i+1]; j++)]. *)
Definition shells_of (renum : list nat) (i : nat) : list nat :=
  seq (renum !!! i + 1) (renum !!! (i + 1) - (renum !!! i + 1)).

(** The exclusions of atom [i] go to its new index. *)
Definition inherit_excls (excls : list (list nat)) (renum : list nat)
    (newexcls : list (list nat)) (i : nat) : list (list nat) :=
  foldl (fun ne e => add_excl_at ne (renum !!! i) (renum !!! e)) newexcls (excls !!! i).

(** The shell [j] of atom [i] excludes what atom [i] excluded. *)
Definition shell_excls (excls : list (list nat)) (renum : list nat) (i : nat)
    (newexcls : list (list nat)) (j : nat) : list (list nat) :=
  foldl (fun ne e => add_excl_pair ne j (renum !!! e)) newexcls (excls !!! i).

(** The loop [for (k = 0; k < newexcls[iat].nr; k++)] reads the list it
    may extend; the list grows by at most one entry, the shell [j] itself,
    so that one round more than its length is enough. *)
Fixpoint shell_excl_loop (fuel iat j k : nat) (newexcls : list (list nat))
  : list (list nat) :=
  match fuel with
  | 0 => newexcls
  | S fuel =>
      match (newexcls !!! iat) !! k with
      | Some aj => shell_excl_loop fuel iat j (S k) (add_excl_pair newexcls j aj)
      | None => newexcls
      end
  end.

Definition close_shell_excls (renum : list nat) (newexcls : list (list nat)) (i : nat)
  : list (list nat) :=
  let iat := renum !!! i in
  foldl (fun ne j => shell_excl_loop (S (length (ne !!! iat))) iat j 0 ne)
        newexcls (shells_of renum i).

(** The exclusions between each polarisation pair, in both directions. *)
Definition polarization_excls (pol : t_params) (newexcls : list (list nat))
  : list (list nat) :=
  foldl (fun ne p => add_excl_at (add_excl_at ne (p_a p !!! 0) (p_a p !!! 1))
                                 (p_a p !!! 1) (p_a p !!! 0))
        newexcls pol.

(** The loop over the atoms that makes the shells: atom [i] passes its
    exclusions on to its new index, then each of its shells is filled in
    and excludes what the atom excluded. *)
Definition shell_loop (atoms : t_atoms) (x : list rvec) (p : t_param)
    (excls : list (list nat)) (renum : list nat)
    (st : shell_atoms * list (list nat)) (i : nat) : shell_atoms * list (list nat) :=
  foldl (both (make_shell atoms x p i (renum !!! i)) (shell_excls excls renum i))
        (st.1, inherit_excls excls renum st.2 i) (shells_of renum i).

(** What [shell_loop] does to the exclusions alone. *)
Definition shell_loop_excls (excls : list (list nat)) (renum : list nat)
    (newexcls : list (list nat)) (i : nat) : list (list nat) :=
  foldl (shell_excls excls renum i) (inherit_excls excls renum newexcls i)
        (shells_of renum i).

(** What [shell_loop] does to the atoms alone. *)
Definition shell_loop_atoms (atoms : t_atoms) (x : list rvec) (p : t_param)
    (renum : list nat) (sa : shell_atoms) (i : nat) : shell_atoms :=
  foldl (make_shell atoms x p i (renum !!! i)) sa (shells_of renum i).

(** [plist_[i].param[j].a[k] = renum[plist_[i].param[j].a[k]]] for the
    function types other than [F_POLARIZATION]. *)
Definition renumber_plist (renum : list nat) (plist : list t_params) : list t_params :=
  foldl (fun plist i =>
           if negb (i =? F_POLARIZATION) then
             <[i := map (fun p =>
                           mk_param (foldl (fun a k => <[k := renum !!! (a !!! k)]> a)
                                           (p_a p) (seq 0 (NRAL i)))
                                    (p_c p))
                        (plist !!! i)]> plist
           else plist)
        plist (seq 0 F_NRE).

(** The number of shells that [AddShells] adds to a molecule. *)
Definition shells_added (pd : gmx_poldata_t) (mol : MyMol) : nat :=
  (shell_renum pd (topology_atoms mol) (plist_ mol !!! F_POLARIZATION)).1.1.1.

Definition AddShells (pd : gmx_poldata_t) (mol : MyMol) : MyMol :=
  let atoms := topology_atoms mol in
  let nr := atoms_nr atoms in
  let '(ns, renum, p, pol) := shell_renum pd atoms (plist_ mol !!! F_POLARIZATION) in
  let plist := <[F_POLARIZATION := pol]> (plist_ mol) in
  if 0 <? ns then
    let n' := nr + ns in
    let sa := mk_shell_atoms (init_t_atoms n') (replicate n' (0, 0, 0)%Q)
                             (replicate n' EmptyString) (atype_ mol) in
    let newexcls := polarization_excls pol (replicate n' []) in
    let sa := foldl (copy_atom atoms (x_ mol) renum) sa (seq 0 nr) in
    let '(sa, newexcls) :=
      foldl (shell_loop atoms (x_ mol) p (excls_ mol) renum) (sa, newexcls) (seq 0 nr) in
    let newexcls := foldl (close_shell_excls renum) newexcls (seq 0 nr) in
    let newexcls := prune_excl newexcls (newa sa) (newtype sa) in
    mk_mymol _ _ (molprop mol) (bts mol) (nexcl_ mol)
      (mk_atoms (atom (newa sa)) (atomname (newa sa)) (newname sa) (atomtypeB (newa sa)))
      (newx sa) (renumber_plist renum plist) newexcls (newtype sa)
      (bHaveVSites_ mol) (mtop_ mol) (ltop_ mol)
  else
    mk_mymol _ _ (molprop mol) (bts mol) (nexcl_ mol) atoms (x_ mol) plist (excls_ mol)
      (atype_ mol) (bHaveVSites_ mol) (mtop_ mol) (ltop_ mol).
End shells.

(** A parameter table that appends every tuple it is given, for the
    examples. *)
Definition append_params (ff : gmx_ffparams_t) (ftype : nat) (c : list Q)
    (comb : Z) (reppow : Q) (start : nat) (bAppend : bool) : gmx_ffparams_t * nat :=
  (mk_ffparams (atnr ff) (S (ntypes ff)) (reppow)
     (<[ntypes ff := Z.of_nat ftype]> (functype ff))
     (<[ntypes ff := c]> (iparams ff)),
   ntypes ff).

(** A store without any parameter, whose function types are those of
    [small_tables], and a molecule of two atoms of one type joined by a bond
    whose first force constant was never set. *)
Definition empty_poldata : gmx_poldata_t := {|
  gmx_poldata_get_bond_ftype := 0;
  gmx_poldata_get_angle_ftype := 1;
  gmx_poldata_get_dihedral_ftype := fun k => if k =? 0 then 2%Z else 3%Z;
  gmx_poldata_get_vdw_ftype := 5;
  gmx_poldata_get_fudgeLJ := 1;
  gmx_poldata_get_length_unit := "nm";
  gmx_poldata_atype_to_btype := fun s => s;
  gmx_poldata_search_bond := fun _ _ => (0%Z, 0%Q, "");
  gmx_poldata_search_angle := fun _ _ _ => (0%Z, 0%Q, "");
  gmx_poldata_search_dihedral := fun _ _ _ _ _ => (0%Z, 0%Q, "");
  gmx_poldata_get_atype_pol := fun _ => None
|}.

Definition carbon : t_atom := mk_atom 12 0 12 0 0 0 0 0 6.
Definition two_carbons : t_atoms :=
  mk_atoms [carbon; carbon] ["C1"; "C2"] ["c3"; "c3"] ["c3"; "c3"].
Definition unset_bond : t_param :=
  mk_param [0; 1; 0; 0; 0; 0] (((-12345) # 1)%Q :: (5 # 1)%Q :: replicate 10 0%Q).
Definition unset_bond_plist : list t_params :=
  [[unset_bond]; []; []; []; []; []; []; []; []].

(** ** Exclusion sets as relations *)

(** Atom [i] excludes atom [j]. *)
Definition excludes (excls : list (list nat)) (i j : nat) : Prop := j ∈ excls !!! i.

(** Among the atoms below [n], [i] excludes [j] exactly when [j] excludes
    [i]. *)
Definition symmetric_excls (n : nat) (excls : list (list nat)) : Prop :=
  ∀ i j, i < n → j < n → excludes excls i j ↔ excludes excls j i.

(** There is one exclusion list for each of the [n] atoms and the lists
    name atoms below [n] only. *)
Definition excls_in_range (n : nat) (excls : list (list nat)) : Prop :=
  length excls = n ∧ ∀ i j, excludes excls i j → j < n.

(** The exclusion lists [ex'] come from [ex] by calls of [add_excl] that
    either add a pair in both directions or add an entry of [Old]. *)
Inductive excl_adds (Old : nat → nat → Prop)
  : list (list nat) → list (list nat) → Prop :=
| adds_refl ex : excl_adds Old ex ex
| adds_pair ex ex' a b :
    excl_adds Old ex ex' →
    excl_adds Old ex (add_excl_at (add_excl_at ex' a b) b a)
| adds_old ex ex' a b :
    excl_adds Old ex ex' → Old a b → excl_adds Old ex (add_excl_at ex' a b).

(** The pairs that [AddShells] takes over from the old exclusions: the new
    indices of an atom below [nr] and of an atom it excluded. *)
Definition inherited (excls : list (list nat)) (renum : list nat) (nr : nat)
    (x y : nat) : Prop :=
  ∃ a b, a < nr ∧ b ∈ excls !!! a ∧ x = renum !!! a ∧ y = renum !!! b.

(** The claim on the insertion of a shell for a single atom, as the
    specification words it: two atoms, the second one a shell of mass 0 and
    charge 0, and one polarisation term whose first coefficient is 0.001
    times the polarisability. *)
Definition single_shell_as_specified (atoms : t_atoms) (pol : t_params) (polv : Q) : Prop :=
  atoms_nr atoms = 2 ∧
  (atom_m (atom atoms !!! 1%nat) == 0)%Q ∧ (atom_q (atom atoms !!! 1%nat) == 0)%Q ∧
  ∃ p, pol = [p] ∧ (p_c p !!! 0%nat == (1 # 1000) * polv)%Q.

(** ** Instances of the interfaces and molecules for the examples *)

(** Angles are not needed in the examples. *)
Definition flat_geometry : gmx_geometry := {|
  RAD2DEG := 57;
  bond_angle := fun _ _ _ => 0%Q;
  dih_angle := fun _ _ _ _ => 0%Q
|}.

(** A table of atom types kept as the list of the names and particle
    types; a name that is in the table already is not added again. *)
Definition list_atomtypes : gmx_atomtypes := {|
  gpp_atomtype_t := list (string * nat);
  init_atomtype := [];
  add_atomtype := fun ga a name nb =>
    match list_find (fun e => e.1 = name) ga with
    | Some (i, _) => (ga, i)
    | None => (ga ++ [(name, atom_ptype a)], length ga)
    end;
  get_atomtype_name := fun nt ga => default EmptyString (fst <$> ga !! nt);
  get_atomtype_ptype := fun nt ga => default (-12345)%Z (Z.of_nat ∘ snd <$> ga !! nt)
|}.

(** A [MolProp] that is the record of what its access functions return. *)
Record molprop_data := mk_molprop {
  mp_name : string;
  mp_natom : Z;
  mp_bonds : list (nat * nat);
  mp_calcs : list (string * list CalcAtom)
}.

Definition data_molprop : gmx_molprop := {|
  MolProp := molprop_data;
  GetMolname := mp_name;
  GenerateComposition := fun _ mp => mp;
  NAtom := mp_natom;
  NBond := fun mp => length (mp_bonds mp);
  Bonds := mp_bonds;
  GetLot := fun mp lot => (fun c => c.2.2) <$> list_find (fun c => c.1 = lot) (mp_calcs mp);
  name2eemtype := fun _ => 0%Z;
  gmx_atomprop_atomnumber := fun _ => 6;
  gmx_atomprop_query_mass := fun _ _ _ => (true, 12%Q)
|}.

(** Generators that add nothing: no angles, no exclusions, no virtual
    sites; the local topology has the lists of the molecule type. *)
Definition idle_generators : gmx_generators (H := list_atomtypes) := {|
  gen_pad_excls := fun nexcl atoms plist => (plist, replicate (atoms_nr atoms) []);
  generateSpecial := fun _ _ _ st => st;
  gmx_mtop_generate_local_top := moltype_ilist;
  enter_params := append_params
|}.

(** A molecule of one carbon atom without bonds, computed at the level of
    theory "B3LYP". *)
Definition lone_carbon : molprop_data :=
  mk_molprop "C" 1 []
    [("B3LYP", [mk_calcatom "C" "c3" "nm" (0, 0, 0)%Q [mk_charge "ESP" "e" 1%Q]])].

(** A molecule of two carbon atoms of type c3 joined by one bond. *)
Definition bonded_carbons : molprop_data :=
  mk_molprop "C2" 2 [(1, 2)]
    [("B3LYP", [mk_calcatom "C1" "c3" "nm" (0, 0, 0)%Q [];
                mk_calcatom "C2" "c3" "nm" (1, 0, 0)%Q []])].

Definition new_mymol (mp : molprop_data) : MyMol (H := list_atomtypes) (H0 := data_molprop) :=
  mk_mymol list_atomtypes data_molprop mp (mk_bts 0 0 0 0 0 0) 0
    (mk_atoms [] [] [] []) [] (replicate 9 []) [] [] false None None.

(** A store in which the atom type c3 has the polarisability 2. *)
Definition polar_poldata : gmx_poldata_t := {|
  gmx_poldata_get_bond_ftype := 0;
  gmx_poldata_get_angle_ftype := 1;
  gmx_poldata_get_dihedral_ftype := fun k => if k =? 0 then 2%Z else 3%Z;
  gmx_poldata_get_vdw_ftype := 5;
  gmx_poldata_get_fudgeLJ := 1;
  gmx_poldata_get_length_unit := "nm";
  gmx_poldata_atype_to_btype := fun s => s;
  gmx_poldata_search_bond := fun _ _ => (0%Z, 0%Q, "");
  gmx_poldata_search_angle := fun _ _ _ => (0%Z, 0%Q, "");
  gmx_poldata_search_dihedral := fun _ _ _ _ _ => (0%Z, 0%Q, "");
  gmx_poldata_get_atype_pol := fun s => if String.eqb s "c3" then Some (2%Q, 0%Q) else None
|}.

(** One carbon atom with the charge 1, with its type c3 in the table of
    atom types. *)
Definition charged_carbon : t_atom := mk_atom 12 1 12 1 0 0 0 0 6.
Definition one_carbon : MyMol (H := list_atomtypes) (H0 := data_molprop) :=
  mk_mymol list_atomtypes data_molprop lone_carbon (mk_bts 0 1 2 3 0 8) 3
    (mk_atoms [charged_carbon] ["C1"] ["c3"] ["c3"]) [(0, 0, 0)%Q]
    (replicate 9 []) [[]] [("c3", 0)] false None None.

(** Two bonded carbon atoms that exclude each other. *)
Definition ethyne_carbons : MyMol (H := list_atomtypes) (H0 := data_molprop) :=
  mk_mymol list_atomtypes data_molprop
    (mk_molprop "C2" 2 [(1, 2)] [])
    (mk_bts 0 1 2 3 0 8) 3
    two_carbons [(0, 0, 0)%Q; (1, 0, 0)%Q]
    (<[0 := [bond 0 1]]> (replicate 9 [])) [[1]; [0]] [("c3", 0)] false None None.

(** ** Further functions of the file, and notions for their properties *)

Section entered_terms.
Context `{gmx_tables}.
Variable enter_params :
  gmx_ffparams_t → nat → list Q → Z → Q → nat → bool → gmx_ffparams_t * nat.



End entered_terms.

(** The tokens of a split parameter string that are not empty. *)
Definition nonempty (ptr : list string) : list string :=
  filter (fun tok => 0 < String.length tok) ptr.

Section idef_missing.
Context `{gmx_tables} `{gmx_strings}.

(** The bond type of the atom in position [k] of the interaction list. *)
Definition idef_btype (pd : gmx_poldata_t) (atoms : t_atoms) (iatoms : list nat)
    (k : nat) : string :=
  gmx_poldata_atype_to_btype pd (atomtype atoms !!! (iatoms !!! k)).

(** An interaction of the local topology for which the search of the store
    returns 0, for each of the four kinds that [UpdateIdef] looks at. *)
Definition bond_missing (pd : gmx_poldata_t) (atoms : t_atoms) (il : list (list nat))
  : Prop :=
  let ftb := Z.to_nat (gmx_poldata_get_bond_ftype pd) in
  let iatoms := il !!! ftb in
  ∃ i, i ∈ idef_starts (length iatoms) (NRAL ftb + 1) ∧
       (gmx_poldata_search_bond pd (idef_btype pd atoms iatoms (i + 1))
          (idef_btype pd atoms iatoms (i + 2))).1.1 = 0%Z.

Definition angle_missing (pd : gmx_poldata_t) (atoms : t_atoms) (il : list (list nat))
  : Prop :=
  let fta := Z.to_nat (gmx_poldata_get_angle_ftype pd) in
  let iatoms := il !!! fta in
  ∃ i, i ∈ idef_starts (length iatoms) (NRAL fta + 1) ∧
       (gmx_poldata_search_angle pd (idef_btype pd atoms iatoms (i + 1))
          (idef_btype pd atoms iatoms (i + 2))
          (idef_btype pd atoms iatoms (i + 3))).1.1 = 0%Z.

Definition dihedral_missing (pd : gmx_poldata_t) (egd : nat) (atoms : t_atoms)
    (il : list (list nat)) : Prop :=
  let ftd := Z.to_nat (gmx_poldata_get_dihedral_ftype pd egd) in
  let iatoms := il !!! ftd in
  ∃ i, i ∈ idef_starts (length iatoms) (NRAL ftd + 1) ∧
       (gmx_poldata_search_dihedral pd egd (idef_btype pd atoms iatoms (i + 1))
          (idef_btype pd atoms iatoms (i + 2)) (idef_btype pd atoms iatoms (i + 3))
          (idef_btype pd atoms iatoms (i + 4))).1.1 = 0%Z.
End idef_missing.

Global Instance t_param_inhabited : Inhabited t_param := populate (mk_param [] []).

Section ilist_entries.
Context `{gmx_tables}.

(** The entry of one interaction in [iatoms]: the handle of its parameters
    and its atoms. *)
Definition ilist_entry (i : nat) (h : nat) (p : t_param) : list nat :=
  h :: map (fun l => p_a p !!! l) (seq 0 (NRAL i)).
End ilist_entries.

(** The two lists that [mv_one] touches are lists of [plist]. *)
Definition movable (plist : list t_params) (ft : Z) (F : nat) : Prop :=
  (0 ≤ ft)%Z ∧ Z.to_nat ft < length plist ∧ F < length plist.

Section calc_atoms.
Context `{gmx_tables} `{gmx_strings} `{gmx_atomtypes} `{gmx_molprop}.

(** The atom that [GenerateAtoms] makes of an atom of the calculation,
    before its type is entered in the table of atom types.  The mass is
    what the query for the mass leaves in [mass], which is 0 before the
    call; the value the query returns only decides whether a message is
    printed. *)
Definition calc_atom (iModel : Z) (cai : CalcAtom) : t_atom :=
  let q := model_charge iModel (ca_charges cai) in
  let mass := (gmx_atomprop_query_mass "???" (ca_name cai) 0%Q).2 in
  mk_atom mass q mass q 0 0 0 0 (gmx_atomprop_atomnumber (ca_name cai)).

(** Its coordinates in the units of gromacs. *)
Definition calc_coords (cai : CalcAtom) : rvec :=
  let myunit := string2unit (ca_unit cai) in
  let '(xx, yy, zz) := ca_coords cai in
  (convert2gmx xx myunit, convert2gmx yy myunit, convert2gmx zz myunit).

(** Two atoms that differ in their type only. *)
Definition same_but_type (a b : t_atom) : Prop :=
  atom_m a = atom_m b ∧ atom_q a = atom_q b ∧ atom_mB a = atom_mB b ∧
  atom_qB a = atom_qB b ∧ atom_ptype a = atom_ptype b ∧
  atom_resind a = atom_resind b ∧ atom_atomnumber a = atom_atomnumber b.
End calc_atoms.

Section shell_numbering.
Context `{gmx_tables}.

(** The atom type of atom [i] has a polarisability in the store:
    [1 == gmx_poldata_get_atype_pol(pd, *atoms.atomtype[i], &pol, &sigpol)]. *)
Definition polarizable (pd : gmx_poldata_t) (atoms : t_atoms) (i : nat) : bool :=
  bool_decide (is_Some (gmx_poldata_get_atype_pol pd (atomtype atoms !!! i))).

(** The number of polarisable atoms among the first [k] atoms. *)
Definition shells_before (pd : gmx_poldata_t) (atoms : t_atoms) (k : nat) : nat :=
  length (filter (fun i => polarizable pd atoms i = true) (seq 0 k)).

(** The place of atom [i] once every polarisable atom before it is
    followed by its shell. *)
Definition new_index (pd : gmx_poldata_t) (atoms : t_atoms) (i : nat) : nat :=
  i + shells_before pd atoms i.

(** The polarisation term between atom [i] and its shell. *)
Definition shell_param (pd : gmx_poldata_t) (atoms : t_atoms) (i : nat) : t_param :=
  let polv := match gmx_poldata_get_atype_pol pd (atomtype atoms !!! i) with
              | Some (polv, _) => polv
              | None => 0%Q
              end in
  mk_param (new_index pd atoms i :: new_index pd atoms i + 1 :: replicate 4 0)
           (<[0 := ((1 # 1000) * polv)%Q]> (replicate MAXFORCEPARAM 0%Q)).
End shell_numbering.

Section shell_atoms_made.
Context `{gmx_tables}.
(** The shell of the atom [a]: mass and atomic number 0, the charge of
    [a], the particle type of a shell. *)
Definition is_shell_of (a sh : t_atom) : Prop :=
  atom_m sh = 0%Q ∧ atom_mB sh = 0%Q ∧
  atom_q sh = atom_q a ∧ atom_qB sh = atom_qB a ∧
  atom_ptype sh = eptShell ∧ atom_resind sh = atom_resind a ∧
  atom_atomnumber sh = 0 ∧ atom_typeB sh = atom_type sh.

(** The atoms after the loop that makes the shells, run for the atoms
    below [k]. *)
Definition shells_made (pd : gmx_poldata_t) (atoms : t_atoms)
    (orig : list t_atom) (k : nat) (al : list t_atom) : Prop :=
  length al = length orig ∧
  (∀ i, i < atoms_nr atoms →
     al !! new_index pd atoms i
     = Some (if bool_decide (i < k) && polarizable pd atoms i
             then set_charge (atom atoms !!! i) 0 0 else atom atoms !!! i)) ∧
  (∀ i, i < k → polarizable pd atoms i = true →
     ∃ sh, al !! (new_index pd atoms i + 1) = Some sh ∧ is_shell_of (atom atoms !!! i) sh).
End shell_atoms_made.

(** The sum of a quantity over the atoms. *)
Definition total (f : t_atom → Q) (al : list t_atom) : Q :=
  foldr Qplus 0%Q (map f al).

(** The bond [b] of the molecule, with its atoms numbered from 1, joins the
    atoms [i] and [j], numbered from 0, in this order. *)
Definition bond_joins (b : nat * nat) (i j : nat) : Prop :=
  b.1 - 1 = i ∧ b.2 - 1 = j.

(** ** Vectors ([vec.h]) *)

(** [norm] takes a square root; it is not computed here. *)
Class gmx_vec := { norm : rvec → Q }.

Definition clear_rvec : rvec := (0, 0, 0)%Q.
Definition rvec_add (a b : rvec) : rvec :=
  (a.1.1 + b.1.1, a.1.2 + b.1.2, a.2 + b.2)%Q.
Definition rvec_sub (a b : rvec) : rvec :=
  (a.1.1 - b.1.1, a.1.2 - b.1.2, a.2 - b.2)%Q.
Definition svmul (s : Q) (a : rvec) : rvec := (s * a.1.1, s * a.1.2, s * a.2)%Q.

Section symmetric.
Context `{gmx_vec} `{gmx_atomtypes} `{gmx_molprop}.

(** The centre of mass of [IsSymmetric]: [com[m] += mm*x_[i][m]] over the
    atoms, divided by the total mass [tm] when that is positive. *)
Definition centre_of_mass (atoms : t_atoms) (x : list rvec) : rvec :=
  let '(tm, com) :=
    foldl (fun (st : Q * rvec) i =>
             let mm := atom_m (atom atoms !!! i) in
             ((st.1 + mm)%Q, rvec_add st.2 (svmul mm (x !!! i))))
          (0%Q, clear_rvec) (seq 0 (atoms_nr atoms)) in
  if Qltb 0 tm then (com.1.1 / tm, com.1.2 / tm, com.2 / tm)%Q else com.

(** The loop [for (j = i+1; (j < nr) && !bSymm[i]; j++)]: once [bSymm[i]]
    is set nothing more is done. *)
Definition find_mirror (toler : Q) (x : list rvec) (nr i : nat) (bSymm : list bool)
  : list bool :=
  foldl (fun bSymm j =>
           if negb (bSymm !!! i) then
             if Qltb (norm (rvec_add (x !!! i) (x !!! j))) toler
             then <[j := true]> (<[i := true]> bSymm)
             else bSymm
           else bSymm)
        bSymm (seq (i + 1) (nr - (i + 1))).

(** [IsSymmetric]: the answer and the molecule, whose coordinates were
    moved to the centre of mass and back. *)
Definition IsSymmetric (toler : Q) (mol : MyMol) : bool * MyMol :=
  let atoms := topology_atoms mol in
  let nr := atoms_nr atoms in
  let com := centre_of_mass atoms (x_ mol) in
  let x := foldl (fun x i => <[i := rvec_sub (x !!! i) com]> x) (x_ mol) (seq 0 nr) in
  let bSymm :=
    foldl (fun bSymm i =>
             find_mirror toler x nr i (<[i := Qltb (norm (x !!! i)) toler]> bSymm))
          (replicate nr false) (seq 0 nr) in
  let bSymmAll := foldl (fun all i => all && bSymm !!! i) true (seq 0 nr) in
  let x := foldl (fun x i => <[i := rvec_add (x !!! i) com]> x) x (seq 0 nr) in
  (bSymmAll, set_atoms mol atoms x (atype_ mol)).
End symmetric.

(** ** The box around a molecule *)

Definition DIM : nat := 3.

(** Component [m] of a vector, or row [m] of a matrix, and its update. *)
Definition vec_get {A : Type} (v : A * A * A) (m : nat) : A :=
  match m with 0 => v.1.1 | 1 => v.1.2 | _ => v.2 end.
Definition vec_set {A : Type} (v : A * A * A) (m : nat) (a : A) : A * A * A :=
  match m with
  | 0 => (a, v.1.2, v.2)
  | 1 => (v.1.1, a, v.2)
  | _ => (v.1.1, v.1.2, a)
  end.

Definition matrix : Type := rvec * rvec * rvec.

(** The state of the first loop of [put_in_box]. *)
Record box_extent := mk_extent { xcom : rvec; xmin : rvec; xmax : rvec }.

(** One atom of the first loop: the maximum is looked at only when the
    minimum was not lowered. *)
Definition extend_box (x : list rvec) (st : box_extent) (i : nat) : box_extent :=
  foldl (fun st m =>
           if Qltb (vec_get (x !!! i) m) (vec_get (xmin st) m)
           then mk_extent (xcom st) (vec_set (xmin st) m (vec_get (x !!! i) m)) (xmax st)
           else if Qltb (vec_get (xmax st) m) (vec_get (x !!! i) m)
                then mk_extent (xcom st) (xmin st) (vec_set (xmax st) m (vec_get (x !!! i) m))
                else st)
        (mk_extent (rvec_add (xcom st) (x !!! i)) (xmin st) (xmax st)) (seq 0 DIM).

(** [put_in_box]: the new box; the centre [xcom] is computed and dropped. *)
Definition put_in_box (natom : nat) (box : matrix) (x : list rvec) (dbox : Q) : matrix :=
  let st := foldl (extend_box x) (mk_extent clear_rvec (x !!! 0) (x !!! 0)) (seq 0 natom) in
  (foldl (fun (cb : rvec * matrix) m =>
            (vec_set cb.1 m (vec_get cb.1 m / inject_Z (Z.of_nat natom))%Q,
             vec_set cb.2 m
               (vec_set (vec_get cb.2 m) m
                  (dbox + vec_get (xmax st) m - vec_get (xmin st) m)%Q)))
         (xcom st, box) (seq 0 DIM)).2.

(** A store whose bonds have the function type 6 of [small_tables] and not
    its type for harmonic bonds. *)
Definition shifted_poldata : gmx_poldata_t := {|
  gmx_poldata_get_bond_ftype := 6;
  gmx_poldata_get_angle_ftype := 1;
  gmx_poldata_get_dihedral_ftype := fun k => if k =? 0 then 2%Z else 3%Z;
  gmx_poldata_get_vdw_ftype := 5;
  gmx_poldata_get_fudgeLJ := 1;
  gmx_poldata_get_length_unit := "nm";
  gmx_poldata_atype_to_btype := fun s => s;
  gmx_poldata_search_bond := fun _ _ => (0%Z, 0%Q, "");
  gmx_poldata_search_angle := fun _ _ _ => (0%Z, 0%Q, "");
  gmx_poldata_search_dihedral := fun _ _ _ _ _ => (0%Z, 0%Q, "");
  gmx_poldata_get_atype_pol := fun _ => None
|}.

(** The sum of the absolute values of the components, in the place of the
    Euclidean norm. *)
Definition sum_norm : gmx_vec := {| norm := fun v => (Qabs v.1.1 + Qabs v.1.2 + Qabs v.2)%Q |}.

(* ===================================================================== *)
(** * Part II: properties                                                 *)
(* ===================================================================== *)

(** ** Ring detection *)

Section marks_lemmas.
Variable bonds : t_params.

Lemma marks_id : marks (fun st => st) (fun _ => False).
Proof. split; [done|]. naive_solver. Qed.

Lemma marks_iff F M M' : marks F M → (∀ x, M x ↔ M' x) → marks F M'.
Proof.
  intros [Hl Hx] HM. split; [done|].
  intros st x. rewrite Hx, HM. done.
Qed.

Lemma marks_mark_ring l : marks (mark_ring l) (fun x => x ∈ l).
Proof.
  induction l as [|a l [Hl Hx]].
  - split; [done|]. intros st x. rewrite elem_of_nil. naive_solver.
  - split.
    + intros st. simpl. rewrite length_insert. apply Hl.
    + intros st x. simpl. rewrite elem_of_cons.
      destruct (decide (x = a)) as [->|Hne].
      * destruct (decide (a < length st)) as [Hlt|Hge].
        -- rewrite list_lookup_insert_eq by (rewrite Hl; lia). naive_solver.
        -- rewrite list_insert_ge by (rewrite Hl; lia). rewrite Hx. naive_solver.
      * rewrite list_lookup_insert_ne by done. rewrite Hx. naive_solver.
Qed.

Lemma marks_guard (c : bool) F M :
  (c = true → marks F M) →
  marks (fun st => if c then F st else st) (fun x => c = true ∧ M x).
Proof.
  intros HF. destruct c.
  - eapply marks_iff; [exact (HF eq_refl)|]. naive_solver.
  - eapply marks_iff; [exact marks_id|]. naive_solver.
Qed.

Lemma marks_ite (c : bool) F G M N :
  (c = true → marks F M) → (c = false → marks G N) →
  marks (fun st => if c then F st else G st)
        (fun x => (c = true ∧ M x) ∨ (c = false ∧ N x)).
Proof.
  intros HF HG. destruct c.
  - eapply marks_iff; [exact (HF eq_refl)|]. naive_solver.
  - eapply marks_iff; [exact (HG eq_refl)|]. naive_solver.
Qed.

Lemma marks_foldl {A} (l : list A) (body : A → list bool → list bool)
      (M : A → nat → Prop) :
  (∀ b, b ∈ l → marks (body b) (M b)) →
  marks (fun st => foldl (fun s b => body b s) st l) (fun x => ∃ b, b ∈ l ∧ M b x).
Proof.
  induction l as [|b l IH]; intros Hb; simpl.
  - split; [done|]. intros st x. setoid_rewrite elem_of_nil. naive_solver.
  - destruct (Hb b) as [Hl1 Hx1]; [left|].
    destruct (IH (fun b' Hin => Hb b' (list_elem_of_further _ _ _ Hin)))
      as [Hl2 Hx2].
    split; [intros st; rewrite Hl2; apply Hl1|]. intros st x.
    rewrite Hx2, Hx1, Hl1.
    setoid_rewrite elem_of_cons. naive_solver.
Qed.

(** One level of the search: the scan of the bond list for the atoms bonded
    to [cur], each handed to the continuation [K]. *)
Lemma marks_step (cur : nat) (K : nat → list bool → list bool)
      (MK : nat → nat → Prop) :
  (∀ nxt, marks (K nxt) (MK nxt)) →
  marks (for_bonds bonds (fun b st =>
           match other_atom b cur with Some nxt => K nxt st | None => st end))
        (fun x => ∃ nxt, bonded bonds cur nxt ∧ MK nxt x).
Proof.
  intros HK. unfold for_bonds.
  eapply marks_iff.
  - apply (marks_foldl bonds _
             (fun b x => ∃ nxt, other_atom b cur = Some nxt ∧ MK nxt x)).
    intros b _. destruct (other_atom b cur) as [nxt|].
    + eapply marks_iff; [apply HK|]. naive_solver.
    + eapply marks_iff; [apply marks_id|]. naive_solver.
  - intros x. unfold bonded. naive_solver.
Qed.

Ltac eqb_prop :=
  repeat first
    [ setoid_rewrite negb_true_iff | setoid_rewrite Nat.eqb_eq
    | setoid_rewrite Nat.eqb_neq ].

Lemma ring_q_marks a1 a2 a3 a4 a5 a6 a7 a8 :
  a7 ≠ a1 →
  marks (ring_q bonds a1 a2 a3 a4 a5 a6 a7 a8)
        (extends bonds 0 a1 [a1; a2; a3; a4; a5; a6; a7; a8] a7 a8).
Proof.
  intros H7. unfold ring_q. eapply marks_iff.
  - apply marks_step; intros nxt. apply marks_guard; intros Hg.
    apply marks_mark_ring.
  - intros x; simpl; eqb_prop. naive_solver.
Qed.

Lemma ring_p_marks a1 a2 a3 a4 a5 a6 a7 :
  a7 ≠ a1 →
  marks (ring_p bonds a1 a2 a3 a4 a5 a6 a7)
        (extends bonds 1 a1 [a1; a2; a3; a4; a5; a6; a7] a6 a7).
Proof.
  intros H7. unfold ring_p. eapply marks_iff.
  - apply marks_step; intros nxt. apply marks_guard; intros Hg.
    apply marks_ite; intros Hc.
    + apply marks_mark_ring.
    + by apply ring_q_marks.
  - intros x; simpl; eqb_prop. naive_solver.
Qed.

Lemma ring_o_marks a1 a2 a3 a4 a5 a6 :
  marks (ring_o bonds a1 a2 a3 a4 a5 a6)
        (extends bonds 2 a1 [a1; a2; a3; a4; a5; a6] a5 a6).
Proof.
  unfold ring_o. eapply marks_iff.
  - apply marks_step; intros nxt. apply marks_guard; intros Hg.
    apply marks_ite; intros Hc.
    + apply marks_mark_ring.
    + apply ring_p_marks. by apply Nat.eqb_neq.
  - intros x; simpl; eqb_prop. naive_solver.
Qed.

Lemma ring_n_marks a1 a2 a3 a4 a5 :
  marks (ring_n bonds a1 a2 a3 a4 a5)
        (extends bonds 3 a1 [a1; a2; a3; a4; a5] a4 a5).
Proof.
  unfold ring_n. eapply marks_iff.
  - apply marks_step; intros nxt. apply marks_guard; intros Hg.
    apply marks_ite; intros Hc.
    + apply marks_mark_ring.
    + apply ring_o_marks.
  - intros x; simpl; eqb_prop. naive_solver.
Qed.

Lemma ring_m_marks a1 a2 a3 a4 :
  a3 ≠ a1 →
  marks (ring_m bonds a1 a2 a3 a4)
        (extends bonds 4 a1 [a1; a2; a3; a4] a3 a4).
Proof.
  intros H3. unfold ring_m. eapply marks_iff.
  - apply marks_step; intros nxt. apply marks_guard; intros Hg.
    apply marks_ite; intros Hc.
    + apply marks_mark_ring.
    + apply marks_guard; intros Hg'. apply ring_n_marks.
  - intros x; simpl; eqb_prop. naive_solver.
Qed.

(** What the search started at [a1] marks. *)
Lemma ring_j_marks a1 :
  marks (ring_j bonds a1)
    (fun x => ∃ a2, bonded bonds a1 a2 ∧ ∃ a3, bonded bonds a2 a3 ∧ a3 ≠ a1 ∧
              ∃ a4, bonded bonds a3 a4 ∧ a4 ≠ a2 ∧
                    extends bonds 4 a1 [a1; a2; a3; a4] a3 a4 x).
Proof.
  unfold ring_j. apply marks_step; intros a2.
  unfold ring_k. eapply marks_iff.
  - apply marks_step; intros a3. apply marks_guard; intros H3.
    unfold ring_l. apply marks_step; intros a4. apply marks_guard; intros H4.
    apply ring_m_marks. by apply Nat.eqb_neq, negb_true_iff.
  - intros x; simpl; eqb_prop. naive_solver.
Qed.

(** The loops [m] to [q] find exactly the ways to complete a chain. *)
Lemma extends_chain d a1 path prev cur x :
  bonded bonds prev cur →
  extends bonds d a1 path prev cur x ↔
  ∃ s, length s ≤ d ∧ chain_ok bonds (prev :: cur :: s ++ [a1]) ∧
       Forall (fun z => z ≠ a1) s ∧ x ∈ path ++ s.
Proof.
  revert path prev cur.
  induction d as [|d IH]; intros path prev cur Hpc; simpl.
  - split.
    + intros (nxt & Hb & Hn & [[-> Hx]|[_ []]]).
      exists []. simpl. rewrite app_nil_r. naive_solver.
    + intros ([|z s] & Hl & Hc & Hf & Hx); simpl in *; [|lia].
      rewrite app_nil_r in Hx. exists a1. naive_solver.
  - split.
    + intros (nxt & Hb & Hn & [[-> Hx]|[Hne Hext]]).
      * exists []. simpl. rewrite app_nil_r. split; [lia|]. naive_solver.
      * apply IH in Hext as (s & Hl & Hc & Hf & Hx); [|done].
        exists (nxt :: s). simpl. rewrite <- app_assoc in Hx.
        split; [lia|]. split; [done|]. split; [|done]. by constructor.
    + intros ([|z s] & Hl & Hc & Hf & Hx); simpl in *.
      * rewrite app_nil_r in Hx. exists a1. naive_solver.
      * destruct Hc as (_ & Hzp & Hc). pose proof Hc as (Hcz & _).
        apply Forall_cons in Hf as [Hz Hf].
        exists z. split; [done|]. split; [done|]. right. split; [done|].
        apply IH; [done|]. exists s. rewrite <- app_assoc.
        split; [lia|]. done.
Qed.

Lemma search_closed_chain a1 x :
  (∃ a2, bonded bonds a1 a2 ∧ ∃ a3, bonded bonds a2 a3 ∧ a3 ≠ a1 ∧
   ∃ a4, bonded bonds a3 a4 ∧ a4 ≠ a2 ∧
         extends bonds 4 a1 [a1; a2; a3; a4] a3 a4 x) ↔
  ∃ p, closed_chain bonds a1 p ∧ x ∈ p.
Proof.
  split.
  - intros (a2 & H12 & a3 & H23 & H31 & a4 & H34 & H42 & Hext).
    apply extends_chain in Hext as (s & Hl & Hc & Hf & Hx); [|done].
    exists (a1 :: a2 :: a3 :: a4 :: s). split; [|done].
    split; [done|]. split; [simpl; lia|]. split; [|done].
    change (bonded bonds a1 a2 ∧ a3 ≠ a1 ∧ bonded bonds a2 a3 ∧ a4 ≠ a2 ∧
            chain_ok bonds (a3 :: a4 :: s ++ [a1])). done.
  - intros (p & (Hh & [Hl1 Hl2] & Hc & Hf) & Hx).
    destruct p as [|b1 [|a2 [|a3 [|a4 s]]]]; simpl in Hl1; try lia.
    simpl in Hh. injection Hh as ->. simpl in Hf, Hl2.
    change (bonded bonds a1 a2 ∧ a3 ≠ a1 ∧ bonded bonds a2 a3 ∧ a4 ≠ a2 ∧
            chain_ok bonds (a3 :: a4 :: s ++ [a1])) in Hc.
    destruct Hc as (H12 & H31 & H23 & H42 & Hc). pose proof Hc as (H34 & _).
    exists a2. split; [done|]. exists a3. split; [done|]. split; [done|].
    exists a4. split; [done|]. split; [done|].
    apply extends_chain; [done|]. exists s. split; [lia|]. done.
Qed.

Lemma clear_rings_replicate natom bRing :
  length bRing = natom → clear_rings natom bRing = replicate natom false.
Proof.
  intros Hlen. unfold clear_rings.
  assert (Hgen : ∀ l (st : list bool),
    length (foldl (fun r j => <[j:=false]> r) st l) = length st ∧
    ∀ x, foldl (fun r j => <[j:=false]> r) st l !! x =
         if decide (x ∈ l ∧ x < length st) then Some false else st !! x).
  { induction l as [|j l IH]; intros st; cbn [foldl].
    - split; [done|]. intros x. rewrite decide_False; [done|].
      intros [H _]. by apply elem_of_nil in H.
    - destruct (IH (<[j:=false]> st)) as [Hl Hx]. rewrite length_insert in Hl.
      split; [done|]. intros x. rewrite Hx, length_insert.
      destruct (decide (x ∈ l ∧ x < length st)) as [[Hin Hlt]|Hn].
      + rewrite decide_True; [done|]. split; [by right|done].
      + destruct (decide (x ∈ j :: l ∧ x < length st)) as [[Hin Hlt]|Hn'].
        * apply elem_of_cons in Hin as [->|Hin]; [|naive_solver].
          by rewrite list_lookup_insert_eq.
        * destruct (decide (x = j)) as [->|Hne].
          -- rewrite list_insert_ge; [done|].
             destruct (decide (j < length st)); [|lia].
             exfalso. apply Hn'. split; [by left|done].
          -- by rewrite list_lookup_insert_ne. }
  destruct (Hgen (seq 0 natom) bRing) as [Hl Hx].
  apply list_eq. intros x. rewrite Hx.
  destruct (decide (x < natom)) as [Hlt|Hge].
  - rewrite lookup_replicate_2 by done. rewrite decide_True; [done|].
    split; [|lia]. apply elem_of_seq. lia.
  - rewrite decide_False.
    + rewrite (lookup_ge_None_2 bRing) by lia.
      symmetry. apply lookup_replicate_None. lia.
    + intros [_ ?]. lia.
Qed.
End marks_lemmas.

(** What [detect_rings] computes.  On the bond list of seven atoms whose
    atoms 0-1-2-3-4-5-0 form a six-membered ring and whose atom 6 has no
    bond, the flags of the atoms 0 to 5 are set and atom 6 is left
    unflagged, whatever the flags held before.  In general the flags are
    first cleared (the result does not depend on the flags passed in), and
    the flag of an atom is set exactly when the atom lies on a chain of 4 to
    8 bonded atoms that the search closes back to its first atom; such a
    chain may pass through an atom twice. *)
Theorem detect_rings_closed_chains :
  (∀ bRing, length bRing = 7 →
     detect_rings hexagon 7 bRing = [true; true; true; true; true; true; false]) ∧
  (∀ bonds natom bRing,
     bonds_in_range bonds natom → length bRing = natom →
     detect_rings bonds natom bRing = detect_rings bonds natom (replicate natom false) ∧
     length (detect_rings bonds natom bRing) = natom ∧
     ∀ x, x < natom →
       (detect_rings bonds natom bRing !! x = Some true ↔ on_closed_chain bonds natom x) ∧
       (detect_rings bonds natom bRing !! x = Some false ↔ ¬ on_closed_chain bonds natom x)).
Proof.
  assert (Hclear : ∀ bonds natom bRing, length bRing = natom →
            detect_rings bonds natom bRing
            = foldl (fun r a1 => ring_j bonds a1 r) (replicate natom false) (seq 0 natom)).
  { intros bonds natom bRing Hlen. unfold detect_rings.
    by rewrite clear_rings_replicate. }
  split.
  - intros bRing Hlen. rewrite Hclear by done. vm_compute. reflexivity.
  - intros bonds natom bRing _ Hlen.
    rewrite !Hclear by (done || apply length_replicate).
    split; [done|].
    destruct (marks_foldl (seq 0 natom) (ring_j bonds) _
                (fun a1 _ => ring_j_marks bonds a1)) as [Hl Hx].
    specialize (Hl (replicate natom false)). specialize (Hx (replicate natom false)).
    rewrite length_replicate in Hl, Hx.
    split; [done|]. intros x Hlt.
    assert (Htrue : foldl (fun r a1 => ring_j bonds a1 r) (replicate natom false)
                      (seq 0 natom) !! x = Some true ↔ on_closed_chain bonds natom x).
    { rewrite Hx. rewrite lookup_replicate. unfold on_closed_chain. split.
      - intros [[? _]|[_ (a1 & Hin & Hs)]]; [done|].
        apply elem_of_seq in Hin. apply search_closed_chain in Hs as (p & Hp & Hxp).
        exists a1, p. split; [lia|]. done.
      - intros (a1 & p & Ha1 & Hp & Hxp). right. split; [done|].
        exists a1. split; [apply elem_of_seq; lia|].
        apply search_closed_chain. eauto. }
    split; [done|]. rewrite <- Htrue.
    destruct (lookup_lt_is_Some_2 (foldl (fun r a1 => ring_j bonds a1 r)
                (replicate natom false) (seq 0 natom)) x) as [[] Hv];
      [lia| |]; rewrite Hv; naive_solver.
Qed.

(** The test molecule is in range; its atom 3 lies on the closed chain
    0-1-2-3-4-5. *)
Lemma detect_rings_closed_chains_hexagon :
  detect_rings hexagon 7 (replicate 7 true) !! 3 = Some true ↔
  on_closed_chain hexagon 7 3.
Proof.
  refine (proj1 (proj2 (proj2 (proj2 detect_rings_closed_chains hexagon 7 (replicate 7 true) _ _)) 3 _)).
  - intros b Hb. repeat (apply elem_of_cons in Hb as [->|Hb]; [simpl; lia|]).
    by apply elem_of_nil in Hb.
  - reflexivity.
  - lia.
Defined.


(** ** The linearity test *)

Section linear_lemmas.
Context `{gmx_geometry}.

(** With a tolerance below 90 degrees one of the two comparisons of
    [is_linear] always succeeds. *)
Lemma is_linear_any_angle (xi xj xk : rvec) (th_toler : Q) :
  (th_toler < 90)%Q → is_linear xi xj xk th_toler = true.
Proof.
  intros Htol. unfold is_linear, Qltb.
  set (th := Qabs (RAD2DEG * bond_angle xi xj xk)).
  destruct (Qle_bool th th_toler) eqn:H1; [|done].
  destruct (Qle_bool (180 - th_toler) th) eqn:H2; [|done].
  apply Qle_bool_iff in H1, H2. exfalso. Lqa.lra.
Qed.
End linear_lemmas.

(** C1 (the code at the failing input).  Whatever angle [bond_angle]
    reports, [is_linear] with the tolerance 5 of [MakeSpecialInteractions]
    answers [true]: the centre with one neighbour on the x axis and the other
    on the y axis (90 degrees) is classified linear, exactly like the
    straight configuration, and [MakeSpecialInteractions] registers a linear
    motif for it. *)
Theorem is_linear_right_angle `{gmx_geometry} :
  is_linear (x_bent !!! 0) (x_bent !!! 1) (x_bent !!! 2) 5 = true ∧
  is_linear (x_straight !!! 0) (x_straight !!! 1) (x_straight !!! 2) 5 = true ∧
  special_motifs x_bent 3 centre_bonds = [addLinear 1 0 2] ∧
  special_motifs x_straight 3 centre_bonds = [addLinear 1 0 2].
Proof.
  assert (H5 : (5 < 90)%Q) by reflexivity.
  split; [by apply is_linear_any_angle|].
  split; [by apply is_linear_any_angle|].
  unfold special_motifs. cbn -[is_linear is_planar].
  rewrite !is_linear_any_angle by done. done.
Qed.

(** ** Combination rules *)

(** C7.  For [F_LJ], [generate_nbparam] returns the geometric means of the
    two C6 and of the two C12 under the geometric rule; under the arithmetic
    sigma/epsilon rule it takes [sig = (ci[0]+cj[0])/2] and
    [eps = sqrt(ci[1]*cj[1])] and returns [4 eps sig^6] and [4 eps sig^12];
    under the geometric sigma/epsilon rule the same with
    [sig = sqrt(ci[0]*cj[0])].  Every other combination rule and every other
    function type is fatal. *)
Theorem generate_nbparam_rules `{gmx_tables} (ci0 ci1 cj0 cj1 : R) :
  eCOMB_GEOMETRIC ≠ eCOMB_ARITHMETIC →
  eCOMB_GEOMETRIC ≠ eCOMB_GEOM_SIG_EPS →
  eCOMB_ARITHMETIC ≠ eCOMB_GEOM_SIG_EPS →
  let ci := [ci0; ci1] in
  let cj := [cj0; cj1] in
  let lj := Z.of_nat F_LJ in
  generate_nbparam lj eCOMB_GEOMETRIC ci cj
    = Ok (sqrt (ci0 * cj0), sqrt (ci1 * cj1))%R ∧
  generate_nbparam lj eCOMB_ARITHMETIC ci cj
    = (let sig := (ci0 + cj0) / 2 in
       let eps := sqrt (ci1 * cj1) in
       Ok (4 * eps * sig ^ 6, 4 * eps * sig ^ 12))%R ∧
  generate_nbparam lj eCOMB_GEOM_SIG_EPS ci cj
    = (let sig := sqrt (ci0 * cj0) in
       let eps := sqrt (ci1 * cj1) in
       Ok (4 * eps * sig ^ 6, 4 * eps * sig ^ 12))%R ∧
  (∀ comb, comb ≠ eCOMB_GEOMETRIC → comb ≠ eCOMB_ARITHMETIC →
           comb ≠ eCOMB_GEOM_SIG_EPS →
           generate_nbparam lj comb ci cj = Fatal "No such combination rule") ∧
  (∀ ftype comb, ftype ≠ lj →
           generate_nbparam ftype comb ci cj = Fatal "No such function type supported").
Proof.
  intros Hga Hgs Has ci cj lj. unfold generate_nbparam, lj, ci, cj.
  split_and!.
  - by rewrite !decide_True by done.
  - rewrite decide_True by done. rewrite decide_False by done.
    rewrite decide_True by done. cbn.
    replace ((ci0 + cj0) * 0.5)%R with ((ci0 + cj0) / 2)%R by Lra.lra. done.
  - rewrite decide_True by done. rewrite !decide_False by done.
    by rewrite decide_True by done.
  - intros comb H1 H2 H3. rewrite decide_True by done.
    by rewrite !decide_False by done.
  - intros ftype comb Hne. by rewrite decide_False by done.
Qed.

(** ** Initialisation of the topology *)

Lemma foldl_preserves {A B} (P : A → Prop) (f : A → B → A) (l : list B) (s : A) :
  P s → (∀ s x, P s → P (f s x)) → P (foldl f s l).
Proof.
  intros Hs Hf. revert s Hs. induction l as [|x l IH]; intros s Hs; simpl; [done|].
  apply IH. by apply Hf.
Qed.

Lemma foldl_ext {A B} (f g : A → B → A) (l : list B) (s : A) :
  (∀ s x, f s x = g s x) → foldl f s l = foldl g s l.
Proof.
  intros Hfg. revert s. induction l as [|x l IH]; intros s; simpl; [done|].
  by rewrite Hfg, IH.
Qed.

Lemma remove_dups_snoc_length {A} `{EqDecision A} (l : list A) (x : A) :
  length (remove_dups (l ++ [x]))
  = if decide (x ∈ l) then length (remove_dups l) else S (length (remove_dups l)).
Proof.
  assert (Hperm : remove_dups (l ++ [x]) ≡ₚ remove_dups (x :: l)).
  { apply NoDup_Permutation; [apply NoDup_remove_dups..|].
    intros y. rewrite !elem_of_remove_dups, elem_of_app, !elem_of_cons, elem_of_nil.
    naive_solver. }
  rewrite Hperm. cbn [remove_dups]. unfold decide_rel, decide.
  by destruct (list_elem_of_dec x l).
Qed.

Section mtop_lemmas.
Context `{gmx_tables}.

Lemma type_found_spec (types : list nat) (i itp : nat) :
  i ≤ length types → type_found types i itp = true ↔ itp ∈ take i types.
Proof.
  unfold type_found. induction i as [|i IH]; intros Hi.
  - simpl. rewrite take_0, elem_of_nil. naive_solver.
  - rewrite seq_S, foldl_app. simpl.
    destruct (lookup_lt_is_Some_2 types i) as [t Ht]; [lia|].
    rewrite (take_S_r _ _ _ Ht), elem_of_app, list_elem_of_singleton.
    rewrite (list_lookup_total_correct _ _ _ Ht).
    destruct (foldl _ false (seq 0 i)) eqn:Hf.
    + split; [|done]. intros _. left. apply IH; [lia|done].
    + rewrite Nat.eqb_eq. split; [by right|].
      intros [Hin| ->]; [|done]. apply IH in Hin; [done|lia].
Qed.

Lemma count_types_prefix (types : list nat) (k : nat) :
  S k ≤ length types →
  foldl (fun ntype i => if type_found types i (types !!! i) then ntype else S ntype)
        1 (seq 1 k)
  = length (remove_dups (take (S k) types)).
Proof.
  induction k as [|k IH]; intros Hk.
  - destruct types as [|t types]; simpl in *; [lia|done].
  - rewrite seq_S, foldl_app, IH by lia. simpl.
    destruct (lookup_lt_is_Some_2 types (S k)) as [t Ht]; [lia|].
    rewrite (take_S_r _ (S k) _ Ht), remove_dups_snoc_length.
    rewrite (list_lookup_total_correct _ _ _ Ht).
    destruct (type_found types (S k) t) eqn:Hf.
    + apply type_found_spec in Hf; [|lia]. by rewrite decide_True.
    + rewrite decide_False; [done|]. intros Hin.
      apply type_found_spec in Hin; [congruence|lia].
Qed.

(** The count of [do_init_mtop] is the number of distinct atom types. *)
Lemma count_types_distinct (types : list nat) :
  types ≠ [] → count_types types = length (remove_dups types).
Proof.
  intros Hne. unfold count_types.
  assert (0 < length types) by (destruct types; [done|simpl; lia]).
  rewrite count_types_prefix by lia.
  replace (S (length types - 1)) with (length types) by lia.
  by rewrite firstn_all.
Qed.

Lemma zero_iparams_insert (i : nat) : <[i := 0%Q]> zero_iparams = zero_iparams.
Proof. apply insert_replicate. Qed.

Lemma init_nbmatrix_zero (vdw_type : Z) (ntype N : nat) (ft : list Z) :
  let r := init_nbmatrix vdw_type ntype ft (replicate N zero_iparams) in
  length r.1 = length ft ∧ r.2 = replicate N zero_iparams.
Proof.
  unfold init_nbmatrix.
  apply (foldl_preserves
           (fun st : list Z * list t_iparams =>
              length st.1 = length ft ∧ st.2 = replicate N zero_iparams)); [done|].
  intros st i Hst. apply foldl_preserves; [done|].
  clear st Hst. intros [ft' ip] j [Hl Hip]. simpl in *. subst ip.
  assert (Hz : ∀ (v : t_iparams) idx,
             (idx < N → v = zero_iparams) →
             <[idx := v]> (replicate N zero_iparams) = replicate N zero_iparams).
  { intros v idx Hv. destruct (decide (idx < N)) as [Hlt|Hge].
    - rewrite Hv by done. apply insert_replicate.
    - apply list_insert_ge. rewrite length_replicate. lia. }
  repeat case_decide; simpl; rewrite ?length_insert; (split; [done|]); try done.
  - apply Hz. intros Hlt. rewrite lookup_total_replicate_2 by done.
    by rewrite !zero_iparams_insert.
  - apply Hz. intros Hlt. rewrite lookup_total_replicate_2 by done.
    by rewrite !zero_iparams_insert.
Qed.
End mtop_lemmas.

(** C9.  For a non-empty atom array [do_init_mtop] sets [ffparams.atnr] to
    the number of distinct atom types of the atoms, which is at least 1,
    [ffparams.ntypes] to its square, and leaves every entry of the
    type-by-type parameter matrix zero: all slots are 0, in particular
    [lj.c6] and [lj.c12]. *)
Theorem do_init_mtop_type_matrix `{gmx_tables}
    (pd : gmx_poldata_t) (molname : string) (atoms : t_atoms) :
  atom atoms ≠ [] →
  let ff := ffparams (do_init_mtop pd molname atoms) in
  atnr ff = length (remove_dups (map atom_type (atom atoms))) ∧
  1 ≤ atnr ff ∧
  ntypes ff = atnr ff * atnr ff ∧
  length (functype ff) = ntypes ff ∧
  length (iparams ff) = ntypes ff ∧
  ∀ idx, idx < ntypes ff →
    iparams ff !! idx = Some zero_iparams ∧
    lj_c6 (iparams ff !!! idx) = 0%Q ∧ lj_c12 (iparams ff !!! idx) = 0%Q.
Proof.
  intros Hne. unfold do_init_mtop.
  set (types := map atom_type (atom atoms)).
  assert (Htypes : types ≠ []) by (unfold types; destruct (atom atoms); done).
  set (ntype := count_types types).
  pose proof (init_nbmatrix_zero (gmx_poldata_get_vdw_ftype pd) ntype (ntype * ntype)
                (replicate (ntype * ntype) 0%Z)) as Hnb.
  destruct (init_nbmatrix _ _ _ _) as [ft ip]. simpl in Hnb. destruct Hnb as [Hft ->].
  rewrite length_replicate in Hft. simpl.
  assert (Hcount : ntype = length (remove_dups types)) by by apply count_types_distinct.
  split_and!; try done.
  - rewrite Hcount. destruct types as [|t types']; [done|].
    simpl. case_decide; simpl; [|lia].
    assert (Hin : t ∈ remove_dups types') by by apply elem_of_remove_dups.
    destruct (remove_dups types'); [by apply elem_of_nil in Hin|simpl; lia].
  - by rewrite length_replicate.
  - intros idx Hidx. rewrite lookup_total_replicate_2 by done.
    split; [by apply lookup_replicate_2|].
    unfold lj_c6, lj_c12, zero_iparams.
    destruct MAXFORCEPARAM as [|[|n]]; done.
Qed.

(** ** Copying the interaction lists *)

Section plist_to_mtop_lemmas.
Context `{gmx_tables}.

End plist_to_mtop_lemmas.

Section entered_lemmas.
Context `{gmx_tables}.
Variable enter_params :
  gmx_ffparams_t → nat → list Q → Z → Q → nat → bool → gmx_ffparams_t * nat.


End entered_lemmas.



(** ** Force constants *)

Section force_constants_lemmas.
Context `{gmx_tables} `{gmx_strings}.

Lemma for_params_id (plist : list t_params) (ft : Z) (body : t_param → t_param) :
  (∀ p, body p = p) → for_params plist ft body = plist.
Proof.
  intros Hbody. unfold for_params, plist_at.
  assert (Hmap : ∀ l, map body l = l)
    by (induction l as [|p l IH]; simpl; [done|by rewrite Hbody, IH]).
  rewrite Hmap.
  destruct (plist !! Z.to_nat ft) as [l|] eqn:Hl.
  - rewrite (list_lookup_total_correct _ _ _ Hl). by apply list_insert_id.
  - apply list_insert_ge. by apply lookup_ge_None.
Qed.

(** When the store has no match for any term, [get_force_constants]
    returns the interaction lists as they were. *)
Lemma get_force_constants_no_match (pd : gmx_poldata_t) (plist : list t_params)
    (atoms : t_atoms) :
  (∀ a b, ((gmx_poldata_search_bond pd a b).1.1 ≤ 0)%Z) →
  (∀ a b c, ((gmx_poldata_search_angle pd a b c).1.1 ≤ 0)%Z) →
  (∀ k a b c d, ((gmx_poldata_search_dihedral pd k a b c d).1.1 ≤ 0)%Z) →
  get_force_constants pd plist atoms = plist.
Proof.
  intros Hb Ha Hd. unfold get_force_constants.
  assert (Hbond : ∀ p, bond_constants pd atoms p = p).
  { intros p. unfold bond_constants.
    specialize (Hb (ATP pd atoms (p_a p !!! 0)) (ATP pd atoms (p_a p !!! 1))).
    destruct (gmx_poldata_search_bond _ _ _) as [[found xx] params]. simpl in *.
    destruct (0 <? found)%Z eqn:Hf; [|done]. apply Z.ltb_lt in Hf. lia. }
  assert (Hangle : ∀ p, angle_constants pd atoms p = p).
  { intros p. unfold angle_constants.
    specialize (Ha (ATP pd atoms (p_a p !!! 0)) (ATP pd atoms (p_a p !!! 1))
                   (ATP pd atoms (p_a p !!! 2))).
    destruct (gmx_poldata_search_angle _ _ _ _) as [[found xx] params]. simpl in *.
    destruct (0 <? found)%Z eqn:Hf; [|done]. apply Z.ltb_lt in Hf. lia. }
  assert (Hdih : ∀ k p, dihedral_constants pd k atoms p = p).
  { intros k p. unfold dihedral_constants.
    specialize (Hd k (ATP pd atoms (p_a p !!! 0)) (ATP pd atoms (p_a p !!! 1))
                   (ATP pd atoms (p_a p !!! 2)) (ATP pd atoms (p_a p !!! 3))).
    destruct (gmx_poldata_search_dihedral _ _ _ _ _ _) as [[found xx] params].
    simpl in *.
    destruct (0 <? found)%Z eqn:Hf; [|done]. apply Z.ltb_lt in Hf. lia. }
  rewrite !for_params_id by done.
  apply (foldl_preserves (fun pl => pl = plist)); [done|].
  intros pl k ->. by apply for_params_id.
Qed.
End force_constants_lemmas.

(** With a store that has no entry for the bond type pair c3-c3,
    [get_force_constants] on the list with the one bond between the two
    carbons returns normally and leaves the list as it was, the first force
    constant of the bond still [NOTSET].  [UpdateIdef] stops with a fatal
    error on the same bond and the same store. *)
Theorem get_force_constants_unmatched_bond :
  get_force_constants (H := small_tables) (H0 := plain_strings)
    empty_poldata unset_bond_plist two_carbons = unset_bond_plist ∧
  is_notset (H := small_tables) (p_c unset_bond !!! 0) = true ∧
  UpdateIdef (H := small_tables) (H0 := plain_strings) empty_poldata
    (mk_opt true true true true) "mol" two_carbons
    (moltype_ilist
       (plist_to_mtop (H := small_tables) append_params empty_poldata unset_bond_plist
          (do_init_mtop (H := small_tables) empty_poldata "mol" two_carbons)))
    (iparams (ffparams
       (plist_to_mtop (H := small_tables) append_params empty_poldata unset_bond_plist
          (do_init_mtop (H := small_tables) empty_poldata "mol" two_carbons))))
  = Fatal "There are no parameters for bond c3-c3 in the force field".
Proof.
  split_and!.
  - by apply get_force_constants_no_match.
  - vm_compute. reflexivity.
  - vm_compute. reflexivity.
Qed.

(** ** The status of [GenerateTopology] *)

Section topology_lemmas.
Context `{gmx_tables} `{gmx_strings} `{gmx_geometry} `{gmx_atomtypes}
        `{gmx_molprop} `{!gmx_generators}.

Lemma GenerateAtoms_no_lot (lot : string) (iModel : Z) (mol : MyMol) :
  GetLot (molprop mol) lot = None → GenerateAtoms lot iModel mol = Ok (immLOT, mol).
Proof. intros Hlot. unfold GenerateAtoms. by rewrite Hlot. Qed.

Lemma GenerateAtoms_molprop (lot : string) (iModel : Z) (mol mol' : MyMol) imm :
  GenerateAtoms lot iModel mol = Ok (imm, mol') → molprop mol' = molprop mol.
Proof.
  unfold GenerateAtoms. destruct (GetLot _ _) as [catoms|]; [|by intros [= _ <-]].
  destruct (rfold _ _ _) as [[atoms x]|msg]; simpl; [|done].
  destruct (foldl _ _ _) as [atype atom']. by intros [= _ <-].
Qed.
End topology_lemmas.

(** C8.  [GenerateTopology] is fatal when the store declares no function
    type for the bonds, the angles, the improper or the proper dihedrals.
    Otherwise it returns a status to its caller: [immAtomTypes] when the
    composition has no atom; the status of [GenerateAtoms] when that is not
    [immOK], which is [immLOT] when the level of theory is missing; and
    [immGenBonds] when the atoms were generated and the molecule has no
    bond. *)
Theorem GenerateTopology_status
    `{gmx_tables} `{gmx_strings} `{gmx_geometry} `{gmx_atomtypes}
    `{gmx_molprop} `{!gmx_generators}
    (pd : gmx_poldata_t) (lot : string) (iModel : Z) (nexcl : nat)
    (bUseVsites bPairs : bool) (edih : eDih) (mol : MyMol) :
  let run := GenerateTopology pd lot iModel nexcl bUseVsites bPairs edih mol in
  let mol0 := begin_topology pd nexcl mol in
  (NOTSET = gmx_poldata_get_bond_ftype pd ∨
   NOTSET = gmx_poldata_get_angle_ftype pd ∨
   NOTSET = gmx_poldata_get_dihedral_ftype pd egdIDIHS ∨
   NOTSET = gmx_poldata_get_dihedral_ftype pd egdPDIHS → is_fatal run) ∧
  (NOTSET ≠ gmx_poldata_get_bond_ftype pd →
   NOTSET ≠ gmx_poldata_get_angle_ftype pd →
   NOTSET ≠ gmx_poldata_get_dihedral_ftype pd egdIDIHS →
   NOTSET ≠ gmx_poldata_get_dihedral_ftype pd egdPDIHS →
   ((NAtom (molprop mol0) ≤ 0)%Z → run = Ok (immAtomTypes, mol0)) ∧
   ((0 < NAtom (molprop mol0))%Z →
    (∀ imm mol1, GenerateAtoms lot iModel (fresh_topology mol0) = Ok (imm, mol1) →
                 imm ≠ immOK → run = Ok (imm, mol1)) ∧
    (GetLot (molprop mol0) lot = None → run = Ok (immLOT, fresh_topology mol0)) ∧
    (∀ mol1, GenerateAtoms lot iModel (fresh_topology mol0) = Ok (immOK, mol1) →
             NBond (molprop mol0) = 0 →
             ∃ mol2, run = Ok (immGenBonds, mol2) ∧
                     immsg immGenBonds = "Generating bonds"))).
Proof.
  intros run mol0. split.
  - unfold run, GenerateTopology. intros Hns.
    destruct (decide (NOTSET = gmx_poldata_get_bond_ftype pd)); [done|].
    destruct (decide (NOTSET = gmx_poldata_get_angle_ftype pd)); [done|].
    destruct (decide (NOTSET = gmx_poldata_get_dihedral_ftype pd egdIDIHS)); [done|].
    destruct (decide (NOTSET = gmx_poldata_get_dihedral_ftype pd egdPDIHS)); [done|].
    naive_solver.
  - intros Hb Ha Hi Hp. unfold run, GenerateTopology.
    rewrite !decide_False by done. fold mol0.
    assert (Hskip : ∀ imm mol1, imm ≠ immOK →
              (st ← topology_interactions_block pd bUseVsites bPairs edih
                      (topology_bonds_block (imm, mol1));
               Ok (topology_mtop_block pd st)) = Ok (imm, mol1)).
    { intros imm mol1 Hne.
      unfold topology_bonds_block, topology_interactions_block.
      rewrite !(decide_False (P := immOK = imm)) by done. simpl.
      by rewrite (decide_False (P := immOK = imm)) by done. }
    assert (Hprop : ∀ imm mol1,
              GenerateAtoms lot iModel (fresh_topology mol0) = Ok (imm, mol1) →
              imm ≠ immOK → (0 < NAtom (molprop mol0))%Z →
              (st ← topology_atoms_block lot iModel
                      (if decide (NAtom (molprop mol0) ≤ 0)%Z then immAtomTypes else immOK,
                       mol0);
               st ← topology_interactions_block pd bUseVsites bPairs edih
                      (topology_bonds_block st);
               Ok (topology_mtop_block pd st)) = Ok (imm, mol1)).
    { intros imm mol1 Hgen Hne Hn.
      rewrite (decide_False (P := (NAtom (molprop mol0) ≤ 0)%Z)) by lia.
      unfold topology_atoms_block. rewrite decide_True by done. rewrite Hgen.
      by apply Hskip. }
    split.
    + intros Hn. rewrite decide_True by done. unfold topology_atoms_block.
      rewrite (decide_False (P := immOK = immAtomTypes)) by done.
      by apply Hskip.
    + intros Hn. split_and!.
      * intros imm mol1 Hgen Hne. by apply Hprop.
      * intros Hlot. apply Hprop; [|done|done].
        by apply GenerateAtoms_no_lot.
      * intros mol1 Hgen Hnb.
        rewrite (decide_False (P := (NAtom (molprop mol0) ≤ 0)%Z)) by lia.
        unfold topology_atoms_block. rewrite decide_True by done. rewrite Hgen.
        cbn [mbind result_bind].
        unfold topology_bonds_block. rewrite decide_True by done.
        rewrite (GenerateAtoms_molprop _ _ _ _ _ Hgen).
        change (molprop (fresh_topology mol0)) with (molprop mol0).
        rewrite Hnb. cbn [Nat.eqb].
        unfold topology_interactions_block.
        rewrite (decide_False (P := immOK = immGenBonds)) by done.
        cbn [mbind result_bind]. unfold topology_mtop_block.
        rewrite (decide_False (P := immOK = immGenBonds)) by done.
        eexists. split; reflexivity.
Qed.

(** The hypotheses of [GenerateTopology_status] hold for the molecule of
    one carbon atom without bonds: it is given the status [immGenBonds]. *)
Lemma GenerateTopology_status_witness :
  ∃ mol2,
    GenerateTopology (H := small_tables) (H0 := plain_strings) (H1 := flat_geometry)
      (H4 := idle_generators) empty_poldata "B3LYP" 0 3 false true edihAll
      (new_mymol lone_carbon)
    = Ok (immGenBonds, mol2) ∧ immsg immGenBonds = "Generating bonds".
Proof.
  refine (proj2 (proj2 (proj2 (proj2
            (GenerateTopology_status (H := small_tables) (H0 := plain_strings)
               (H1 := flat_geometry) (H4 := idle_generators) empty_poldata "B3LYP" 0 3
               false true edihAll (new_mymol lone_carbon)) _ _ _ _) _))
            _ _ _).
  - done.
  - done.
  - done.
  - done.
  - reflexivity.
  - vm_compute. reflexivity.
  - reflexivity.
Defined.

(** The rules of [generate_nbparam_rules] at the constants of
    [small_tables], for two atom types with all parameters 1. *)
Lemma generate_nbparam_rules_witness :
  generate_nbparam (H := small_tables) 5 1 [1; 1]%R [1; 1]%R
  = Ok (sqrt (1 * 1), sqrt (1 * 1))%R.
Proof.
  refine (proj1 (generate_nbparam_rules (H := small_tables) 1 1 1 1 _ _ _)).
  - simpl. lia.
  - simpl. lia.
  - simpl. lia.
Defined.

(** The two carbon atoms of one type give a one by one matrix. *)
Lemma do_init_mtop_type_matrix_witness :
  atnr (ffparams (do_init_mtop (H := small_tables) empty_poldata "mol" two_carbons))
  = length (remove_dups (map atom_type (atom two_carbons))).
Proof.
  refine (proj1 (do_init_mtop_type_matrix (H := small_tables) empty_poldata "mol"
                   two_carbons _)).
  simpl. discriminate.
Defined.

(** ** Shells: pruning *)

Lemma prune_loop_filter (sh : nat → bool) (fuel k : nat) (e : list nat) :
  length e - k ≤ fuel →
  prune_loop sh fuel k e = take k e ++ filter sh (drop k e).
Proof.
  revert k e. induction fuel as [|fuel IH]; intros k e Hfuel; simpl.
  - rewrite drop_ge, take_ge by lia. by rewrite app_nil_r.
  - destruct (e !! k) as [ak|] eqn:Hk.
    + pose proof (lookup_lt_Some _ _ _ Hk) as Hlt.
      rewrite (drop_S _ _ _ Hk), filter_cons.
      destruct (sh ak) eqn:Hsh; simpl.
      * rewrite IH by lia. by rewrite (take_S_r _ _ _ Hk), <- app_assoc.
      * unfold remove_excl. apply Nat.ltb_lt in Hlt as Hlt'. rewrite Hlt'.
        rewrite IH by (rewrite length_delete by eauto; lia).
        rewrite delete_take_drop.
        rewrite take_app_length' by (rewrite length_take; lia).
        rewrite drop_app_length' by (rewrite length_take; lia). done.
    + apply lookup_ge_None in Hk.
      rewrite drop_ge, take_ge by lia. by rewrite app_nil_r.
Qed.

(** A loop that rewrites entry [i] of an array from its own value, for
    distinct indices [i]. *)
Lemma foldl_insert_lookup {A} `{Inhabited A} (g : nat → A → A) (l : list nat)
    (ex : list A) (x : nat) :
  NoDup l →
  foldl (fun ex i => <[i := g i (ex !!! i)]> ex) ex l !! x
  = if decide (x ∈ l) then g x <$> ex !! x else ex !! x.
Proof.
  revert ex. induction l as [|i l IH]; intros ex Hnd; cbn [foldl].
  - by rewrite decide_False by apply not_elem_of_nil.
  - apply NoDup_cons in Hnd as [Hi Hnd]. rewrite IH by done.
    destruct (decide (x = i)) as [->|Hne].
    + rewrite decide_False by done. rewrite decide_True by left.
      destruct (ex !! i) as [e|] eqn:He.
      * rewrite list_lookup_insert_eq by (by eapply lookup_lt_Some).
        by rewrite (list_lookup_total_correct _ _ _ He).
      * rewrite list_insert_ge by (by apply lookup_ge_None). by rewrite He.
    + rewrite list_lookup_insert_ne by done.
      destruct (decide (x ∈ l)).
      * rewrite decide_True by (by right). done.
      * rewrite decide_False; [done|]. rewrite elem_of_cons. naive_solver.
Qed.

Section prune_lemmas.
Context `{gmx_tables} `{gmx_atomtypes}.

(** [prune_excl] keeps, in the list of an atom that is not a shell, the
    shells and nothing else, and leaves the lists of the shells alone. *)
Lemma prune_excl_lookup (excls : list (list nat)) (atoms : t_atoms)
    (atype : gpp_atomtype_t) (x : nat) :
  prune_excl excls atoms atype !! x
  = if decide (x < atoms_nr atoms ∧ is_shell atoms atype x = false)
    then filter (is_shell atoms atype) <$> excls !! x
    else excls !! x.
Proof.
  unfold prune_excl.
  set (g := fun (i : nat) (e : list nat) =>
              if negb (is_shell atoms atype i)
              then prune_loop (is_shell atoms atype) (length e) 0 e else e).
  rewrite (foldl_ext _ (fun ex i => <[i := g i (ex !!! i)]> ex)).
  2:{ intros ex i. unfold g. destruct (negb _); [done|].
      destruct (ex !! i) as [e|] eqn:He.
      - rewrite (list_lookup_total_correct _ _ _ He). symmetry. by apply list_insert_id.
      - symmetry. apply list_insert_ge. by apply lookup_ge_None. }
  rewrite foldl_insert_lookup by apply NoDup_seq.
  destruct (decide (x ∈ seq 0 (atoms_nr atoms))) as [Hin|Hnin].
  - apply elem_of_seq in Hin. unfold g.
    destruct (is_shell atoms atype x) eqn:Hsh; simpl.
    + rewrite decide_False by (intros [_ ?]; done).
      by destruct (excls !! x).
    + rewrite decide_True by (split; [lia|done]).
      destruct (excls !! x) as [e|]; simpl; [|done].
      rewrite prune_loop_filter by lia. by rewrite take_0, drop_0.
  - rewrite decide_False; [done|]. intros [Hlt _]. apply Hnin, elem_of_seq. lia.
Qed.

Lemma prune_excl_excludes (excls : list (list nat)) (atoms : t_atoms)
    (atype : gpp_atomtype_t) (x y : nat) :
  excludes (prune_excl excls atoms atype) x y ↔
  excludes excls x y ∧
  (x < atoms_nr atoms → is_shell atoms atype x = false → is_shell atoms atype y = true).
Proof.
  unfold excludes. rewrite !list_lookup_total_alt, prune_excl_lookup.
  case_decide as Hx.
  - destruct (excls !! x) as [e|]; simpl.
    + rewrite list_elem_of_filter. rewrite Is_true_true. naive_solver.
    + rewrite elem_of_nil. naive_solver.
  - split; [|naive_solver]. intros Hin. split; [done|]. intros ??. naive_solver.
Qed.

Lemma prune_excl_idempotent (excls : list (list nat)) (atoms : t_atoms)
    (atype : gpp_atomtype_t) :
  prune_excl (prune_excl excls atoms atype) atoms atype = prune_excl excls atoms atype.
Proof.
  apply list_eq. intros x. rewrite (prune_excl_lookup (prune_excl _ _ _)).
  case_decide as Hx; [|done].
  rewrite prune_excl_lookup, decide_True by done.
  destruct (excls !! x) as [e|]; simpl; [|done].
  f_equal. apply list_filter_filter_l. done.
Qed.
End prune_lemmas.

(** ** Shells: the exclusions after [AddShells] *)

Section shell_lemmas.
Context `{gmx_tables} `{gmx_atomtypes} `{gmx_molprop}.

Lemma shell_renum_single (pd : gmx_poldata_t) (a : t_atom) (name ty tyB : string)
    (polv sigpol : Q) (pol : t_params) :
  gmx_poldata_get_atype_pol pd ty = Some (polv, sigpol) →
  shell_renum pd (mk_atoms [a] [name] [ty] [tyB]) pol
  = (1, [0; 2; 0; 0],
     mk_param (0 :: 1 :: replicate 4 0)
              (<[0 := ((1 # 1000) * polv)%Q]> (replicate MAXFORCEPARAM 0%Q)),
     pol ++ [mk_param (0 :: 1 :: replicate 4 0)
               (<[0 := ((1 # 1000) * polv)%Q]> (replicate MAXFORCEPARAM 0%Q))]).
Proof.
  intros Hpol. unfold shell_renum. cbn [atoms_nr atom length seq foldl atomtype].
  change ([ty] !!! 0) with ty. rewrite Hpol. reflexivity.
Qed.

(** The polarisation list is not renumbered. *)
Lemma renumber_plist_polarization (renum : list nat) (plist : list t_params) :
  renumber_plist renum plist !!! F_POLARIZATION = plist !!! F_POLARIZATION.
Proof.
  unfold renumber_plist.
  apply (foldl_preserves (fun pl => pl !!! F_POLARIZATION = plist !!! F_POLARIZATION));
    [done|].
  intros pl i Hpl. destruct (i =? F_POLARIZATION) eqn:Hi; simpl; [done|].
  apply Nat.eqb_neq in Hi. by rewrite list_lookup_total_insert_ne.
Qed.

(** When a shell was added, the exclusions of the molecule are the result
    of [prune_excl] on the atoms and the atom types the molecule ends with. *)
Lemma AddShells_pruned (pd : gmx_poldata_t) (mol : MyMol) :
  0 < shells_added pd mol →
  ∃ ne, excls_ (AddShells pd mol)
        = prune_excl ne (topology_atoms (AddShells pd mol)) (atype_ (AddShells pd mol)).
Proof.
  unfold shells_added, AddShells.
  destruct (shell_renum _ _ _) as [[[ns renum] p] pol]. simpl. intros Hns.
  apply Nat.ltb_lt in Hns as ->.
  destruct (foldl (shell_loop _ _ _ _ _) _ _) as [sa ne]. simpl.
  eexists. reflexivity.
Qed.
End shell_lemmas.

(** C4.  When [AddShells] has added a shell, the exclusion list of every
    atom that is not a shell holds shells only, so that no exclusion between
    two atoms that are not shells is left, whether it came about through a
    shell or not; and [prune_excl] on the result changes nothing. *)
Theorem AddShells_pruned_fixed_point `{gmx_tables} `{gmx_atomtypes} `{gmx_molprop}
    (pd : gmx_poldata_t) (mol : MyMol) :
  0 < shells_added pd mol →
  let mol' := AddShells pd mol in
  let shell := is_shell (topology_atoms mol') (atype_ mol') in
  (∀ i ak, i < atoms_nr (topology_atoms mol') → shell i = false →
           excludes (excls_ mol') i ak → shell ak = true) ∧
  prune_excl (excls_ mol') (topology_atoms mol') (atype_ mol') = excls_ mol'.
Proof.
  intros Hns mol' shell. destruct (AddShells_pruned pd mol Hns) as [ne Hne].
  fold mol' in Hne. split.
  - intros i ak Hi Hsh Hex. rewrite Hne in Hex.
    apply prune_excl_excludes in Hex as [_ Hex]. by apply Hex.
  - rewrite Hne. apply prune_excl_idempotent.
Qed.

(** The two bonded carbon atoms get a shell each; their exclusions are a
    fixed point of [prune_excl]. *)
Lemma AddShells_pruned_fixed_point_witness :
  let mol' := AddShells (H := small_tables) polar_poldata ethyne_carbons in
  prune_excl (H := small_tables) (excls_ mol') (topology_atoms mol') (atype_ mol')
  = excls_ mol'.
Proof.
  refine (proj2 (AddShells_pruned_fixed_point (H := small_tables) polar_poldata
                   ethyne_carbons _)).
  vm_compute. lia.
Defined.

(** ** Shells: a single atom *)

(** C2, as the code has it.  For a molecule of a single atom whose atom type
    has a polarisability in the store and whose polarisation list is empty,
    [AddShells] leaves two atoms, the atom and its shell.  The shell has mass
    0 and particle type [eptShell] and carries the charge the atom had; the
    charge of the atom itself is set to 0 and its mass is kept.  There is
    one polarisation term, between the atoms 0 and 1, whose coefficient in
    slot 0 is 0.001 times the polarisability. *)
Theorem AddShells_single_atom `{gmx_tables} `{gmx_atomtypes} `{gmx_molprop}
    (pd : gmx_poldata_t) (mol : MyMol) (a : t_atom) (name ty tyB : string)
    (polv sigpol : Q) :
  topology_atoms mol = mk_atoms [a] [name] [ty] [tyB] →
  gmx_poldata_get_atype_pol pd ty = Some (polv, sigpol) →
  plist_ mol !!! F_POLARIZATION = [] →
  F_POLARIZATION < length (plist_ mol) →
  0 < MAXFORCEPARAM →
  let mol' := AddShells pd mol in
  atoms_nr (topology_atoms mol') = 2 ∧
  (∃ core shell,
     atom (topology_atoms mol') = [core; shell] ∧
     atom_m shell = 0%Q ∧ atom_mB shell = 0%Q ∧
     atom_q shell = atom_q a ∧ atom_qB shell = atom_qB a ∧
     atom_ptype shell = eptShell ∧
     atom_q core = 0%Q ∧ atom_qB core = 0%Q ∧
     atom_m core = atom_m a ∧ atom_mB core = atom_mB a) ∧
  (∃ p, plist_ mol' !!! F_POLARIZATION = [p] ∧
        p_a p !!! 0 = 0 ∧ p_a p !!! 1 = 1 ∧
        p_c p !! 0 = Some ((1 # 1000) * polv)%Q).
Proof.
  intros Hatoms Hpol Hempty Hlen Hmax mol'. unfold mol', AddShells.
  rewrite Hatoms. rewrite (shell_renum_single _ _ _ _ _ _ _ _ Hpol).
  cbn [Nat.ltb Nat.leb].
  destruct (foldl (shell_loop _ _ _ _ _) _ _) as [sa ne] eqn:Hloop.
  cbn [topology_atoms plist_ atom].
  assert (Hsa : sa =
            make_shell (mk_atoms [a] [name] [ty] [tyB]) (x_ mol)
              (mk_param (0 :: 1 :: replicate 4 0)
                 (<[0 := ((1 # 1000) * polv)%Q]> (replicate MAXFORCEPARAM 0%Q)))
              0 0
              (copy_atom (mk_atoms [a] [name] [ty] [tyB]) (x_ mol) [0; 2; 0; 0]
                 (mk_shell_atoms (init_t_atoms 2) (replicate 2 (0, 0, 0)%Q)
                    (replicate 2 EmptyString) (atype_ mol)) 0)
              1).
  { cbn in Hloop. by injection Hloop as <- _. }
  clear Hloop. subst sa. unfold make_shell.
  destruct (add_atomtype _ _ _ _) as [atype shell] eqn:Hadd.
  cbn [newa atom copy_atom init_t_atoms replicate].
  split; [done|]. split.
  - eexists _, _. cbn. split; [reflexivity|]. cbn. done.
  - rewrite renumber_plist_polarization.
    rewrite list_lookup_total_insert_eq by done.
    eexists. split.
    + refine (eq_trans (f_equal (fun l => l ++ [_]) Hempty) _). reflexivity.
    + cbn [p_a p_c]. split_and!; [done..|].
      apply list_lookup_insert_eq. rewrite length_replicate. lia.
Qed.

(** The carbon atom with the charge 1: the hypotheses of
    [AddShells_single_atom] hold and its shell has the charge 1. *)
Lemma AddShells_single_atom_witness :
  ∃ core shell,
    atom (topology_atoms (AddShells (H := small_tables) polar_poldata one_carbon))
    = [core; shell] ∧
    atom_m shell = 0%Q ∧ atom_mB shell = 0%Q ∧
    atom_q shell = atom_q charged_carbon ∧ atom_qB shell = atom_qB charged_carbon ∧
    atom_ptype shell = eptShell (gmx_tables := small_tables) ∧
    atom_q core = 0%Q ∧ atom_qB core = 0%Q ∧
    atom_m core = atom_m charged_carbon ∧ atom_mB core = atom_mB charged_carbon.
Proof.
  refine (proj1 (proj2 (AddShells_single_atom (H := small_tables) polar_poldata one_carbon
                          charged_carbon "C1" "c3" "c3" 2 0 _ _ _ _ _))).
  - reflexivity.
  - reflexivity.
  - reflexivity.
  - simpl. lia.
  - simpl. lia.
Defined.

(** C2 as the specification states it fails for the carbon atom with the
    charge 1: its shell does not have the charge 0. *)
Lemma AddShells_shell_keeps_charge :
  ¬ single_shell_as_specified
      (topology_atoms (AddShells (H := small_tables) polar_poldata one_carbon))
      (plist_ (AddShells (H := small_tables) polar_poldata one_carbon)
         !!! F_POLARIZATION (gmx_tables := small_tables))
      2.
Proof.
  intros (_ & _ & Hq & _). vm_compute in Hq. discriminate Hq.
Qed.

(** ** Shells: symmetry of the exclusions *)

Lemma elem_of_add_excl (l : list nat) (e y : nat) :
  y ∈ add_excl l e ↔ y ∈ l ∨ y = e.
Proof.
  unfold add_excl. destruct (existsb (Nat.eqb e) l) eqn:Hex.
  - apply existsb_exists in Hex as (z & Hz & Heq). apply Nat.eqb_eq in Heq as <-.
    apply list_elem_of_In in Hz. naive_solver.
  - rewrite elem_of_app, list_elem_of_singleton. done.
Qed.

Lemma length_add_excl_at (ex : list (list nat)) (a b : nat) :
  length (add_excl_at ex a b) = length ex.
Proof. unfold add_excl_at. by rewrite length_insert. Qed.

Lemma excludes_add_excl_at (ex : list (list nat)) (a b x y : nat) :
  excludes (add_excl_at ex a b) x y ↔
  excludes ex x y ∨ (x = a ∧ y = b ∧ a < length ex).
Proof.
  unfold excludes, add_excl_at.
  destruct (decide (x = a)) as [->|Hne].
  - destruct (decide (a < length ex)) as [Hlt|Hge].
    + rewrite list_lookup_total_insert_eq by done. rewrite elem_of_add_excl.
      naive_solver.
    + rewrite list_insert_ge by lia. naive_solver lia.
  - rewrite list_lookup_total_insert_ne by done. naive_solver.
Qed.

Lemma excludes_add_excl_pair (ex : list (list nat)) (a b x y : nat) :
  excludes ex x y → excludes (add_excl_pair ex a b) x y.
Proof.
  intros Hxy. unfold add_excl_pair. destruct (negb _); [|done].
  rewrite !excludes_add_excl_at. by left; left.
Qed.

(** *** The loop that reads the list it extends runs to its end *)

Lemma add_excl_elem (l : list nat) (e : nat) : e ∈ l → add_excl l e = l.
Proof.
  intros He. unfold add_excl.
  destruct (existsb (Nat.eqb e) l) eqn:Hex; [done|].
  apply not_true_iff_false in Hex. exfalso. apply Hex, existsb_exists.
  exists e. split; [by apply list_elem_of_In|apply Nat.eqb_refl].
Qed.

Lemma add_excl_not_elem (l : list nat) (e : nat) : e ∉ l → add_excl l e = l ++ [e].
Proof.
  intros He. unfold add_excl.
  destruct (existsb (Nat.eqb e) l) eqn:Hex; [|done].
  apply existsb_exists in Hex as (z & Hz & Heq). apply Nat.eqb_eq in Heq as <-.
  by apply list_elem_of_In in Hz.
Qed.

(** A round of the loop leaves the list of [iat] alone or appends the
    shell [j] to it. *)
Lemma add_excl_pair_at (ne : list (list nat)) (iat j aj : nat) :
  aj ∈ ne !!! iat →
  (add_excl_pair ne j aj) !!! iat = ne !!! iat ∨
  (¬ j ∈ ne !!! iat) ∧ (add_excl_pair ne j aj) !!! iat = (ne !!! iat) ++ [j].
Proof.
  intros Haj. unfold add_excl_pair. destruct (negb (j =? aj)); [|by left].
  assert (H1 : (add_excl_at ne j aj) !!! iat = ne !!! iat).
  { unfold add_excl_at. destruct (decide (j = iat)) as [->|Hne].
    - destruct (decide (iat < length ne)).
      + rewrite list_lookup_total_insert_eq by done. by apply add_excl_elem.
      + by rewrite list_insert_ge by lia.
    - by rewrite list_lookup_total_insert_ne. }
  set (ne1 := add_excl_at ne j aj) in *.
  assert (H2 : (add_excl_at ne1 aj j) !!! iat = ne1 !!! iat ∨
               (aj = iat ∧ (add_excl_at ne1 aj j) !!! iat = add_excl (ne1 !!! iat) j)).
  { unfold add_excl_at. destruct (decide (aj = iat)) as [->|Hne].
    - destruct (decide (iat < length ne1)).
      + right. split; [done|]. by rewrite list_lookup_total_insert_eq.
      + left. by rewrite list_insert_ge by lia.
    - left. by rewrite list_lookup_total_insert_ne. }
  destruct H2 as [->|[-> ->]]; rewrite H1; [by left|].
  destruct (decide (j ∈ ne !!! iat)).
  - left. by apply add_excl_elem.
  - right. split; [done|]. by apply add_excl_not_elem.
Qed.

(** With one round more than the length of the list of [iat], one round
    for the shell included, the loop ends because [k] reaches the end of
    the list: more rounds change nothing. *)
Lemma shell_excl_loop_fuel (fuel iat j k : nat) (ne : list (list nat)) :
  length (ne !!! iat) + (if decide (j ∈ ne !!! iat) then 0 else 1) - k ≤ fuel →
  shell_excl_loop (S fuel) iat j k ne = shell_excl_loop fuel iat j k ne.
Proof.
  revert k ne. induction fuel as [|fuel IH]; intros k ne Hfuel.
  - simpl. destruct ((ne !!! iat) !! k) as [aj|] eqn:Hk; [|done].
    apply lookup_lt_Some in Hk. case_decide; lia.
  - change (shell_excl_loop (S (S fuel)) iat j k ne)
      with (match (ne !!! iat) !! k with
            | Some aj => shell_excl_loop (S fuel) iat j (S k) (add_excl_pair ne j aj)
            | None => ne
            end).
    change (shell_excl_loop (S fuel) iat j k ne)
      with (match (ne !!! iat) !! k with
            | Some aj => shell_excl_loop fuel iat j (S k) (add_excl_pair ne j aj)
            | None => ne
            end).
    destruct ((ne !!! iat) !! k) as [aj|] eqn:Hk; [|done].
    apply IH.
    assert (Haj : aj ∈ ne !!! iat) by (apply list_elem_of_lookup; eauto).
    apply lookup_lt_Some in Hk.
    destruct (add_excl_pair_at ne iat j aj Haj) as [->|[Hj ->]].
    + lia.
    + rewrite length_app. simpl.
      rewrite (decide_True (P := j ∈ ne !!! iat ++ [j]))
        by (apply elem_of_app; right; apply list_elem_of_singleton; done).
      rewrite decide_False in Hfuel by done. lia.
Qed.

(** The number of rounds [close_shell_excls] allows is enough. *)
Lemma shell_excl_loop_enough (extra iat j : nat) (ne : list (list nat)) :
  shell_excl_loop (S (length (ne !!! iat)) + extra) iat j 0 ne
  = shell_excl_loop (S (length (ne !!! iat))) iat j 0 ne.
Proof.
  induction extra as [|extra IH]; [by rewrite Nat.add_0_r|].
  rewrite Nat.add_succ_r, shell_excl_loop_fuel; [done|].
  case_decide; lia.
Qed.

Section excl_adds_lemmas.
Variable Old : nat → nat → Prop.

Lemma excl_adds_trans ex1 ex2 ex3 :
  excl_adds Old ex1 ex2 → excl_adds Old ex2 ex3 → excl_adds Old ex1 ex3.
Proof.
  intros H12 H23. induction H23 as [|ex2 ex3 a b _ IH|ex2 ex3 a b _ IH Hab].
  - done.
  - apply adds_pair. by apply IH.
  - apply adds_old; [by apply IH|done].
Qed.

Lemma excl_adds_foldl {A} (f : list (list nat) → A → list (list nat))
    (l : list A) (ex : list (list nat)) :
  (∀ ex x, x ∈ l → excl_adds Old ex (f ex x)) → excl_adds Old ex (foldl f ex l).
Proof.
  revert ex. induction l as [|x l IH]; intros ex Hf; simpl.
  - apply adds_refl.
  - eapply excl_adds_trans; [apply Hf; left|].
    apply IH. intros ex' y Hy. apply Hf. by right.
Qed.

Lemma excl_adds_pair_step (ex : list (list nat)) (a b : nat) :
  excl_adds Old ex (add_excl_pair ex a b).
Proof.
  unfold add_excl_pair. destruct (negb _).
  - apply adds_pair, adds_refl.
  - apply adds_refl.
Qed.

Lemma excl_adds_length ex ex' : excl_adds Old ex ex' → length ex' = length ex.
Proof.
  induction 1 as [|ex ex' a b _ IH|ex ex' a b _ IH Hab];
    rewrite ?length_add_excl_at; done.
Qed.

Lemma excl_adds_mono ex ex' x y :
  excl_adds Old ex ex' → excludes ex x y → excludes ex' x y.
Proof.
  induction 1 as [|ex ex' a b _ IH|ex ex' a b _ IH Hab]; intros Hxy.
  - done.
  - rewrite !excludes_add_excl_at. left; left. by apply IH.
  - rewrite excludes_add_excl_at. left. by apply IH.
Qed.

(** Every exclusion below [n] has its mirror image or was taken over from
    the old exclusions. *)
Lemma excl_adds_mirrored (n : nat) ex ex' :
  excl_adds Old ex ex' → length ex = n →
  (∀ x y, y < n → excludes ex x y → excludes ex y x ∨ Old x y) →
  ∀ x y, y < n → excludes ex' x y → excludes ex' y x ∨ Old x y.
Proof.
  intros Hadds Hlen Hinv.
  induction Hadds as [|ex ex' a b Hadds IH|ex ex' a b Hadds IH Hab];
    intros x y Hy Hxy.
  - by apply Hinv.
  - pose proof (excl_adds_length _ _ Hadds) as Hlen'.
    rewrite !excludes_add_excl_at, length_add_excl_at in Hxy.
    rewrite !excludes_add_excl_at, length_add_excl_at.
    destruct Hxy as [[Hxy|(-> & -> & Ha)]|(-> & -> & Hb)].
    + destruct (IH Hlen Hinv x y Hy Hxy) as [Hyx|Hold]; [left; by left; left|by right].
    + left. right. split_and!; [done..|lia].
    + left. left. right. split_and!; [done..|lia].
  - rewrite excludes_add_excl_at in Hxy. rewrite excludes_add_excl_at.
    destruct Hxy as [Hxy|(-> & -> & Ha)].
    + destruct (IH Hlen Hinv x y Hy Hxy) as [Hyx|Hold]; [left; by left|by right].
    + by right.
Qed.
End excl_adds_lemmas.

Lemma foldl_both {A B C} (f : A → C → A) (g : B → C → B) (l : list C) (a : A) (b : B) :
  foldl (both f g) (a, b) l = (foldl f a l, foldl g b l).
Proof. revert a b. induction l as [|x l IH]; intros a b; simpl; [done|]. apply IH. Qed.

Lemma foldl_seq_invariant {A} (P : nat → A → Prop) (f : A → nat → A) (n : nat) (s : A) :
  P 0 s → (∀ k s, k < n → P k s → P (S k) (f s k)) → P n (foldl f s (seq 0 n)).
Proof.
  intros H0 Hstep. induction n as [|n IH]; [done|].
  rewrite seq_S, foldl_app. simpl. apply Hstep; [lia|].
  apply IH. intros k s' Hk. apply Hstep. lia.
Qed.

Section symmetry_lemmas.
Context `{gmx_tables} `{gmx_atomtypes} `{gmx_molprop}.

Lemma shell_loop_split (atoms : t_atoms) (x : list rvec) (p : t_param)
    (excls : list (list nat)) (renum : list nat) (l : list nat)
    (sa : shell_atoms) (ne : list (list nat)) :
  foldl (shell_loop atoms x p excls renum) (sa, ne) l
  = (foldl (shell_loop_atoms atoms x p renum) sa l,
     foldl (shell_loop_excls excls renum) ne l).
Proof.
  revert sa ne. induction l as [|i l IH]; intros sa ne; simpl; [done|].
  unfold shell_loop at 2. simpl. rewrite foldl_both. apply IH.
Qed.

Lemma copy_atom_length atoms x renum sa i :
  length (atom (newa (copy_atom atoms x renum sa i))) = length (atom (newa sa)).
Proof. unfold copy_atom. simpl. by rewrite length_insert. Qed.

Lemma make_shell_length atoms x p i iat sa j :
  length (atom (newa (make_shell atoms x p i iat sa j))) = length (atom (newa sa)).
Proof.
  unfold make_shell. destruct (add_atomtype _ _ _ _) as [atype shell]. simpl.
  by rewrite !length_insert.
Qed.

Section loops_add.
Variable Old : nat → nat → Prop.
Variables (excls : list (list nat)) (renum : list nat).

Lemma polarization_excls_adds (pol : t_params) (ne : list (list nat)) :
  excl_adds Old ne (polarization_excls pol ne).
Proof.
  unfold polarization_excls. apply excl_adds_foldl. intros ex q _.
  apply adds_pair, adds_refl.
Qed.

Lemma inherit_excls_adds (ne : list (list nat)) (i : nat) :
  (∀ e, e ∈ excls !!! i → Old (renum !!! i) (renum !!! e)) →
  excl_adds Old ne (inherit_excls excls renum ne i).
Proof.
  intros Hold. unfold inherit_excls. apply excl_adds_foldl. intros ex e He.
  apply adds_old; [apply adds_refl|by apply Hold].
Qed.

Lemma shell_excls_adds (ne : list (list nat)) (i j : nat) :
  excl_adds Old ne (shell_excls excls renum i ne j).
Proof.
  unfold shell_excls. apply excl_adds_foldl. intros ex e _.
  apply excl_adds_pair_step.
Qed.

Lemma shell_loop_excls_adds (ne : list (list nat)) (i : nat) :
  (∀ e, e ∈ excls !!! i → Old (renum !!! i) (renum !!! e)) →
  excl_adds Old ne (shell_loop_excls excls renum ne i).
Proof.
  intros Hold. unfold shell_loop_excls.
  eapply excl_adds_trans; [by apply inherit_excls_adds|].
  apply excl_adds_foldl. intros ex j _. apply shell_excls_adds.
Qed.

Lemma shell_excl_loop_adds (fuel iat j k : nat) (ne : list (list nat)) :
  excl_adds Old ne (shell_excl_loop fuel iat j k ne).
Proof.
  revert k ne. induction fuel as [|fuel IH]; intros k ne; simpl.
  - apply adds_refl.
  - destruct ((ne !!! iat) !! k) as [aj|]; [|apply adds_refl].
    eapply excl_adds_trans; [apply excl_adds_pair_step|apply IH].
Qed.

Lemma close_shell_excls_adds (ne : list (list nat)) (i : nat) :
  excl_adds Old ne (close_shell_excls renum ne i).
Proof.
  unfold close_shell_excls. apply excl_adds_foldl. intros ex j _.
  apply shell_excl_loop_adds.
Qed.
End loops_add.

(** After the loop over the atoms, the new index of an atom excludes the
    new index of every atom it excluded before. *)
Lemma shell_loop_excls_complete (excls : list (list nat)) (renum : list nat)
    (l : list nat) (ne : list (list nat)) (a b : nat) :
  a ∈ l → renum !!! a < length ne → b ∈ excls !!! a →
  excludes (foldl (shell_loop_excls excls renum) ne l) (renum !!! a) (renum !!! b).
Proof.
  revert ne. induction l as [|i l IH]; intros ne Ha Hlt Hb; simpl.
  - by apply elem_of_nil in Ha.
  - apply elem_of_cons in Ha as [->|Ha].
    + eapply (excl_adds_mono (fun _ _ => True)).
      { apply excl_adds_foldl. intros ex j _. by apply shell_loop_excls_adds. }
      unfold shell_loop_excls.
      eapply (excl_adds_mono (fun _ _ => True)).
      { apply excl_adds_foldl. intros ex j _. apply shell_excls_adds. }
      unfold inherit_excls. clear IH.
      revert ne Hlt. induction (excls !!! i) as [|e es IHes]; intros ne Hlt; simpl.
      * by apply elem_of_nil in Hb.
      * apply elem_of_cons in Hb as [->|Hb].
        -- eapply (excl_adds_mono (fun _ _ => True)).
           { apply excl_adds_foldl. intros ex e' _.
             apply adds_old; [apply adds_refl|done]. }
           apply excludes_add_excl_at. by right.
        -- apply IHes; [done|]. by rewrite length_add_excl_at.
    + apply IH; [done| |done].
      rewrite (excl_adds_length (fun _ _ => True) ne); [done|].
      by apply shell_loop_excls_adds.
Qed.

(** The parts of the molecule after [AddShells] has added a shell. *)
Lemma AddShells_components (pd : gmx_poldata_t) (mol : MyMol) ns renum p pol :
  shell_renum pd (topology_atoms mol) (plist_ mol !!! F_POLARIZATION)
  = (ns, renum, p, pol) →
  0 < ns →
  let nr := atoms_nr (topology_atoms mol) in
  let mol' := AddShells pd mol in
  excls_ mol'
  = prune_excl
      (foldl (close_shell_excls renum)
         (foldl (shell_loop_excls (excls_ mol) renum)
            (polarization_excls pol (replicate (nr + ns) [])) (seq 0 nr))
         (seq 0 nr))
      (topology_atoms mol') (atype_ mol') ∧
  atoms_nr (topology_atoms mol') = nr + ns.
Proof.
  intros Hrenum Hns nr mol'. unfold mol', AddShells.
  destruct (shell_renum _ _ _) as [[[ns' renum'] p'] pol'].
  injection Hrenum as -> -> -> ->.
  apply Nat.ltb_lt in Hns as Hns'. rewrite Hns'.
  rewrite shell_loop_split. simpl. split; [done|].
  unfold atoms_nr. simpl.
  apply (foldl_preserves
           (fun sa => length (atom (newa sa)) = atoms_nr (topology_atoms mol) + ns)).
  - apply (foldl_preserves
             (fun sa => length (atom (newa sa)) = atoms_nr (topology_atoms mol) + ns)).
    + simpl. by rewrite length_replicate.
    + intros sa i Hsa. by rewrite copy_atom_length.
  - intros sa i Hsa. unfold shell_loop_atoms.
    apply (foldl_preserves
             (fun sa => length (atom (newa sa)) = atoms_nr (topology_atoms mol) + ns));
      [done|].
    intros sa' j Hsa'. by rewrite make_shell_length.
Qed.

Lemma AddShells_no_shell (pd : gmx_poldata_t) (mol : MyMol) :
  shells_added pd mol = 0 →
  excls_ (AddShells pd mol) = excls_ mol ∧
  topology_atoms (AddShells pd mol) = topology_atoms mol.
Proof.
  unfold shells_added, AddShells.
  destruct (shell_renum _ _ _) as [[[ns renum] p] pol]. simpl. by intros ->.
Qed.

(** The new index of an atom is below the new number of atoms. *)
Lemma shell_renum_bound (pd : gmx_poldata_t) (atoms : t_atoms) (pol0 : t_params)
    ns renum p pol :
  shell_renum pd atoms pol0 = (ns, renum, p, pol) →
  ∀ a, a < atoms_nr atoms → renum !!! a < atoms_nr atoms + ns.
Proof.
  unfold shell_renum. set (nr := atoms_nr atoms).
  match goal with |- context [foldl ?f ?s (seq 0 nr)] =>
    pose proof (foldl_seq_invariant
      (fun k (st : nat * list nat * t_param * t_params) =>
         length st.1.1.2 = nr * 2 + 2 ∧ ∀ a, a < k → st.1.1.2 !!! a ≤ a + st.1.1.1)
      f nr s) as Hinv
  end.
  destruct (foldl _ _ (seq 0 nr)) as [[[ns' renum'] p'] pol'].
  intros [= <- <- <- <-] a Ha.
  destruct Hinv as [Hlen Hle].
  - simpl. rewrite length_replicate. split; [done|]. intros; lia.
  - intros k [[[ns1 renum1] p1] pol1] Hk [Hlen Hle]. simpl in *.
    assert (Hins : ∀ ns2, ns1 ≤ ns2 →
              length (<[k := k + ns1]> renum1) = nr * 2 + 2 ∧
              ∀ a, a < S k → <[k := k + ns1]> renum1 !!! a ≤ a + ns2).
    { intros ns2 Hns. rewrite length_insert. split; [done|]. intros a' Ha'.
      destruct (decide (a' = k)) as [->|Hne].
      - rewrite list_lookup_total_insert_eq by lia. lia.
      - rewrite list_lookup_total_insert_ne by done.
        specialize (Hle a'). lia. }
    destruct (gmx_poldata_get_atype_pol _ _) as [[polv sigpol]|]; simpl.
    + apply Hins. lia.
    + apply Hins. lia.
  - simpl in *. rewrite list_lookup_total_insert_ne by lia.
    specialize (Hle a Ha). lia.
Qed.
End symmetry_lemmas.

(** C5.  When the exclusion lists of the molecule name atoms of the
    molecule only and are symmetric, they are symmetric after [AddShells],
    over the renumbered atoms and the shells: [i] excludes [j] exactly when
    [j] excludes [i]. *)
Theorem AddShells_symmetric `{gmx_tables} `{gmx_atomtypes} `{gmx_molprop}
    (pd : gmx_poldata_t) (mol : MyMol) :
  excls_in_range (atoms_nr (topology_atoms mol)) (excls_ mol) →
  symmetric_excls (atoms_nr (topology_atoms mol)) (excls_ mol) →
  symmetric_excls (atoms_nr (topology_atoms (AddShells pd mol)))
                  (excls_ (AddShells pd mol)).
Proof.
  intros [Hlen Hrange] Hsym.
  destruct (decide (shells_added pd mol = 0)) as [Hns|Hns].
  { destruct (AddShells_no_shell pd mol Hns) as [-> ->]. done. }
  set (nr := atoms_nr (topology_atoms mol)) in *.
  destruct (shell_renum pd (topology_atoms mol) (plist_ mol !!! F_POLARIZATION))
    as [[[ns renum] p] pol] eqn:Hrenum.
  assert (Hpos : 0 < ns).
  { unfold shells_added in Hns.
    pose proof (f_equal (fun t => t.1.1.1) Hrenum) as Hfst. simpl in Hfst.
    lia. }
  destruct (AddShells_components pd mol ns renum p pol Hrenum Hpos) as [Hex Hnr].
  fold nr in Hex, Hnr. rewrite Hnr.
  set (n' := nr + ns) in *.
  set (Old := inherited (excls_ mol) renum nr).
  set (ne0 := polarization_excls pol (replicate n' [])) in *.
  set (ne1 := foldl (shell_loop_excls (excls_ mol) renum) ne0 (seq 0 nr)) in *.
  set (ne2 := foldl (close_shell_excls renum) ne1 (seq 0 nr)) in *.
  assert (Hbound : ∀ a, a < nr → renum !!! a < n')
    by exact (shell_renum_bound pd (topology_atoms mol) _ ns renum p pol Hrenum).
  assert (H01 : excl_adds Old (replicate n' []) ne1).
  { eapply excl_adds_trans; [apply polarization_excls_adds|].
    apply excl_adds_foldl. intros ex i Hi. apply elem_of_seq in Hi.
    apply shell_loop_excls_adds. intros e He. exists i, e. split_and!; [lia|done..]. }
  assert (H12 : excl_adds Old ne1 ne2).
  { apply excl_adds_foldl. intros ex i _. apply close_shell_excls_adds. }
  assert (Hlen1 : length ne1 = n').
  { rewrite (excl_adds_length _ _ _ H01). apply length_replicate. }
  assert (Hlen0 : length ne0 = n').
  { unfold ne0. rewrite (excl_adds_length Old (replicate n' [])).
    - apply length_replicate.
    - apply polarization_excls_adds. }
  assert (Hmirror : ∀ x y, y < n' → excludes ne2 x y → excludes ne2 y x ∨ Old x y).
  { apply (excl_adds_mirrored Old n' (replicate n' [])).
    - by eapply excl_adds_trans.
    - apply length_replicate.
    - intros x y _ Hxy. unfold excludes in Hxy.
      rewrite list_lookup_total_alt in Hxy.
      destruct (replicate n' [] !! x) as [l|] eqn:Hl; simpl in Hxy.
      + apply lookup_replicate in Hl as [-> _]. by apply elem_of_nil in Hxy.
      + by apply elem_of_nil in Hxy. }
  assert (Hcomplete : ∀ a b, a < nr → excludes (excls_ mol) a b →
                             excludes ne2 (renum !!! a) (renum !!! b)).
  { intros a b Ha Hab. apply (excl_adds_mono Old ne1); [done|].
    apply shell_loop_excls_complete; [apply elem_of_seq; lia| |done].
    rewrite Hlen0. by apply Hbound. }
  assert (Hsym2 : ∀ x y, y < n' → excludes ne2 x y → excludes ne2 y x).
  { intros x y Hy Hxy. destruct (Hmirror x y Hy Hxy) as [Hyx|Hold]; [done|].
    destruct Hold as (a & b & Ha & Hb & -> & ->).
    assert (Hbn : b < nr) by (by apply (Hrange a b)).
    apply Hcomplete; [done|]. apply Hsym; done. }
  intros x y Hx Hy. rewrite Hex, !prune_excl_excludes, Hnr.
  fold n'.
  set (sh := is_shell (topology_atoms (AddShells pd mol)) (atype_ (AddShells pd mol))).
  split.
  - intros [Hxy Hsh]. split; [by apply Hsym2|]. intros _ Hshy.
    destruct (sh x) eqn:Hshx; [done|]. rewrite Hsh in Hshy by done. done.
  - intros [Hyx Hsh]. split; [by apply Hsym2|]. intros _ Hshx.
    destruct (sh y) eqn:Hshy; [done|]. rewrite Hsh in Hshx by done. done.
Qed.

(** The exclusions of the two bonded carbon atoms are in range and
    symmetric: they stay symmetric over the four atoms after [AddShells]. *)
Lemma AddShells_symmetric_witness :
  symmetric_excls
    (atoms_nr (topology_atoms (AddShells (H := small_tables) polar_poldata ethyne_carbons)))
    (excls_ (AddShells (H := small_tables) polar_poldata ethyne_carbons)).
Proof.
  apply (AddShells_symmetric (H := small_tables) polar_poldata ethyne_carbons).
  - split; [reflexivity|]. intros i j Hij. unfold excludes in Hij.
    change (atoms_nr (topology_atoms ethyne_carbons)) with 2.
    change (excls_ ethyne_carbons) with [[1]; [0]] in Hij.
    destruct i as [|[|i]]; cbn in Hij.
    + apply list_elem_of_singleton in Hij as ->. lia.
    + apply list_elem_of_singleton in Hij as ->. lia.
    + by apply elem_of_nil in Hij.
  - intros i j. unfold excludes.
    change (atoms_nr (topology_atoms ethyne_carbons)) with 2.
    change (excls_ ethyne_carbons) with [[1]; [0]].
    intros Hi Hj.
    destruct i as [|[|i]]; destruct j as [|[|j]]; cbn; try lia;
      rewrite !list_elem_of_singleton; split; intros; (lia || done).
Defined.

(** ** Ring detection and rings *)

Section ring_lemmas.
Variable bonds : t_params.

Lemma path_bonded_lookup (l : list nat) (i a b : nat) :
  path_bonded bonds l → l !! i = Some a → l !! (S i) = Some b → bonded bonds a b.
Proof.
  revert i. induction l as [|x [|y t] IH]; intros i Hp Ha Hb; [done..|].
  destruct Hp as [Hxy Hp]. destruct i as [|i].
  - simpl in Ha, Hb. by simplify_eq.
  - by apply (IH i).
Qed.

Lemma chain_ok_intro (l : list nat) :
  path_bonded bonds l →
  (∀ i x z, l !! i = Some x → l !! (S (S i)) = Some z → z ≠ x) →
  chain_ok bonds l.
Proof.
  induction l as [|x [|y t] IH]; intros Hp Hrev; [done..|].
  destruct Hp as [Hxy Hp].
  change (bonded bonds x y ∧ match t with z :: _ => z ≠ x | [] => True end ∧
          chain_ok bonds (y :: t)).
  split_and!; [done| |].
  - destruct t as [|z t]; [done|]. by apply (Hrev 0).
  - apply IH; [done|]. intros i x' z' Hx' Hz'. by apply (Hrev (S i)).
Qed.

(** A ring is one of the chains the search closes. *)
Lemma ring_closed_chain (p : list nat) (a1 : nat) :
  ring bonds p → head p = Some a1 → closed_chain bonds a1 p.
Proof.
  intros ([Hl1 Hl2] & Hnd & Hp) Hhead.
  assert (H0 : p !! 0 = Some a1) by (by destruct p).
  assert (Htake : take 1 p = [a1]) by (destruct p; simpl in *; by simplify_eq).
  rewrite Htake in Hp.
  split_and!; [done|lia|lia| |].
  - apply chain_ok_intro; [done|]. intros i x z Hx Hz ->.
    assert (Hi : S (S i) < length (p ++ [a1])) by (by eapply lookup_lt_Some).
    rewrite length_app in Hi. simpl in Hi.
    rewrite lookup_app_l in Hx by lia.
    destruct (decide (S (S i) < length p)) as [Hlt|Hge].
    + rewrite lookup_app_l in Hz by lia.
      pose proof (NoDup_lookup _ _ _ _ Hnd Hx Hz). lia.
    + rewrite lookup_app_r in Hz by lia.
      replace (S (S i) - length p) with 0 in Hz by lia. simpl in Hz. simplify_eq.
      pose proof (NoDup_lookup _ _ _ _ Hnd Hx H0). lia.
  - apply Forall_lookup. intros i z Hz ->. rewrite lookup_drop in Hz.
    pose proof (NoDup_lookup _ _ _ _ Hnd Hz H0). lia.
Qed.

Lemma bonded_in_range (natom x y : nat) :
  bonds_in_range bonds natom → bonded bonds x y → x < natom ∧ y < natom.
Proof.
  intros Hr (b & Hb & Ho). destruct (Hr b Hb) as [H0 H1]. unfold other_atom in Ho.
  destruct (p_a b !!! 0 =? x) eqn:E0.
  - apply Nat.eqb_eq in E0. simplify_eq. lia.
  - destruct (p_a b !!! 1 =? x) eqn:E1; [|done].
    apply Nat.eqb_eq in E1. simplify_eq. lia.
Qed.

(** X1.  [detect_rings] flags every atom of every ring of 4 to 8 atoms:
    when the bonds name atoms below [natom] and there is a flag for each
    atom, the flag of an atom that lies on a ring is set after the call,
    whatever the flags held before. *)
Lemma detect_rings_flags_rings (natom : nat) (bRing : list bool) (x : nat) :
  bonds_in_range bonds natom → length bRing = natom → on_ring bonds x →
  detect_rings bonds natom bRing !! x = Some true.
Proof.
  intros Hr Hlen (p & Hring & Hx).
  pose proof Hring as ([Hl1 Hl2] & Hnd & Hp).
  assert (Hin : ∀ y, y ∈ p → y < natom).
  { intros y Hy. apply list_elem_of_lookup in Hy as [i Hi].
    pose proof (lookup_lt_Some _ _ _ Hi) as Hlt.
    destruct (lookup_lt_is_Some_2 (p ++ take 1 p) (S i)) as [z Hz].
    { rewrite length_app, length_take. lia. }
    eapply (bonded_in_range natom y z); [done|].
    eapply (path_bonded_lookup _ i); [done| |done].
    by rewrite lookup_app_l. }
  destruct p as [|a1 p']; [simpl in Hl1; lia|].
  destruct (detect_rings_closed_chains) as [_ Hgen].
  destruct (Hgen bonds natom bRing Hr Hlen) as (_ & _ & Hflag).
  apply Hflag; [by apply Hin|].
  exists a1, (a1 :: p'). split_and!; [apply Hin; left| |done].
  by apply ring_closed_chain.
Qed.
End ring_lemmas.

(** In the pendant molecule atom 6 is bonded to atom 0 only. *)
Lemma hexagon_pendant_6 (x y : nat) :
  bonded hexagon_pendant x y → (x = 6 → y = 0) ∧ (y = 6 → x = 0).
Proof.
  intros (b & Hb & Ho). unfold hexagon_pendant, hexagon in Hb. simpl in Hb.
  repeat (apply elem_of_cons in Hb as [->|Hb]);
    [..|by apply elem_of_nil in Hb];
    unfold other_atom in Ho; cbn -[Nat.eqb] in Ho;
    repeat match type of Ho with
           | context [?a =? x] => destruct (Nat.eqb_spec a x)
           end; simplify_eq; split; intros; simplify_eq; done.
Qed.

(** C6 (the code at the failing input).  The example of the specification
    holds: on the six-membered ring 0-1-2-3-4-5-0 with a seventh atom without
    bonds the atoms 0 to 5 are flagged and atom 6 is not.  When the seventh
    atom is bonded to atom 0, [detect_rings] flags atom 6 as well, although
    atom 6 lies on no ring: the chain 6-0-1-2-3-4-5-0-6 closes back to atom
    6 and passes for a ring of 8 atoms, because a hop is only compared with
    the atom two places before it. *)
Theorem detect_rings_flags_pendant_atom :
  detect_rings hexagon 7 (replicate 7 true)
    = [true; true; true; true; true; true; false] ∧
  detect_rings hexagon_pendant 7 (replicate 7 false) = replicate 7 true ∧
  ring hexagon_pendant [0; 1; 2; 3; 4; 5] ∧
  ¬ on_ring hexagon_pendant 6.
Proof.
  split_and!.
  - vm_compute. reflexivity.
  - vm_compute. reflexivity.
  - split_and!; [simpl; lia|simpl; lia| |].
    + repeat (apply NoDup_cons; split;
              [rewrite ?elem_of_cons, elem_of_nil; lia|]). apply NoDup_nil_2.
    + assert (Hb : ∀ x y, bond x y ∈ hexagon_pendant → bonded hexagon_pendant x y).
      { intros x y Hin. exists (bond x y). split; [done|].
        unfold other_atom. cbn -[Nat.eqb]. by rewrite Nat.eqb_refl. }
      assert (Hb' : ∀ x y, bond y x ∈ hexagon_pendant → x ≠ y →
                           bonded hexagon_pendant x y).
      { intros x y Hin Hne. exists (bond y x). split; [done|].
        unfold other_atom. cbn -[Nat.eqb].
        destruct (Nat.eqb_spec y x); [congruence|]. by rewrite Nat.eqb_refl. }
      simpl. unfold hexagon_pendant, hexagon in *.
      split_and!; try done; first [apply Hb | apply Hb'; [|lia]];
        rewrite !elem_of_app, !elem_of_cons; tauto.
  - intros (p & ([Hl1 Hl2] & Hnd & Hp) & H6).
    apply list_elem_of_lookup in H6 as [i Hi].
    pose proof (lookup_lt_Some _ _ _ Hi) as Hlt.
    destruct p as [|a1 p']; [simpl in Hl1; lia|].
    set (p := a1 :: p') in *.
    assert (Hclosed : ∀ n, n < length p → (p ++ take 1 p) !! n = p !! n)
      by (intros n Hn; by rewrite lookup_app_l).
    assert (Hlast : (p ++ take 1 p) !! length p = Some a1).
    { rewrite lookup_app_r by lia. by rewrite Nat.sub_diag. }
    assert (H0 : p !! 0 = Some a1) by done.
    (* the atom after atom 6 *)
    assert (Hnext : ∃ n, n ≠ i ∧ p !! n = Some 0 ∧ (n = S i ∨ (n = 0 ∧ S i = length p))).
    { destruct (decide (S i < length p)) as [Hs|Hs].
      - destruct (lookup_lt_is_Some_2 p (S i) Hs) as [s Hs'].
        exists (S i). split; [lia|]. split; [|by left].
        assert (Hb : bonded hexagon_pendant 6 s).
        { eapply (path_bonded_lookup _ _ i); [done|by rewrite Hclosed|].
          by rewrite Hclosed. }
        apply hexagon_pendant_6 in Hb as [Hb _]. by rewrite Hs', Hb.
      - assert (S i = length p) by lia. exists 0. split; [lia|].
        split; [|by right].
        assert (Hb : bonded hexagon_pendant 6 a1).
        { eapply (path_bonded_lookup _ _ i); [done|by rewrite Hclosed|].
          by replace (S i) with (length p). }
        apply hexagon_pendant_6 in Hb as [Hb _]. by rewrite H0, Hb. }
    (* the atom before atom 6 *)
    assert (Hprev : ∃ n, n ≠ i ∧ p !! n = Some 0 ∧
                         ((S n = i) ∨ (i = 0 ∧ S n = length p))).
    { destruct i as [|i'].
      - assert (Ha1 : a1 = 6) by (rewrite H0 in Hi; by simplify_eq). subst a1.
        destruct (lookup_lt_is_Some_2 p (length p - 1)) as [t Ht]; [lia|].
        exists (length p - 1). split; [lia|]. split; [|right; lia].
        assert (Hb : bonded hexagon_pendant t 6).
        { eapply (path_bonded_lookup _ _ (length p - 1)); [done|by rewrite Hclosed by lia|].
          by replace (S (length p - 1)) with (length p) by lia. }
        apply hexagon_pendant_6 in Hb as [_ Hb]. by rewrite Ht, Hb.
      - destruct (lookup_lt_is_Some_2 p i') as [t Ht]; [lia|].
        exists i'. split; [lia|]. split; [|by left].
        assert (Hb : bonded hexagon_pendant t 6).
        { eapply (path_bonded_lookup _ _ i'); [done|by rewrite Hclosed by lia|].
          by rewrite Hclosed. }
        apply hexagon_pendant_6 in Hb as [_ Hb]. by rewrite Ht, Hb. }
    destruct Hnext as (n1 & _ & Hn1 & Hpos1). destruct Hprev as (n2 & _ & Hn2 & Hpos2).
    pose proof (NoDup_lookup _ _ _ _ Hnd Hn1 Hn2) as Heq. lia.
Qed.

(** ** Ring detection: rings and the bonding relation *)

Lemma hexagon_in_range : bonds_in_range hexagon 7.
Proof.
  intros b Hb. unfold hexagon in Hb.
  repeat (apply elem_of_cons in Hb as [->|Hb]; [simpl; lia|]).
  by apply elem_of_nil in Hb.
Qed.

Lemma hexagon_ring : ring hexagon [0; 1; 2; 3; 4; 5].
Proof.
  split_and!; [simpl; lia|simpl; lia| |].
  - repeat (apply NoDup_cons; split; [rewrite ?elem_of_cons, elem_of_nil; lia|]).
    apply NoDup_nil_2.
  - assert (Hb : ∀ x y, bond x y ∈ hexagon → bonded hexagon x y).
    { intros x y Hin. exists (bond x y). split; [done|].
      unfold other_atom. cbn -[Nat.eqb]. by rewrite Nat.eqb_refl. }
    simpl. unfold hexagon in *.
    split_and!; try done; apply Hb; rewrite !elem_of_cons; tauto.
Qed.

(** The six atoms of [hexagon] form a ring: atom 3 is flagged, also when
    all flags were set before. *)
Lemma detect_rings_flags_rings_witness :
  detect_rings hexagon 7 (replicate 7 true) !! 3 = Some true.
Proof.
  apply (detect_rings_flags_rings hexagon 7 (replicate 7 true) 3).
  - exact hexagon_in_range.
  - reflexivity.
  - exists [0; 1; 2; 3; 4; 5]. split; [exact hexagon_ring|].
    rewrite !elem_of_cons. tauto.
Defined.

(* chains depend only on bonded *)
Section bonding_relation.
Variables bonds1 bonds2 : t_params.
Hypothesis Hrel : ∀ x y, bonded bonds1 x y ↔ bonded bonds2 x y.

Lemma chain_ok_rel p : chain_ok bonds1 p ↔ chain_ok bonds2 p.
Proof using Hrel.
  induction p as [|x [|y rest] IH]; [done..|].
  change (chain_ok bonds1 (x :: y :: rest))
    with (bonded bonds1 x y ∧ match rest with z :: _ => z ≠ x | [] => True end ∧
          chain_ok bonds1 (y :: rest)).
  change (chain_ok bonds2 (x :: y :: rest))
    with (bonded bonds2 x y ∧ match rest with z :: _ => z ≠ x | [] => True end ∧
          chain_ok bonds2 (y :: rest)).
  rewrite Hrel, IH. done.
Qed.

Lemma on_closed_chain_rel natom x :
  on_closed_chain bonds1 natom x ↔ on_closed_chain bonds2 natom x.
Proof using Hrel.
  unfold on_closed_chain, closed_chain.
  split; intros (a1 & p & Ha & (Hh & Hl & Hc & Hf) & Hx); exists a1, p;
    (split; [done|]); (split; [|done]);
    (split; [done|split; [done|split; [by apply chain_ok_rel|done]]]).
Qed.
End bonding_relation.

(** X2.  The flags of [detect_rings] depend on which atoms are bonded and
    on nothing else: two lists of bonds that bond the same pairs of atoms
    (the bonds in another order, the two atoms of a bond swapped, a bond
    listed twice) give the same flags, and the flags that were passed in do
    not matter, since every flag is written. *)
Theorem detect_rings_bonding_relation (bonds1 bonds2 : t_params) (natom : nat)
    (bRing1 bRing2 : list bool) :
  bonds_in_range bonds1 natom → bonds_in_range bonds2 natom →
  length bRing1 = natom → length bRing2 = natom →
  (∀ x y, bonded bonds1 x y ↔ bonded bonds2 x y) →
  detect_rings bonds1 natom bRing1 = detect_rings bonds2 natom bRing2.
Proof.
  intros Hr1 Hr2 Hl1 Hl2 Hrel.
  destruct detect_rings_closed_chains as [_ Hgen].
  destruct (Hgen bonds1 natom bRing1 Hr1 Hl1) as (_ & Hlen1 & Hf1).
  destruct (Hgen bonds2 natom bRing2 Hr2 Hl2) as (_ & Hlen2 & Hf2).
  apply list_eq. intros x.
  destruct (decide (x < natom)) as [Hlt|Hge].
  - destruct (Hf1 x Hlt) as [Ht1 Hn1]. destruct (Hf2 x Hlt) as [Ht2 Hn2].
    destruct (lookup_lt_is_Some_2 (detect_rings bonds1 natom bRing1) x) as [v Hv]; [lia|].
    rewrite Hv. symmetry. destruct v.
    + apply Ht2, (on_closed_chain_rel bonds1 bonds2 Hrel), Ht1, Hv.
    + apply Hn2. intros Hc. apply Hn1 in Hv. apply Hv.
      by apply (on_closed_chain_rel bonds1 bonds2 Hrel).
  - rewrite !lookup_ge_None_2 by lia. done.
Qed.

Lemma bonded_reverse bonds x y : bonded (reverse bonds) x y ↔ bonded bonds x y.
Proof. unfold bonded. by setoid_rewrite elem_of_reverse. Qed.

(** The bonds of [hexagon] in the reverse order give the same flags. *)
Lemma detect_rings_bonding_relation_witness :
  detect_rings (reverse hexagon) 7 (replicate 7 true)
  = detect_rings hexagon 7 (replicate 7 false).
Proof.
  apply (detect_rings_bonding_relation (reverse hexagon) hexagon 7).
  - intros b Hb. apply elem_of_reverse in Hb. by apply hexagon_in_range.
  - exact hexagon_in_range.
  - reflexivity.
  - reflexivity.
  - intros x y. apply bonded_reverse.
Defined.

(** ** The exclusions as a block *)

Lemma blocka_index_fold (ex : list (list nat)) (n0 : nat) (acc : list nat) :
  foldl (fun (st : nat * list nat) e => (st.1 + length e, st.2 ++ [st.1])) (n0, acc) ex
  = (n0 + length (concat ex),
     acc ++ map (fun k => n0 + length (concat (take k ex))) (seq 0 (length ex))).
Proof.
  revert n0 acc. induction ex as [|e ex IH]; intros n0 acc; simpl.
  - by rewrite Nat.add_0_r, app_nil_r.
  - rewrite IH. rewrite length_app, <- app_assoc. simpl. f_equal; [lia|].
    f_equal. rewrite Nat.add_0_r. f_equal.
    rewrite <- fmap_S_seq, <- list_fmap_compose. apply list_fmap_ext.
    intros _ k _. simpl. rewrite length_app. lia.
Qed.

Lemma blocka_nra_fold (ex : list (list nat)) (n0 : nat) :
  foldl (fun nra e => nra + length e) n0 ex = n0 + length (concat ex).
Proof.
  revert n0. induction ex as [|e ex IH]; intros n0; simpl; [lia|].
  rewrite IH, length_app. lia.
Qed.

Lemma concat_split_at {A} (ls : list (list A)) (i : nat) (l : list A) :
  ls !! i = Some l →
  concat ls = concat (take i ls) ++ l ++ concat (drop (S i) ls).
Proof.
  intros Hl. rewrite <- (take_drop_middle ls i l Hl) at 1.
  by rewrite concat_app.
Qed.

(** X7.  The block that [excls__to_blocka] makes of the exclusion lists
    of [natom] atoms can be read back: there are [natom] blocks, the index
    has [natom + 1] entries of which the last is the total count [nra], the
    array [a] has the one spare entry the code allocates, and the entries of
    atom [i] start at [index[i]], end before [index[i+1]] and are the
    exclusions of atom [i] in their order. *)
Theorem excls__to_blocka_round_trip (natom : nat) (excls : list (list nat)) :
  0 < natom → natom ≤ length excls →
  let b := excls__to_blocka natom excls in
  blocka_nr b = natom ∧
  length (blocka_index b) = natom + 1 ∧
  blocka_index b !! natom = Some (blocka_nra b) ∧
  length (blocka_a b) = blocka_nra b + 1 ∧
  ∀ i, i < natom →
    blocka_index b !!! S i = blocka_index b !!! i + length (excls !!! i) ∧
    take (length (excls !!! i)) (drop (blocka_index b !!! i) (blocka_a b)) = excls !!! i.
Proof.
  intros Hpos Hle b. unfold b, excls__to_blocka.
  set (ex := map (fun i => excls !!! i) (seq 0 natom)).
  assert (Hlen : length ex = natom) by (unfold ex; by rewrite length_map, length_seq).
  assert (Hex : ∀ i, i < natom → ex !! i = Some (excls !!! i)).
  { intros i Hi. unfold ex. rewrite list_lookup_fmap, lookup_seq_lt by done. done. }
  rewrite blocka_index_fold, blocka_nra_fold. cbn [snd blocka_nr blocka_index blocka_nra blocka_a].
  rewrite Hlen. simpl.
  set (idx := map (fun k => length (concat (take k ex))) (seq 0 natom)).
  assert (Hidx : ∀ i, i < natom → (idx ++ [length (concat ex)]) !!! i
                                  = length (concat (take i ex))).
  { intros i Hi. apply list_lookup_total_correct.
    rewrite lookup_app_l by (unfold idx; rewrite length_map, length_seq; lia).
    unfold idx. rewrite list_lookup_fmap, lookup_seq_lt by done. done. }
  assert (Hlast : (idx ++ [length (concat ex)]) !! natom = Some (length (concat ex))).
  { rewrite lookup_app_r by (unfold idx; rewrite length_map, length_seq; lia).
    unfold idx. rewrite length_map, length_seq, Nat.sub_diag. done. }
  split_and!.
  - done.
  - rewrite length_app. unfold idx. rewrite length_map, length_seq. simpl. lia.
  - done.
  - rewrite length_app. simpl. lia.
  - intros i Hi. rewrite (Hidx i Hi).
    pose proof (concat_split_at ex i _ (Hex i Hi)) as Hsplit.
    split.
    + destruct (decide (S i < natom)) as [Hlt|Hge].
      * rewrite (Hidx (S i) Hlt). rewrite (take_S_r _ _ _ (Hex i Hi)).
        rewrite concat_app, length_app. simpl. rewrite app_nil_r. done.
      * assert (S i = natom) as -> by lia.
        rewrite (list_lookup_total_correct _ _ _ Hlast).
        rewrite Hsplit at 1. rewrite !length_app.
        rewrite drop_ge by lia. simpl. lia.
    + rewrite Hsplit at 1. rewrite <- !app_assoc.
      rewrite drop_app_length. by rewrite take_app_length.
Qed.

(** Two atoms that exclude each other. *)
Lemma excls__to_blocka_round_trip_witness :
  let b := excls__to_blocka 2 [[1]; [0]] in
  blocka_nr b = 2 ∧
  length (blocka_index b) = 2 + 1 ∧
  blocka_index b !! 2 = Some (blocka_nra b) ∧
  length (blocka_a b) = blocka_nra b + 1 ∧
  ∀ i, i < 2 →
    blocka_index b !!! S i = blocka_index b !!! i + length ([[1]; [0]] !!! i) ∧
    take (length ([[1]; [0]] !!! i)) (drop (blocka_index b !!! i) (blocka_a b))
    = [[1]; [0]] !!! i.
Proof.
  apply (excls__to_blocka_round_trip 2 [[1]; [0]]).
  - lia.
  - simpl. lia.
Defined.

(** ** The slots of the force constants *)

Section force_constant_slots.
Context `{gmx_tables} `{gmx_strings}.

(** The state of the loop over the tokens after a part of them. *)
Lemma set_aux_params_fold (ptr : list string) (n : nat) (c : list Q) :
  let toks := nonempty ptr in
  let r := foldl (fun (st : nat * list Q) tok =>
                    let '(n, c) := st in
                    if (0 <? String.length tok) && (n <? MAXFORCEPARAM - 1)
                    then (S n, <[1 + n := atof tok]> c)
                    else (n, c))
                 (n, c) ptr in
  length r.2 = length c ∧
  ∀ k, r.2 !! k =
       if decide (n < k < MAXFORCEPARAM ∧ k - 1 - n < length toks ∧ k < length c)
       then Some (atof (toks !!! (k - 1 - n))) else c !! k.
Proof.
  revert n c. induction ptr as [|tok ptr IH]; intros n c toks r.
  - simpl. split; [done|]. intros k. rewrite decide_False; [done|]. simpl. lia.
  - unfold r, toks, nonempty. cbn [foldl]. rewrite filter_cons. fold (nonempty ptr).
    destruct (decide (0 < String.length tok)) as [Hlen|Hlen].
    + apply Nat.ltb_lt in Hlen as Hlen'. rewrite Hlen'. cbn [andb].
      destruct (n <? MAXFORCEPARAM - 1) eqn:Hn.
      * apply Nat.ltb_lt in Hn.
        destruct (IH (S n) (<[1 + n := atof tok]> c)) as [IHl IHk].
        rewrite length_insert in IHl, IHk.
        split; [exact IHl|]. intros k. rewrite IHk. cbn [length].
        destruct (decide (k = S n)) as [->|Hne].
        -- rewrite decide_False by lia.
           destruct (decide (S n < length c)) as [Hc|Hc].
           ++ rewrite list_lookup_insert_eq by done.
              rewrite decide_True by (split_and!; lia).
              by replace (S n - 1 - n) with 0 by lia.
           ++ rewrite list_insert_ge by lia. rewrite decide_False by lia. done.
        -- rewrite list_lookup_insert_ne by done.
           destruct (decide (S n < k < MAXFORCEPARAM ∧
                             k - 1 - S n < length (nonempty ptr) ∧
                             k < length c)) as [Hk|Hk].
           ++ rewrite decide_True by lia.
              replace (k - 1 - n) with (S (k - 1 - S n)) by lia. done.
           ++ rewrite decide_False by lia. done.
      * apply Nat.ltb_ge in Hn.
        destruct (IH n c) as [IHl IHk]. split; [exact IHl|]. intros k. rewrite IHk.
        rewrite !decide_False by lia. done.
    + assert (Hlen' : (0 <? String.length tok) = false) by (apply Nat.ltb_ge; lia).
      rewrite Hlen'. cbn [andb]. apply IH.
Qed.

(** X10.  [set_aux_params] fills the slots of [c] from slot 1 on with
    the numbers read from the tokens of the parameter string that are not
    empty, in their order, as long as the slot is below [MAXFORCEPARAM];
    slot 0, the slots behind the last token and the slots from
    [MAXFORCEPARAM] on keep their values, and the array keeps its
    length. *)
Theorem set_aux_params_slots (ptr : list string) (c : list Q) :
  let toks := nonempty ptr in
  length (set_aux_params ptr c) = length c ∧
  set_aux_params ptr c !! 0 = c !! 0 ∧
  (∀ k, MAXFORCEPARAM ≤ k → set_aux_params ptr c !! k = c !! k) ∧
  (∀ n, n < length toks → 1 + n < MAXFORCEPARAM → 1 + n < length c →
        set_aux_params ptr c !! (1 + n) = Some (atof (toks !!! n))) ∧
  (∀ k, length toks < k → set_aux_params ptr c !! k = c !! k).
Proof.
  intros toks. subst toks. unfold set_aux_params.
  destruct (set_aux_params_fold ptr 0 c) as [Hl Hk]. cbv zeta in Hk.
  split_and!.
  - exact Hl.
  - rewrite Hk. rewrite decide_False by lia. done.
  - intros k Hge. rewrite Hk. rewrite decide_False by lia. done.
  - intros n Hn Hm Hc. rewrite Hk. rewrite decide_True by lia.
    by replace (1 + n - 1 - 0) with n by lia.
  - intros k Hgt. rewrite Hk. rewrite decide_False by lia. done.
Qed.

Lemma for_params_shape (plist : list t_params) (ft : Z) (body : t_param → t_param) :
  (∀ p, p_a (body p) = p_a p ∧ length (p_c (body p)) = length (p_c p)) →
  length (for_params plist ft body) = length plist ∧
  ∀ i, map (fun p => (p_a p, length (p_c p))) (for_params plist ft body !!! i)
       = map (fun p => (p_a p, length (p_c p))) (plist !!! i).
Proof.
  intros Hbody. unfold for_params, plist_at. split; [by rewrite length_insert|].
  intros i. destruct (decide (i = Z.to_nat ft)) as [->|Hne].
  - destruct (decide (Z.to_nat ft < length plist)) as [Hlt|Hge].
    + rewrite list_lookup_total_insert_eq by done.
      rewrite <- list_fmap_compose. apply list_fmap_ext. intros _ p _. simpl.
      destruct (Hbody p) as [-> ->]. done.
    + rewrite list_insert_ge; [done|]. apply Nat.nlt_ge. exact Hge.
  - by rewrite list_lookup_total_insert_ne.
Qed.

Lemma set_aux_params_length (ptr : list string) (c : list Q) :
  length (set_aux_params ptr c) = length c.
Proof. apply (set_aux_params_fold ptr 0 c). Qed.

(** X11.  [get_force_constants] changes coefficients only: the number of
    lists, and in every list the interactions, their order, their atoms and
    the number of their coefficients are as before. *)
Theorem get_force_constants_keeps_terms (pd : gmx_poldata_t) (plist : list t_params)
    (atoms : t_atoms) :
  length (get_force_constants pd plist atoms) = length plist ∧
  ∀ ft, map (fun p => (p_a p, length (p_c p))) (get_force_constants pd plist atoms !!! ft)
        = map (fun p => (p_a p, length (p_c p))) (plist !!! ft).
Proof.
  unfold get_force_constants.
  assert (Hb : ∀ p, p_a (bond_constants pd atoms p) = p_a p ∧
                    length (p_c (bond_constants pd atoms p)) = length (p_c p)).
  { intros p. unfold bond_constants.
    destruct (gmx_poldata_search_bond _ _ _) as [[found xx] params].
    destruct (0 <? found)%Z; [|done]. simpl.
    by rewrite set_aux_params_length, length_insert. }
  assert (Ha : ∀ p, p_a (angle_constants pd atoms p) = p_a p ∧
                    length (p_c (angle_constants pd atoms p)) = length (p_c p)).
  { intros p. unfold angle_constants.
    destruct (gmx_poldata_search_angle _ _ _ _) as [[found xx] params].
    destruct (0 <? found)%Z; [|done]. simpl.
    by rewrite set_aux_params_length, length_insert. }
  assert (Hd : ∀ k p, p_a (dihedral_constants pd k atoms p) = p_a p ∧
                      length (p_c (dihedral_constants pd k atoms p)) = length (p_c p)).
  { intros k p. unfold dihedral_constants.
    destruct (gmx_poldata_search_dihedral _ _ _ _ _ _) as [[found xx] params].
    destruct (0 <? found)%Z; [|done]. simpl.
    by rewrite set_aux_params_length, length_insert. }
  set (shape := fun pl : list t_params =>
         length pl = length plist ∧
         ∀ ft, map (fun p => (p_a p, length (p_c p))) (pl !!! ft)
               = map (fun p => (p_a p, length (p_c p))) (plist !!! ft)).
  assert (Hstep : ∀ pl ft body,
            (∀ p, p_a (body p) = p_a p ∧ length (p_c (body p)) = length (p_c p)) →
            shape pl → shape (for_params pl ft body)).
  { intros pl ft body Hbody [Hl Hs].
    destruct (for_params_shape pl ft body Hbody) as [Hl' Hs'].
    split; [congruence|]. intros i. by rewrite Hs', Hs. }
  change (shape (foldl (fun plist k =>
                   for_params plist (gmx_poldata_get_dihedral_ftype pd k)
                     (dihedral_constants pd k atoms))
                 (for_params (for_params plist (gmx_poldata_get_bond_ftype pd)
                                (bond_constants pd atoms))
                    (gmx_poldata_get_angle_ftype pd) (angle_constants pd atoms))
                 (seq 0 egdNR))).
  apply foldl_preserves.
  - apply Hstep; [done|]. apply Hstep; [done|]. by split.
  - intros pl k Hpl. by apply Hstep.
Qed.
End force_constant_slots.

(** ** The fatal errors of [UpdateIdef] *)

Lemma rfold_fatal_iff {A S} (body : S → A → result S) (P : A → Prop) (s : S) (l : list A) :
  (∀ s x, is_fatal (body s x) ↔ P x) →
  is_fatal (rfold body s l) ↔ ∃ x, x ∈ l ∧ P x.
Proof.
  intros Hbody. revert s. induction l as [|x l IH]; intros s; simpl.
  - split; [done|]. intros (x & Hx & _). by apply elem_of_nil in Hx.
  - setoid_rewrite elem_of_cons. specialize (Hbody s x).
    destruct (body s x) as [s'|msg]; simpl in *.
    + rewrite IH. split.
      * intros (y & Hy & HP). eauto.
      * intros (y & [->|Hy] & HP); [by apply Hbody in HP|eauto].
    + split; [|done]. intros _. exists x. split; [by left|by apply Hbody].
Qed.

Lemma is_fatal_bind {A B} (m : result A) (k : A → result B) (P Q : Prop) :
  (is_fatal m ↔ P) → (∀ x, is_fatal (k x) ↔ Q) →
  is_fatal (x ← m; k x) ↔ P ∨ Q.
Proof.
  intros Hm Hk. destruct m as [x|msg]; simpl in *.
  - rewrite Hk. tauto.
  - tauto.
Qed.

Section idef_fatal.
Context `{gmx_tables} `{gmx_strings}.

Lemma update_bonds_fatal (pd : gmx_poldata_t) (atoms : t_atoms) (il : list (list nat))
    (ip : list t_iparams) :
  is_fatal (update_bonds pd atoms il ip) ↔ bond_missing pd atoms il.
Proof.
  unfold update_bonds, bond_missing. apply rfold_fatal_iff. intros s i.
  unfold idef_btype.
  destruct (gmx_poldata_search_bond _ _ _) as [[gt value] params]. simpl.
  destruct (decide (gt ≠ 0%Z)); simpl; [tauto|].
  destruct (decide (gt = 0%Z)); tauto.
Qed.

Lemma update_angles_fatal (pd : gmx_poldata_t) (atoms : t_atoms) (il : list (list nat))
    (ip : list t_iparams) :
  is_fatal (update_angles pd atoms il ip) ↔ angle_missing pd atoms il.
Proof.
  unfold update_angles, angle_missing. apply rfold_fatal_iff. intros s i.
  unfold idef_btype.
  destruct (gmx_poldata_search_angle _ _ _ _) as [[gt value] params]. simpl.
  destruct (decide (gt ≠ 0%Z)); simpl; [tauto|].
  destruct (decide (gt = 0%Z)); tauto.
Qed.

Lemma update_pdihs_fatal (pd : gmx_poldata_t) (atoms : t_atoms) (il : list (list nat))
    (ip : list t_iparams) :
  is_fatal (update_pdihs pd atoms il ip) ↔ dihedral_missing pd egdPDIHS atoms il.
Proof.
  unfold update_pdihs, dihedral_missing. apply rfold_fatal_iff. intros s i.
  unfold idef_btype.
  destruct (gmx_poldata_search_dihedral _ _ _ _ _ _) as [[gt value] params]. simpl.
  destruct (decide (gt ≠ 0%Z)); simpl; [tauto|].
  destruct (decide (gt = 0%Z)); tauto.
Qed.

Lemma update_idihs_fatal (pd : gmx_poldata_t) (molname : string) (atoms : t_atoms)
    (il : list (list nat)) (ip : list t_iparams) :
  is_fatal (update_idihs pd molname atoms il ip) ↔ dihedral_missing pd egdIDIHS atoms il.
Proof.
  unfold update_idihs, dihedral_missing. apply rfold_fatal_iff. intros s i.
  unfold idef_btype.
  destruct (gmx_poldata_search_dihedral _ _ _ _ _ _) as [[gt value] params]. simpl.
  destruct (decide (gt ≠ 0%Z)); simpl; [tauto|].
  destruct (decide (gt = 0%Z)); tauto.
Qed.

(** X12.  [UpdateIdef] ends in a fatal error exactly when, for a kind of
    interaction that is to be updated (bonds, angles, proper or improper
    dihedrals), the local topology has an interaction of the function type
    of the store for which the search of the store by the bond types of
    its atoms returns 0.  A kind that is not updated is not searched. *)
Theorem UpdateIdef_fatal_iff (pd : gmx_poldata_t) (bOpt : opt_flags) (molname : string)
    (atoms : t_atoms) (il : list (list nat)) (ip : list t_iparams) :
  is_fatal (UpdateIdef pd bOpt molname atoms il ip) ↔
  (opt_bonds bOpt = true ∧ bond_missing pd atoms il) ∨
  (opt_angles bOpt = true ∧ angle_missing pd atoms il) ∨
  (opt_pdihs bOpt = true ∧ dihedral_missing pd egdPDIHS atoms il) ∨
  (opt_idihs bOpt = true ∧ dihedral_missing pd egdIDIHS atoms il).
Proof.
  unfold UpdateIdef.
  apply is_fatal_bind.
  { destruct (opt_bonds bOpt); [rewrite update_bonds_fatal|simpl]; naive_solver. }
  intros ip1. apply is_fatal_bind.
  { destruct (opt_angles bOpt); [rewrite update_angles_fatal|simpl]; naive_solver. }
  intros ip2. apply is_fatal_bind.
  { destruct (opt_pdihs bOpt); [rewrite update_pdihs_fatal|simpl]; naive_solver. }
  intros ip3.
  destruct (opt_idihs bOpt); [rewrite update_idihs_fatal|simpl]; naive_solver.
Qed.
End idef_fatal.

(** ** The layout of the interaction lists *)

(** An array made of pieces of one length [m]: piece [j] starts at [j * m]. *)
Lemma lookup_concat_uniform {A} (chunks : list (list A)) (m j o : nat) :
  Forall (fun c => length c = m) chunks → o < m →
  concat chunks !! (j * m + o) = chunks !! j ≫= (fun c => c !! o).
Proof.
  intros Hall Ho. revert j. induction Hall as [|c chunks Hc Hall IH]; intros j; simpl.
  - by rewrite !lookup_nil.
  - destruct j as [|j]; simpl.
    + by rewrite lookup_app_l by lia.
    + rewrite lookup_app_r by lia. rewrite <- IH. f_equal. lia.
Qed.

Lemma length_concat_uniform {A} (chunks : list (list A)) (m : nat) :
  Forall (fun c => length c = m) chunks → length (concat chunks) = length chunks * m.
Proof.
  induction 1 as [|c chunks Hc Hall IH]; simpl; [done|].
  rewrite length_app, IH. lia.
Qed.

Section ilist_layout.
Context `{gmx_tables}.
Variable enter_params :
  gmx_ffparams_t → nat → list Q → Z → Q → nat → bool → gmx_ffparams_t * nat.

Lemma enter_terms_layout (fudgeLJ : Q) (i : nat) (params : list t_param)
    (mtop : gmx_mtop_t) (n : nat) (acc : list nat) :
  let r := foldl (enter_term enter_params fudgeLJ i) (mtop, n, acc) params in
  moltype_ilist r.1.1 = moltype_ilist mtop ∧
  ∃ hs, length hs = length params ∧
        r.2 = acc ++ concat (zip_with (ilist_entry i) hs params).
Proof.
  revert mtop n acc. induction params as [|p params IH]; intros mtop n acc; cbn [foldl].
  - simpl. split; [done|]. exists []. by rewrite app_nil_r.
  - assert (Hstep : enter_term enter_params fudgeLJ i (mtop, n, acc) p
                    = let '(ff, n1) := enter_params (ffparams mtop) i
                                         (term_coeffs fudgeLJ mtop i p) 0%Z 12%Q n true in
                      (set_ffparams mtop ff, n1, acc ++ ilist_entry i n1 p))
      by reflexivity.
    rewrite Hstep. clear Hstep.
    destruct (enter_params _ _ _ _ _ _ _) as [ff n1].
    destruct (IH (set_ffparams mtop ff) n1 (acc ++ ilist_entry i n1 p))
      as [Hil (hs & Hlen & Hr)].
    split; [by rewrite Hil|].
    exists (n1 :: hs). split; [simpl; by rewrite Hlen|].
    rewrite Hr. cbn [zip_with concat].
    by rewrite <- app_assoc.
Qed.

Lemma ilist_entries_lookup (i : nat) (hs : list nat) (params : list t_param) (j l : nat) :
  length hs = length params → j < length params → l < NRAL i →
  concat (zip_with (ilist_entry i) hs params) !! (j * (1 + NRAL i) + 1 + l)
  = Some (p_a (params !!! j) !!! l).
Proof.
  intros Hlen Hj Hl.
  rewrite <- Nat.add_assoc.
  rewrite (lookup_concat_uniform _ (1 + NRAL i)).
  - destruct (lookup_lt_is_Some_2 hs j) as [h Hh]; [lia|].
    destruct (lookup_lt_is_Some_2 params j) as [p Hp]; [lia|].
    rewrite lookup_zip_with, Hh. simpl. rewrite Hp. simpl.
    rewrite (list_lookup_total_correct _ _ _ Hp).
    rewrite list_lookup_fmap, lookup_seq_lt by done. done.
  - apply Forall_forall. intros c Hc.
    apply elem_of_lookup_zip_with in Hc as (k & h & p & -> & _ & _).
    unfold ilist_entry. simpl. by rewrite length_map, length_seq.
  - lia.
Qed.

Lemma ilist_entries_length (i : nat) (hs : list nat) (params : list t_param) :
  length hs = length params →
  length (concat (zip_with (ilist_entry i) hs params)) = length params * (1 + NRAL i).
Proof.
  intros Hlen. rewrite (length_concat_uniform _ (1 + NRAL i)).
  - rewrite length_zip_with. lia.
  - apply Forall_forall. intros c Hc.
    apply elem_of_lookup_zip_with in Hc as (k & h & p & -> & _ & _).
    unfold ilist_entry. simpl. by rewrite length_map, length_seq.
Qed.

(** X9.  After [plist_to_mtop] the interaction list of a function type
    [i] is laid out as gromacs reads it: for each interaction of
    [plist_[i]], in their order, one entry for the index of its parameters
    followed by its [NRAL i] atoms; so the list has
    [(1 + NRAL i)] entries for each interaction and atom [l] of interaction
    [j] is at the position [j * (1 + NRAL i) + 1 + l].  What the list of
    the topology held before is dropped. *)
Theorem plist_to_mtop_ilist_layout (pd : gmx_poldata_t) (plist_ : list t_params)
    (mtop_ : gmx_mtop_t) (i : nat) :
  i < F_NRE → i < length (moltype_ilist mtop_) →
  let iatoms := moltype_ilist (plist_to_mtop enter_params pd plist_ mtop_) !!! i in
  length iatoms = length (plist_ !!! i) * (1 + NRAL i) ∧
  ∀ j l, j < length (plist_ !!! i) → l < NRAL i →
    iatoms !! (j * (1 + NRAL i) + 1 + l) = Some (p_a ((plist_ !!! i) !!! j) !!! l).
Proof.
  intros Hi Hlen iatoms. unfold iatoms, plist_to_mtop.
  set (fudgeLJ := gmx_poldata_get_fudgeLJ pd).
  match goal with |- context [foldl ?f ?s (seq 0 F_NRE)] =>
    pose proof (foldl_seq_invariant
      (fun k (st : gmx_mtop_t * nat) =>
         length (moltype_ilist st.1) = length (moltype_ilist mtop_) ∧
         ∀ i', i' < k → i' < length (moltype_ilist mtop_) →
           ∃ hs, length hs = length (plist_ !!! i') ∧
                 moltype_ilist st.1 !!! i'
                 = concat (zip_with (ilist_entry i') hs (plist_ !!! i')))
      f F_NRE s) as Hinv
  end.
  destruct Hinv as [Hl Hk].
  - simpl. split; [done|]. intros; lia.
  - intros k [mtop n] Hk [Hl Hprev]. simpl in *.
    pose proof (enter_terms_layout fudgeLJ k (plist_ !!! k) mtop n []) as Hin.
    destruct (foldl (enter_term enter_params fudgeLJ k) (mtop, n, []) (plist_ !!! k))
      as [[mtop' n'] ia]. simpl in Hin. destruct Hin as [Hil (hs & Hhs & Hia)].
    simpl. rewrite Hil, length_insert. split; [done|].
    intros i' Hi' Hlt. destruct (decide (i' = k)) as [->|Hne].
    + exists hs. split; [done|].
      rewrite list_lookup_total_insert_eq by lia. done.
    + rewrite list_lookup_total_insert_ne by done. apply Hprev; [lia|done].
  - destruct (Hk i Hi Hlen) as (hs & Hhs & Heq). rewrite Heq.
    split.
    + by apply ilist_entries_length.
    + intros j l Hj Hl'. by apply ilist_entries_lookup.
Qed.

End ilist_layout.

(** The one bond of [unset_bond_plist] between the atoms 0 and 1: three
    entries, the atoms at the positions 1 and 2. *)
Lemma plist_to_mtop_ilist_layout_witness :
  let iatoms :=
    moltype_ilist (plist_to_mtop (H := small_tables) append_params empty_poldata
                     unset_bond_plist
                     (do_init_mtop (H := small_tables) empty_poldata "mol" two_carbons))
      !!! 0 in
  length iatoms = 3 ∧ iatoms !! 1 = Some 0 ∧ iatoms !! 2 = Some 1.
Proof.
  destruct (plist_to_mtop_ilist_layout (H := small_tables) append_params empty_poldata
              unset_bond_plist
              (do_init_mtop (H := small_tables) empty_poldata "mol" two_carbons) 0)
    as [Hlen Hat].
  - simpl. lia.
  - simpl. lia.
  - split_and!.
    + exact Hlen.
    + apply (Hat 0 0); simpl; lia.
    + apply (Hat 0 1); simpl; lia.
Defined.

(** ** Moving the parameter lists *)

Section mv_lemmas.
Context `{gmx_tables}.

Lemma mv_plist_length (plist : list t_params) (dst src : nat) :
  length (mv_plist plist dst src) = length plist.
Proof. unfold mv_plist. by rewrite !length_insert. Qed.

Lemma mv_plist_lookup (plist : list t_params) (dst src k : nat) :
  dst < length plist → src < length plist →
  mv_plist plist dst src !! k
  = if decide (k = src) then Some []
    else if decide (k = dst) then Some (plist !!! src) else plist !! k.
Proof.
  intros Hd Hs. unfold mv_plist.
  destruct (decide (k = src)) as [->|Hks].
  - by rewrite list_lookup_insert_eq by (by rewrite length_insert).
  - rewrite list_lookup_insert_ne by done.
    destruct (decide (k = dst)) as [->|Hkd].
    + by rewrite list_lookup_insert_eq.
    + by rewrite list_lookup_insert_ne.
Qed.

Lemma mv_plist_total (plist : list t_params) (dst src k : nat) :
  dst < length plist → src < length plist →
  mv_plist plist dst src !!! k
  = if decide (k = src) then []
    else if decide (k = dst) then plist !!! src else plist !!! k.
Proof.
  intros Hd Hs. rewrite (list_lookup_total_alt (mv_plist _ _ _)), mv_plist_lookup by done.
  repeat case_decide; try done. by rewrite list_lookup_total_alt.
Qed.

(** Two moves between disjoint pairs of lists can be made in either order. *)
Lemma mv_plist_comm (plist : list t_params) (d1 s1 d2 s2 : nat) :
  d1 < length plist → s1 < length plist → d2 < length plist → s2 < length plist →
  d1 ≠ d2 → d1 ≠ s2 → s1 ≠ d2 → s1 ≠ s2 →
  mv_plist (mv_plist plist d1 s1) d2 s2 = mv_plist (mv_plist plist d2 s2) d1 s1.
Proof.
  intros. apply list_eq. intros k.
  rewrite !mv_plist_lookup by (rewrite ?mv_plist_length; done).
  rewrite !mv_plist_total by done.
  repeat case_decide; subst; done.
Qed.

(** A move back undoes a move into an empty list. *)
Lemma mv_plist_back (plist : list t_params) (dst src : nat) :
  dst < length plist → src < length plist → dst ≠ src → plist !!! dst = [] →
  mv_plist (mv_plist plist dst src) src dst = plist.
Proof.
  intros Hd Hs Hne Hempty. apply list_eq. intros k.
  rewrite !mv_plist_lookup by (rewrite ?mv_plist_length; done).
  rewrite !mv_plist_total by done.
  repeat case_decide; subst; try done.
  - rewrite <- Hempty. symmetry. by apply list_lookup_lookup_total_lt.
  - symmetry. by apply list_lookup_lookup_total_lt.
Qed.

Lemma mv_one_length (plist : list t_params) (ft : Z) (F : nat) (fw : bool) :
  length (mv_one plist ft F fw) = length plist.
Proof.
  unfold mv_one. case_decide; [|done]. destruct fw; apply mv_plist_length.
Qed.

Lemma mv_one_comm (plist : list t_params) (ft1 ft2 : Z) (F1 F2 : nat) (fw1 fw2 : bool) :
  movable plist ft1 F1 → movable plist ft2 F2 →
  Z.to_nat ft1 ≠ Z.to_nat ft2 → Z.to_nat ft1 ≠ F2 → F1 ≠ Z.to_nat ft2 → F1 ≠ F2 →
  mv_one (mv_one plist ft1 F1 fw1) ft2 F2 fw2 = mv_one (mv_one plist ft2 F2 fw2) ft1 F1 fw1.
Proof.
  intros (? & ? & ?) (? & ? & ?) ????. unfold mv_one.
  repeat case_decide; try done.
  destruct fw1, fw2; apply mv_plist_comm; done.
Qed.

Lemma mv_one_back (plist : list t_params) (ft : Z) (F : nat) :
  movable plist ft F → (ft ≠ Z.of_nat F → plist !!! Z.to_nat ft = []) →
  mv_one (mv_one plist ft F true) ft F false = plist.
Proof.
  intros (? & ? & ?) Hempty. unfold mv_one. case_decide as Hne; [|done].
  apply mv_plist_back; try done; [lia|]. apply Hempty. congruence.
Qed.

Lemma mv_one_movable (plist : list t_params) (ft ft' : Z) (F F' : nat) (fw : bool) :
  movable plist ft F → movable (mv_one plist ft' F' fw) ft F.
Proof. unfold movable. by rewrite mv_one_length. Qed.

Lemma mv_one_other (plist : list t_params) (ft : Z) (F : nat) (fw : bool) (k : nat) :
  movable plist ft F → k ≠ Z.to_nat ft → k ≠ F →
  mv_one plist ft F fw !!! k = plist !!! k.
Proof.
  intros (? & ? & ?) ??. unfold mv_one. case_decide; [|done].
  destruct fw; rewrite mv_plist_total by done; repeat case_decide; done.
Qed.

Lemma mv_one_forward (plist : list t_params) (ft : Z) (F : nat) :
  movable plist ft F → mv_one plist ft F true !!! Z.to_nat ft = plist !!! F.
Proof.
  intros (? & ? & ?). unfold mv_one. case_decide as Hne.
  - rewrite mv_plist_total by done. repeat case_decide; try done. lia.
  - f_equal. lia.
Qed.
End mv_lemmas.

Lemma Z2Nat_inj_ne (a b : Z) : (0 ≤ a)%Z → (0 ≤ b)%Z → a ≠ b → Z.to_nat a ≠ Z.to_nat b.
Proof. lia. Qed.

Lemma NoDup_four {A : Type} (a b c d : A) :
  NoDup [a; b; c; d] → a ≠ b ∧ a ≠ c ∧ a ≠ d ∧ b ≠ c ∧ b ≠ d ∧ c ≠ d.
Proof.
  rewrite !NoDup_cons, !not_elem_of_cons.
  intros ((?&?&?&_) & (?&?&_) & (?&_) & _). done.
Qed.

(** X6.  [mv_plists] forward and then backward gives back the lists it
    started from.  The four function types of the store are set, distinct
    and in the range of [plist], as are the standard types [F_BONDS],
    [F_ANGLES], [F_PDIHS], [F_IDIHS]; the type of the store for one kind
    is not the standard type of another kind; and where the type of the
    store differs from the standard type, its list is empty before the
    move.  Then the forward call does not fail, the list of each type of
    the store holds afterwards what the standard list of its kind held,
    and the backward call returns [plist]. *)
Theorem mv_plists_round_trip `{gmx_tables} (pd : gmx_poldata_t) (plist : list t_params) :
  let fts := [gmx_poldata_get_bond_ftype pd; gmx_poldata_get_angle_ftype pd;
              gmx_poldata_get_dihedral_ftype pd egdPDIHS;
              gmx_poldata_get_dihedral_ftype pd egdIDIHS] in
  let Fs := [F_BONDS; F_ANGLES; F_PDIHS; F_IDIHS] in
  Forall (fun ft => NOTSET ≠ ft ∧ (0 ≤ ft)%Z ∧ Z.to_nat ft < length plist) fts →
  Forall (fun F => F < length plist) Fs →
  NoDup Fs → NoDup fts →
  (∀ i j ft F, fts !! i = Some ft → Fs !! j = Some F → ft = Z.of_nat F → i = j) →
  (∀ i ft F, fts !! i = Some ft → Fs !! i = Some F → ft ≠ Z.of_nat F →
             plist !!! Z.to_nat ft = []) →
  ∃ moved,
    mv_plists pd plist true = Ok moved ∧
    (∀ i ft F, fts !! i = Some ft → Fs !! i = Some F →
               moved !!! Z.to_nat ft = plist !!! F) ∧
    mv_plists pd moved false = Ok plist.
Proof.
  intros fts Fs Hfts HFs HndF Hndf Hcross Hempty.
  set (fb := gmx_poldata_get_bond_ftype pd) in *.
  set (fa := gmx_poldata_get_angle_ftype pd) in *.
  set (fp := gmx_poldata_get_dihedral_ftype pd egdPDIHS) in *.
  set (fi := gmx_poldata_get_dihedral_ftype pd egdIDIHS) in *.
  apply Forall_cons in Hfts as [(Hb1 & Hb2 & Hb3) Hfts].
  apply Forall_cons in Hfts as [(Ha1 & Ha2 & Ha3) Hfts].
  apply Forall_cons in Hfts as [(Hp1 & Hp2 & Hp3) Hfts].
  apply Forall_cons in Hfts as [(Hi1 & Hi2 & Hi3) _].
  apply Forall_cons in HFs as [HB HFs]. apply Forall_cons in HFs as [HA HFs].
  apply Forall_cons in HFs as [HP HFs]. apply Forall_cons in HFs as [HI _].
  assert (HdF : F_BONDS ≠ F_ANGLES ∧ F_BONDS ≠ F_PDIHS ∧ F_BONDS ≠ F_IDIHS ∧
                F_ANGLES ≠ F_PDIHS ∧ F_ANGLES ≠ F_IDIHS ∧ F_PDIHS ≠ F_IDIHS).
  { exact (NoDup_four _ _ _ _ HndF). }
  assert (Hdf : Z.to_nat fb ≠ Z.to_nat fa ∧ Z.to_nat fb ≠ Z.to_nat fp ∧
                Z.to_nat fb ≠ Z.to_nat fi ∧ Z.to_nat fa ≠ Z.to_nat fp ∧
                Z.to_nat fa ≠ Z.to_nat fi ∧ Z.to_nat fp ≠ Z.to_nat fi).
  { destruct (NoDup_four _ _ _ _ Hndf) as (?&?&?&?&?&?).
    split_and!; by apply Z2Nat_inj_ne. }
  assert (Hx : ∀ i j ft F, fts !! i = Some ft → Fs !! j = Some F → i ≠ j →
                           (0 ≤ ft)%Z → Z.to_nat ft ≠ F).
  { intros i j ft F Hi Hj Hij Hnn Heq. apply Hij, (Hcross i j ft F Hi Hj).
    rewrite <- Heq. by rewrite Z2Nat.id. }
  assert (Hba : Z.to_nat fb ≠ F_ANGLES) by (by apply (Hx 0 1 fb F_ANGLES)).
  assert (Hbp : Z.to_nat fb ≠ F_PDIHS) by (by apply (Hx 0 2 fb F_PDIHS)).
  assert (Hbi : Z.to_nat fb ≠ F_IDIHS) by (by apply (Hx 0 3 fb F_IDIHS)).
  assert (Hab : Z.to_nat fa ≠ F_BONDS) by (by apply (Hx 1 0 fa F_BONDS)).
  assert (Hap : Z.to_nat fa ≠ F_PDIHS) by (by apply (Hx 1 2 fa F_PDIHS)).
  assert (Hai : Z.to_nat fa ≠ F_IDIHS) by (by apply (Hx 1 3 fa F_IDIHS)).
  assert (Hpb : Z.to_nat fp ≠ F_BONDS) by (by apply (Hx 2 0 fp F_BONDS)).
  assert (Hpa : Z.to_nat fp ≠ F_ANGLES) by (by apply (Hx 2 1 fp F_ANGLES)).
  assert (Hpi : Z.to_nat fp ≠ F_IDIHS) by (by apply (Hx 2 3 fp F_IDIHS)).
  assert (Hib : Z.to_nat fi ≠ F_BONDS) by (by apply (Hx 3 0 fi F_BONDS)).
  assert (Hia : Z.to_nat fi ≠ F_ANGLES) by (by apply (Hx 3 1 fi F_ANGLES)).
  assert (Hip : Z.to_nat fi ≠ F_PDIHS) by (by apply (Hx 3 2 fi F_PDIHS)).
  clear Hx Hcross. destruct HdF as (?&?&?&?&?&?). destruct Hdf as (?&?&?&?&?&?).
  assert (Mb : movable plist fb F_BONDS) by done.
  assert (Ma : movable plist fa F_ANGLES) by done.
  assert (Mp : movable plist fp F_PDIHS) by done.
  assert (Mi : movable plist fi F_IDIHS) by done.
  pose proof (Hempty 0 fb F_BONDS eq_refl eq_refl) as Eb.
  pose proof (Hempty 1 fa F_ANGLES eq_refl eq_refl) as Ea.
  pose proof (Hempty 2 fp F_PDIHS eq_refl eq_refl) as Ep.
  pose proof (Hempty 3 fi F_IDIHS eq_refl eq_refl) as Ei.
  clear Hempty.
  set (m1 := mv_one plist fb F_BONDS true).
  set (m2 := mv_one m1 fa F_ANGLES true).
  set (m3 := mv_one m2 fp F_PDIHS true).
  set (m4 := mv_one m3 fi F_IDIHS true).
  exists m4. split_and!.
  - unfold mv_plists. fold fb fa fp fi. by rewrite !decide_False by done.
  - intros i ft F Hft HF.
    destruct i as [|[|[|[|i]]]]; simpl in Hft, HF; simplify_eq.
    + unfold m4, m3, m2. rewrite !mv_one_other by (repeat apply mv_one_movable; done).
      by apply mv_one_forward.
    + unfold m4, m3. rewrite !mv_one_other by (repeat apply mv_one_movable; done).
      unfold m2. rewrite mv_one_forward by (by apply mv_one_movable).
      unfold m1. by rewrite mv_one_other.
    + unfold m4. rewrite !mv_one_other by (repeat apply mv_one_movable; done).
      unfold m3. rewrite mv_one_forward by (by repeat apply mv_one_movable).
      unfold m2, m1. by rewrite !mv_one_other by (repeat apply mv_one_movable; done).
    + unfold m4. rewrite mv_one_forward by (by repeat apply mv_one_movable).
      unfold m3, m2, m1.
      by rewrite !mv_one_other by (repeat apply mv_one_movable; done).
  - unfold mv_plists. fold fb fa fp fi. rewrite !decide_False by done. f_equal.
    unfold m4, m3, m2, m1.
    (* the move back of the bonds passes the three later moves *)
    rewrite (mv_one_comm _ fi fb) by (repeat apply mv_one_movable; done).
    rewrite (mv_one_comm _ fp fb) by (repeat apply mv_one_movable; done).
    rewrite (mv_one_comm _ fa fb) by (repeat apply mv_one_movable; done).
    rewrite (mv_one_back plist fb) by done.
    rewrite (mv_one_comm _ fi fa) by (repeat apply mv_one_movable; done).
    rewrite (mv_one_comm _ fp fa) by (repeat apply mv_one_movable; done).
    rewrite (mv_one_back plist fa) by done.
    rewrite (mv_one_comm _ fi fp) by (repeat apply mv_one_movable; done).
    rewrite (mv_one_back plist fp) by done.
    by rewrite (mv_one_back plist fi).
Qed.

(** With the bonds of the store at the function type 6, the bond of
    [unset_bond_plist] moves from list 0 to list 6 and back. *)
Lemma mv_plists_round_trip_witness :
  ∃ moved,
    mv_plists (H := small_tables) shifted_poldata unset_bond_plist true = Ok moved ∧
    moved !!! 6 = [unset_bond] ∧
    mv_plists (H := small_tables) shifted_poldata moved false = Ok unset_bond_plist.
Proof.
  destruct (mv_plists_round_trip (H := small_tables) shifted_poldata unset_bond_plist)
    as (moved & Hfw & Hat & Hbw).
  - repeat constructor; simpl; (discriminate || lia).
  - repeat constructor; simpl; lia.
  - apply NoDup_ListNoDup. repeat constructor; simpl; intros Hin; intuition discriminate.
  - apply NoDup_ListNoDup. repeat constructor; simpl; intros Hin; intuition discriminate.
  - intros [|[|[|[|i]]]] [|[|[|[|j]]]] ft F Hft HF Heq; simpl in *; simplify_eq; done.
  - intros [|[|[|[|i]]]] ft F Hft HF Hne; simpl in *; simplify_eq; done.
  - exists moved. split_and!; [done| |done]. apply (Hat 0 6%Z 0); done.
Defined.

(** ** The atoms of a calculation *)

Section atoms_lemmas.
Context `{gmx_tables} `{gmx_strings} `{gmx_atomtypes} `{gmx_molprop}.

Lemma read_atoms_ok (iModel : Z) (catoms : list CalcAtom) (atoms : t_atoms) (x : list rvec) :
  Forall (fun cai => string2unit (ca_unit cai) ≠ (-1)%Z) catoms →
  rfold (fun (st : t_atoms * list rvec) cai =>
          let '(atoms, x) := st in
          let myunit := string2unit (ca_unit cai) in
          if decide (myunit = (-1)%Z) then Fatal "Unknown unit for atom coords"
          else
            let '(xx, yy, zz) := ca_coords cai in
            let q := model_charge iModel (ca_charges cai) in
            let mass := (gmx_atomprop_query_mass "???" (ca_name cai) 0%Q).2 in
            let a := mk_atom mass q mass q 0 0 0 0 (gmx_atomprop_atomnumber (ca_name cai)) in
            Ok (mk_atoms (atom atoms ++ [a]) (atomname atoms ++ [ca_name cai])
                         (atomtype atoms ++ [ca_obtype cai])
                         (atomtypeB atoms ++ [ca_obtype cai]),
                x ++ [(convert2gmx xx myunit, convert2gmx yy myunit,
                       convert2gmx zz myunit)]))
        (atoms, x) catoms
  = Ok (mk_atoms (atom atoms ++ map (calc_atom iModel) catoms)
                 (atomname atoms ++ map ca_name catoms)
                 (atomtype atoms ++ map ca_obtype catoms)
                 (atomtypeB atoms ++ map ca_obtype catoms),
        x ++ map calc_coords catoms).
Proof.
  intros Hunits. revert atoms x.
  induction Hunits as [|cai catoms Hu Hunits IH]; intros atoms x; cbn [rfold].
  - simpl. rewrite !app_nil_r. by destruct atoms.
  - rewrite decide_False by done.
    destruct (ca_coords cai) as [[xx yy] zz] eqn:Hc. cbn [mbind result_bind].
    rewrite IH. cbn [atom atomname atomtype atomtypeB map].
    rewrite <- !app_assoc. unfold calc_coords at 2. rewrite Hc. done.
Qed.

Lemma read_atoms_fatal (iModel : Z) (catoms : list CalcAtom) (st : t_atoms * list rvec) :
  Exists (fun cai => string2unit (ca_unit cai) = (-1)%Z) catoms →
  is_fatal
    (rfold (fun (st : t_atoms * list rvec) cai =>
          let '(atoms, x) := st in
          let myunit := string2unit (ca_unit cai) in
          if decide (myunit = (-1)%Z) then Fatal "Unknown unit for atom coords"
          else
            let '(xx, yy, zz) := ca_coords cai in
            let q := model_charge iModel (ca_charges cai) in
            let mass := (gmx_atomprop_query_mass "???" (ca_name cai) 0%Q).2 in
            let a := mk_atom mass q mass q 0 0 0 0 (gmx_atomprop_atomnumber (ca_name cai)) in
            Ok (mk_atoms (atom atoms ++ [a]) (atomname atoms ++ [ca_name cai])
                         (atomtype atoms ++ [ca_obtype cai])
                         (atomtypeB atoms ++ [ca_obtype cai]),
                x ++ [(convert2gmx xx myunit, convert2gmx yy myunit,
                       convert2gmx zz myunit)]))
        st catoms).
Proof.
  intros Hex. revert st.
  induction catoms as [|cai catoms IH]; intros [atoms x]; [by apply Exists_nil in Hex|].
  cbn [rfold].
  destruct (decide (string2unit (ca_unit cai) = (-1)%Z)) as [Hu|Hu]; [done|].
  apply Exists_cons in Hex as [Hex|Hex]; [done|].
  destruct (ca_coords cai) as [[xx yy] zz]. cbn [mbind result_bind]. by apply IH.
Qed.

(** The loop that enters the types of the atoms changes the type fields
    only. *)
Lemma type_atoms_same (names : list string) (nb : t_param) (atype : gpp_atomtype_t)
    (al : list t_atom) (l : list nat) :
  let r := foldl (fun (st : gpp_atomtype_t * list t_atom) i =>
                    let '(atype, al) := st in
                    let a := al !!! i in
                    let '(atype, tp) := add_atomtype atype a (names !!! i) nb in
                    (atype, <[i := mk_atom (atom_m a) (atom_q a) (atom_mB a) (atom_qB a)
                                      tp tp (atom_ptype a) (atom_resind a)
                                      (atom_atomnumber a)]> al))
                 (atype, al) l in
  length r.2 = length al ∧ ∀ i, same_but_type (r.2 !!! i) (al !!! i).
Proof.
  revert atype al. induction l as [|k l IH]; intros atype al; cbn [foldl].
  - simpl. done.
  - destruct (add_atomtype atype (al !!! k) (names !!! k) nb) as [atype' tp].
    match goal with |- context [foldl _ (atype', ?al') l] =>
      destruct (IH atype' al') as [Hl Hs] end.
    rewrite length_insert in Hl. split; [done|]. intros i.
    destruct (Hs i) as (?&?&?&?&?&?&?).
    destruct (decide (i = k)) as [->|Hne].
    + destruct (decide (k < length al)) as [Hlt|Hge].
      * rewrite list_lookup_total_insert_eq in * by done. simpl in *. done.
      * rewrite list_insert_ge in * by lia. done.
    + rewrite list_lookup_total_insert_ne in * by done. done.
Qed.

(** X13.  When the molecule has a calculation at the level of theory
    [lot], [GenerateAtoms] fails with a fatal error if an atom of the
    calculation has a unit of length that [string2unit] does not know;
    otherwise it returns [immOK] and the topology has one atom for each
    atom of the calculation, in their order, with its name, with its type
    name in both states, with its coordinates converted to the units of
    gromacs, with the charge of the requested model, with the atomic number
    of the atom properties and, as its mass in both states, with the value
    that [gmx_atomprop_query] leaves in [mass], whether the query reports
    the mass as found or not. *)
Theorem GenerateAtoms_calculation (lot : string) (iModel : Z) (mol : MyMol)
    (catoms : list CalcAtom) :
  GetLot (molprop mol) lot = Some catoms →
  (Exists (fun cai => string2unit (ca_unit cai) = (-1)%Z) catoms →
   is_fatal (GenerateAtoms lot iModel mol)) ∧
  (Forall (fun cai => string2unit (ca_unit cai) ≠ (-1)%Z) catoms →
   ∃ mol', GenerateAtoms lot iModel mol = Ok (immOK, mol') ∧
     atoms_nr (topology_atoms mol') = length catoms ∧
     atomname (topology_atoms mol') = map ca_name catoms ∧
     atomtype (topology_atoms mol') = map ca_obtype catoms ∧
     atomtypeB (topology_atoms mol') = map ca_obtype catoms ∧
     x_ mol' = map calc_coords catoms ∧
     ∀ i cai, catoms !! i = Some cai →
       same_but_type (atom (topology_atoms mol') !!! i) (calc_atom iModel cai)).
Proof.
  intros Hlot. unfold GenerateAtoms. rewrite Hlot. split.
  - intros Hex.
    pose proof (read_atoms_fatal iModel catoms (mk_atoms [] [] [] [], []) Hex) as Hf.
    destruct (rfold _ _ catoms) as [[atoms x]|msg]; [done|]. done.
  - intros Hunits.
    pose proof (read_atoms_ok iModel catoms (mk_atoms [] [] [] []) [] Hunits) as Hok.
    destruct (rfold _ _ catoms) as [[atoms x]|msg]; [|done].
    injection Hok as -> ->.
    cbn [mbind result_bind atom atomname atomtype atomtypeB app].
    match goal with |- context [foldl ?f (?a, ?al) ?l] =>
      pose proof (type_atoms_same (map ca_obtype catoms)
                    (mk_param (replicate 6 0) (replicate MAXFORCEPARAM 0%Q)) a al l)
        as Hty;
      destruct (foldl f (a, al) l) as [atype atom'] end.
    simpl in Hty. destruct Hty as [Hlen Hsame]. rewrite length_map in Hlen.
    eexists. split; [reflexivity|]. cbn [topology_atoms set_atoms x_ atomname atomtype
                                           atomtypeB atom atoms_nr].
    split_and!; try done.
    intros i cai Hi. specialize (Hsame i).
    rewrite (list_lookup_total_correct (map (calc_atom iModel) catoms) i
               (calc_atom iModel cai)) in Hsame; [done|].
    by rewrite list_lookup_fmap, Hi.
Qed.

End atoms_lemmas.

(** The molecule of one carbon atom, computed at the level "B3LYP" with
    coordinates in nm. *)
Lemma GenerateAtoms_calculation_witness :
  ∃ mol',
    GenerateAtoms (H := small_tables) (H0 := plain_strings) "B3LYP" 0 (new_mymol lone_carbon)
    = Ok (immOK, mol') ∧
    atoms_nr (topology_atoms mol') = 1 ∧ x_ mol' = [(0, 0, 0)%Q].
Proof.
  destruct (GenerateAtoms_calculation (H := small_tables) (H0 := plain_strings)
              "B3LYP" 0 (new_mymol lone_carbon)
              [mk_calcatom "C" "c3" "nm" (0, 0, 0)%Q [mk_charge "ESP" "e" 1%Q]])
    as [_ Hok].
  - reflexivity.
  - destruct Hok as (mol' & Hgen & Hnr & _ & _ & _ & Hx & _).
    + repeat constructor. vm_compute. discriminate.
    + exists mol'. split_and!; [exact Hgen|exact Hnr|]. rewrite Hx. vm_compute. reflexivity.
Defined.

(** ** Shells: the numbering of the atoms *)

Section shell_numbering_lemmas.
Context `{gmx_tables}.
Variables (pd : gmx_poldata_t) (atoms : t_atoms).

Lemma shells_before_S (k : nat) :
  shells_before pd atoms (S k)
  = shells_before pd atoms k + (if polarizable pd atoms k then 1 else 0).
Proof.
  unfold shells_before. rewrite seq_S, filter_app, length_app. simpl.
  rewrite filter_cons. destruct (polarizable pd atoms k).
  - by rewrite decide_True.
  - by rewrite decide_False.
Qed.

Lemma new_index_S (k : nat) :
  new_index pd atoms (S k)
  = new_index pd atoms k + 1 + (if polarizable pd atoms k then 1 else 0).
Proof. unfold new_index. rewrite shells_before_S. lia. Qed.

Lemma new_index_lt (i j : nat) :
  i < j →
  new_index pd atoms i + (if polarizable pd atoms i then 1 else 0) < new_index pd atoms j.
Proof.
  induction 1 as [|j Hij IH].
  - rewrite new_index_S. lia.
  - rewrite new_index_S. lia.
Qed.

Lemma new_index_inj (i j : nat) :
  new_index pd atoms i = new_index pd atoms j → i = j.
Proof.
  intros Heq. destruct (Nat.lt_trichotomy i j) as [Hlt|[->|Hlt]]; [|done|].
  - pose proof (new_index_lt _ _ Hlt). lia.
  - pose proof (new_index_lt _ _ Hlt). lia.
Qed.

(** What the first loop of [AddShells] computes. *)
Lemma shell_renum_spec (pol0 : t_params) ns renum p pol :
  shell_renum pd atoms pol0 = (ns, renum, p, pol) →
  ns = shells_before pd atoms (atoms_nr atoms) ∧
  length renum = atoms_nr atoms * 2 + 2 ∧
  (∀ i, i ≤ atoms_nr atoms → renum !!! i = new_index pd atoms i) ∧
  pol = pol0 ++ map (shell_param pd atoms)
                    (filter (fun i => polarizable pd atoms i = true)
                            (seq 0 (atoms_nr atoms))).
Proof.
  unfold shell_renum. set (nr := atoms_nr atoms).
  match goal with |- context [foldl ?f ?s (seq 0 nr)] =>
    pose proof (foldl_seq_invariant
      (fun k (st : nat * list nat * t_param * t_params) =>
         st.1.1.1 = shells_before pd atoms k ∧
         length st.1.1.2 = nr * 2 + 2 ∧
         (∀ i, i < k → st.1.1.2 !!! i = new_index pd atoms i) ∧
         (∃ a b v, st.1.2 = mk_param (a :: b :: replicate 4 0)
                              (<[0 := v]> (replicate MAXFORCEPARAM 0%Q))) ∧
         st.2 = pol0 ++ map (shell_param pd atoms)
                            (filter (fun i => polarizable pd atoms i = true) (seq 0 k)))
      f nr s) as Hinv
  end.
  destruct (foldl _ _ (seq 0 nr)) as [[[ns' renum'] p'] pol'].
  intros [= <- <- <- <-].
  destruct Hinv as (Hns & Hlen & Hre & _ & Hpol).
  - simpl. rewrite length_replicate, app_nil_r. split_and!; try done.
    + intros; lia.
    + exists 0, 0, 0%Q. unfold zero_param. f_equal. symmetry. apply insert_replicate.
  - intros k [[[ns1 renum1] p1] pol1] Hk (Hns & Hlen & Hre & (a & b & v & Hp) & Hpol).
    cbn [fst snd] in *. subst ns1 p1 pol1.
    assert (Hre' : ∀ i, i < S k →
              <[k := k + shells_before pd atoms k]> renum1 !!! i = new_index pd atoms i).
    { intros i Hi. destruct (decide (i = k)) as [->|Hne].
      - by rewrite list_lookup_total_insert_eq by lia.
      - rewrite list_lookup_total_insert_ne by done. apply Hre. lia. }
    rewrite shells_before_S, seq_S, filter_app, map_app. cbn [filter].
    change (0 + k) with k.
    rewrite filter_cons, filter_nil.
    assert (Hpolk : polarizable pd atoms k
                    = bool_decide (is_Some (gmx_poldata_get_atype_pol pd (atomtype atoms !!! k))))
      by done.
    destruct (gmx_poldata_get_atype_pol pd (atomtype atoms !!! k)) as [[polv sigpol]|]
      eqn:Hget; cbn [fst snd].
    + rewrite bool_decide_eq_true_2 in Hpolk by eauto. rewrite Hpolk.
      rewrite decide_True by done.
      rewrite length_insert. split_and!; try done; [lia| |].
      * eexists _, _, _. cbn. rewrite list_insert_insert_eq. reflexivity.
      * rewrite <- app_assoc. do 2 f_equal. cbn [map app]. unfold shell_param. rewrite Hget.
        rewrite list_lookup_total_insert_eq by lia.
        cbn. rewrite list_insert_insert_eq. done.
    + rewrite bool_decide_eq_false_2 in Hpolk by (by intros [? ?]). rewrite Hpolk.
      rewrite decide_False by done.
      rewrite length_insert, app_nil_r, Nat.add_0_r. split_and!; try done. eauto.
  - cbn [fst snd] in *. rewrite length_insert. split_and!; try done.
    intros i Hi. destruct (decide (i = nr)) as [->|Hne].
    + rewrite list_lookup_total_insert_eq by lia. unfold new_index. fold nr. by rewrite Hns.
    + rewrite list_lookup_total_insert_ne by done. apply Hre. lia.
Qed.
End shell_numbering_lemmas.

(** ** Shells: the loops over the atoms *)

Section shell_loop_lemmas.
Context `{gmx_tables} `{gmx_atomtypes} `{gmx_molprop}.
Variables (pd : gmx_poldata_t) (atoms : t_atoms) (x : list rvec) (p : t_param).
Variable renum : list nat.
Hypothesis Hre : ∀ i, i ≤ atoms_nr atoms → renum !!! i = new_index pd atoms i.

Lemma shells_of_spec (i : nat) :
  i < atoms_nr atoms →
  shells_of renum i
  = if polarizable pd atoms i then [new_index pd atoms i + 1] else [].
Proof using Hre.
  intros Hi. unfold shells_of.
  replace (i + 1) with (S i) by lia.
  rewrite !Hre by lia. rewrite new_index_S.
  destruct (polarizable pd atoms i).
  - replace (_ - _) with 1 by lia. done.
  - replace (_ - _) with 0 by lia. done.
Qed.

Lemma copy_loop_spec (sa : shell_atoms) :
  new_index pd atoms (atoms_nr atoms) ≤ length (atom (newa sa)) →
  let sa' := foldl (copy_atom atoms x renum) sa (seq 0 (atoms_nr atoms)) in
  length (atom (newa sa')) = length (atom (newa sa)) ∧
  ∀ i, i < atoms_nr atoms → atom (newa sa') !! new_index pd atoms i = Some (atom atoms !!! i).
Proof using Hre.
  intros Hlen sa'. unfold sa'.
  apply (foldl_seq_invariant
           (fun k sa' => length (atom (newa sa')) = length (atom (newa sa)) ∧
                         ∀ i, i < k → atom (newa sa') !! new_index pd atoms i
                                      = Some (atom atoms !!! i))).
  - split; [done|]. intros; lia.
  - intros k sa1 Hk [Hl Hprev]. unfold copy_atom. cbn [newa atom].
    rewrite length_insert, Hre by lia. split; [done|]. intros i Hi.
    destruct (decide (i = k)) as [->|Hne].
    + apply list_lookup_insert_eq.
      pose proof (new_index_lt pd atoms k (atoms_nr atoms) Hk). lia.
    + rewrite list_lookup_insert_ne.
      * apply Hprev. lia.
      * intros Heq. by apply new_index_inj in Heq.
Qed.

Lemma make_shell_spec (i iat j : nat) (sa : shell_atoms) :
  iat ≠ j → iat < length (atom (newa sa)) → j < length (atom (newa sa)) →
  let al := atom (newa sa) in
  let al' := atom (newa (make_shell atoms x p i iat sa j)) in
  length al' = length al ∧
  al' !! iat = Some (set_charge (al !!! iat) 0 0) ∧
  (∃ sh, al' !! j = Some sh ∧ is_shell_of (atom atoms !!! i) sh) ∧
  ∀ k, k ≠ iat → k ≠ j → al' !! k = al !! k.
Proof.
  intros Hne Hiat Hj al al'. unfold al', make_shell.
  destruct (add_atomtype _ _ _ _) as [atype shell]. cbn [newa atom]. fold al.
  rewrite !length_insert. split_and!.
  - done.
  - rewrite list_lookup_insert_ne by done.
    rewrite list_lookup_insert_eq by (by rewrite length_insert).
    by rewrite list_lookup_total_insert_ne by done.
  - eexists. split.
    + apply list_lookup_insert_eq. by rewrite !length_insert.
    + rewrite list_lookup_total_insert_ne by done.
      rewrite list_lookup_total_insert_eq by done. done.
  - intros k Hk1 Hk2. by rewrite !list_lookup_insert_ne by done.
Qed.

Lemma shell_loop_spec (sa : shell_atoms) :
  length (atom (newa sa)) = new_index pd atoms (atoms_nr atoms) →
  (∀ i, i < atoms_nr atoms → atom (newa sa) !! new_index pd atoms i = Some (atom atoms !!! i)) →
  shells_made pd atoms (atom (newa sa)) (atoms_nr atoms)
    (atom (newa (foldl (shell_loop_atoms atoms x p renum) sa (seq 0 (atoms_nr atoms))))).
Proof using Hre.
  intros Hlen Hcopy.
  apply (foldl_seq_invariant
           (fun k sa' => shells_made pd atoms (atom (newa sa)) k (atom (newa sa')))).
  - split_and!; [done| |intros; lia].
    intros i Hi. rewrite bool_decide_eq_false_2 by lia. by apply Hcopy.
  - intros k sa1 Hk (Hl & Hcore & Hsh). unfold shell_loop_atoms.
    rewrite shells_of_spec by done. rewrite Hre by lia.
    destruct (polarizable pd atoms k) eqn:Hpol; cbn [foldl].
    + pose proof (new_index_lt pd atoms k (atoms_nr atoms) Hk) as Hbound.
      rewrite Hpol in Hbound.
      destruct (make_shell_spec k (new_index pd atoms k) (new_index pd atoms k + 1) sa1)
        as (Hl' & Hiat & (sh & Hj & Hshell) & Hother); [lia..|].
      split_and!.
      * congruence.
      * intros i Hi. destruct (decide (i = k)) as [->|Hne].
        -- rewrite Hiat, Hpol, bool_decide_eq_true_2 by lia. cbn [andb].
           do 2 f_equal. apply list_lookup_total_correct.
           rewrite (Hcore k Hk), bool_decide_eq_false_2 by lia. done.
        -- rewrite Hother.
           ++ rewrite (Hcore i Hi).
              by rewrite (bool_decide_ext (i < S k) (i < k)) by lia.
           ++ intros Heq. by apply new_index_inj in Heq.
           ++ destruct (Nat.lt_trichotomy i k) as [Hlt|[?|Hlt]]; [|done|].
              ** pose proof (new_index_lt pd atoms i k Hlt). lia.
              ** pose proof (new_index_lt pd atoms k i Hlt). rewrite Hpol in *. lia.
      * intros i Hi Hpi. destruct (decide (i = k)) as [->|Hne].
        -- eauto.
        -- assert (Hlt : i < k) by lia.
           pose proof (new_index_lt pd atoms i k Hlt) as Hik. rewrite Hpi in Hik.
           rewrite Hother by lia. apply Hsh; [lia|done].
    + split_and!.
      * done.
      * intros i Hi. rewrite (Hcore i Hi).
        destruct (decide (i = k)) as [->|Hne].
        -- rewrite Hpol. by rewrite !andb_false_r.
        -- by rewrite (bool_decide_ext (i < S k) (i < k)) by lia.
      * intros i Hi Hpi. apply Hsh; [|done].
        destruct (decide (i = k)) as [->|Hne]; [congruence|lia].
Qed.
End shell_loop_lemmas.

(** ** Shells: the atoms, the charge and the mass *)

Lemma total_app (f : t_atom → Q) (l1 l2 : list t_atom) :
  (total f (l1 ++ l2) == total f l1 + total f l2)%Q.
Proof.
  unfold total. induction l1 as [|a l1 IH]; simpl.
  - Lqa.lra.
  - rewrite IH. Lqa.lra.
Qed.

Section no_shell.
Context `{gmx_tables}.
Variables (pd : gmx_poldata_t) (atoms : t_atoms).

Lemma shells_before_zero (n : nat) :
  shells_before pd atoms n = 0 →
  ∀ i, i < n → polarizable pd atoms i = false ∧ new_index pd atoms i = i.
Proof.
  induction n as [|n IH]; intros Hz i Hi; [lia|].
  rewrite shells_before_S in Hz.
  destruct (polarizable pd atoms n) eqn:Hp; [lia|].
  destruct (decide (i = n)) as [->|Hne].
  - split; [done|]. unfold new_index. lia.
  - apply IH; lia.
Qed.

Lemma shells_before_none (n : nat) :
  (∀ i, i < n → polarizable pd atoms i = false) → shells_before pd atoms n = 0.
Proof.
  induction n as [|n IH]; intros Hnone; [done|].
  rewrite shells_before_S, IH, Hnone by (intros; (apply Hnone || idtac); lia). done.
Qed.
End no_shell.

Section shell_layout.
Context `{gmx_tables} `{gmx_atomtypes} `{gmx_molprop}.

(** The atoms after [AddShells]. *)
Lemma AddShells_shells_made (pd : gmx_poldata_t) (mol : MyMol) :
  let atoms := topology_atoms mol in
  let al' := atom (topology_atoms (AddShells pd mol)) in
  length al' = new_index pd atoms (atoms_nr atoms) ∧
  (∀ i, i < atoms_nr atoms →
     al' !! new_index pd atoms i
     = Some (if polarizable pd atoms i then set_charge (atom atoms !!! i) 0 0
             else atom atoms !!! i)) ∧
  (∀ i, i < atoms_nr atoms → polarizable pd atoms i = true →
     ∃ sh, al' !! (new_index pd atoms i + 1) = Some sh ∧ is_shell_of (atom atoms !!! i) sh).
Proof.
  intros atoms al'. unfold al', AddShells. fold atoms.
  destruct (shell_renum pd atoms (plist_ mol !!! F_POLARIZATION))
    as [[[ns renum] p] pol] eqn:Hren.
  apply shell_renum_spec in Hren as (Hns & Hlen & Hre & Hpol).
  destruct (0 <? ns) eqn:Hpos.
  - rewrite shell_loop_split. cbn [topology_atoms atom fst].
    set (sa0 := mk_shell_atoms _ _ _ _).
    assert (Hl0 : length (atom (newa sa0)) = new_index pd atoms (atoms_nr atoms)).
    { unfold sa0. cbn. rewrite length_replicate. unfold new_index. lia. }
    destruct (copy_loop_spec pd atoms (x_ mol) renum Hre sa0) as [Hl1 Hcopy]; [lia|].
    destruct (shell_loop_spec pd atoms (x_ mol) p renum Hre
                (foldl (copy_atom atoms (x_ mol) renum) sa0 (seq 0 (atoms_nr atoms))))
      as (Hl2 & Hcore & Hsh); [lia|done|].
    split_and!.
    + lia.
    + intros i Hi. rewrite (Hcore i Hi). by rewrite bool_decide_eq_true_2 by done.
    + intros i Hi Hp. by apply Hsh.
  - apply Nat.ltb_ge in Hpos. assert (Hz : shells_before pd atoms (atoms_nr atoms) = 0) by lia.
    cbn [topology_atoms]. split_and!.
    + unfold new_index. rewrite Hz. unfold atoms_nr. lia.
    + intros i Hi. destruct (shells_before_zero pd atoms _ Hz i Hi) as [-> ->].
      by apply list_lookup_lookup_total_lt.
    + intros i Hi Hp. destruct (shells_before_zero pd atoms _ Hz i Hi) as [Hf _]. congruence.
Qed.

(** The sum of a quantity that an atom and its shell share out between
    them is the same before and after. *)
Lemma total_shells_made (f : t_atom → Q) (pd : gmx_poldata_t) (atoms : t_atoms)
    (al' : list t_atom) :
  (∀ a sh, is_shell_of a sh → (f (set_charge a 0 0) + f sh == f a)%Q) →
  length al' = new_index pd atoms (atoms_nr atoms) →
  (∀ i, i < atoms_nr atoms →
     al' !! new_index pd atoms i
     = Some (if polarizable pd atoms i then set_charge (atom atoms !!! i) 0 0
             else atom atoms !!! i)) →
  (∀ i, i < atoms_nr atoms → polarizable pd atoms i = true →
     ∃ sh, al' !! (new_index pd atoms i + 1) = Some sh ∧ is_shell_of (atom atoms !!! i) sh) →
  (total f al' == total f (atom atoms))%Q.
Proof.
  intros Hf Hlen Hcore Hsh.
  assert (Hk : ∀ k, k ≤ atoms_nr atoms →
            (total f (take (new_index pd atoms k) al') == total f (take k (atom atoms)))%Q).
  { induction k as [|k IH]; intros Hk.
    - unfold new_index, shells_before. simpl. by rewrite !take_0.
    - assert (Hlt : k < atoms_nr atoms) by lia.
      destruct (lookup_lt_is_Some_2 (atom atoms) k) as [a Ha]; [done|].
      rewrite (take_S_r _ _ _ Ha), total_app, <- IH by lia.
      pose proof (Hcore k Hlt) as Hc. rewrite (list_lookup_total_correct _ _ _ Ha) in Hc.
      rewrite new_index_S.
      destruct (polarizable pd atoms k) eqn:Hp.
      + destruct (Hsh k Hlt Hp) as (sh & Hs & Hshell).
        rewrite (list_lookup_total_correct _ _ _ Ha) in Hshell.
        replace (new_index pd atoms k + 1 + 1) with (S (new_index pd atoms k + 1)) by lia.
        rewrite (take_S_r _ _ _ Hs).
        replace (new_index pd atoms k + 1) with (S (new_index pd atoms k)) by lia.
        rewrite (take_S_r _ _ _ Hc), !total_app.
        unfold total at 2 3 5. simpl. specialize (Hf a sh Hshell). Lqa.lra.
      + replace (new_index pd atoms k + 1 + 0) with (S (new_index pd atoms k)) by lia.
        rewrite (take_S_r _ _ _ Hc), !total_app. done. }
  specialize (Hk (atoms_nr atoms) (Nat.le_refl _)).
  rewrite !take_ge in Hk by (unfold atoms_nr in *; lia). done.
Qed.
End shell_layout.

(** X16.  The atoms after [AddShells]: there is one more atom for each
    polarisable atom; the atoms keep their order, atom [i] moving to the
    index [i] plus the number of polarisable atoms before it; a polarisable
    atom has its charges set to 0 there and is otherwise as before, any
    other atom is unchanged; and the index after a polarisable atom holds
    its shell, which has the charges of the atom, the mass 0, the atomic
    number 0 and the particle type of a shell. *)
Theorem AddShells_atom_layout `{gmx_tables} `{gmx_atomtypes} `{gmx_molprop}
    (pd : gmx_poldata_t) (mol : MyMol) :
  let atoms := topology_atoms mol in
  let nr := atoms_nr atoms in
  let atoms' := topology_atoms (AddShells pd mol) in
  atoms_nr atoms' = nr + shells_before pd atoms nr ∧
  (∀ i j, i < j → j ≤ nr → new_index pd atoms i < new_index pd atoms j) ∧
  (∀ i, i < nr →
     atom atoms' !! new_index pd atoms i
     = Some (if polarizable pd atoms i then set_charge (atom atoms !!! i) 0 0
             else atom atoms !!! i)) ∧
  (∀ i, i < nr → polarizable pd atoms i = true →
     ∃ sh, atom atoms' !! (new_index pd atoms i + 1) = Some sh ∧
           is_shell_of (atom atoms !!! i) sh).
Proof.
  intros atoms nr atoms'.
  destruct (AddShells_shells_made pd mol) as (Hlen & Hcore & Hsh).
  split_and!; [exact Hlen| |exact Hcore|exact Hsh].
  intros i j Hij _. pose proof (new_index_lt pd atoms i j Hij). lia.
Qed.

(** X17.  [AddShells] conserves the total charge and the total mass of
    the molecule, in both states: the charge of a polarisable atom moves to
    its shell, and a shell has no mass. *)
Theorem AddShells_conserves_charge_and_mass `{gmx_tables} `{gmx_atomtypes} `{gmx_molprop}
    (pd : gmx_poldata_t) (mol : MyMol) :
  let al := atom (topology_atoms mol) in
  let al' := atom (topology_atoms (AddShells pd mol)) in
  (total atom_q al' == total atom_q al)%Q ∧ (total atom_qB al' == total atom_qB al)%Q ∧
  (total atom_m al' == total atom_m al)%Q ∧ (total atom_mB al' == total atom_mB al)%Q.
Proof.
  intros al al'.
  destruct (AddShells_shells_made pd mol) as (Hlen & Hcore & Hsh).
  split_and!; apply (total_shells_made _ pd (topology_atoms mol)); try done;
    intros a sh (Hm & HmB & Hq & HqB & _); simpl; rewrite ?Hm, ?HmB, ?Hq, ?HqB; Lqa.lra.
Qed.

(** ** Shells: exclusions and polarisation terms *)

Lemma NoDup_add_excl (l : list nat) (e : nat) : NoDup l → NoDup (add_excl l e).
Proof.
  intros Hnd. destruct (decide (e ∈ l)) as [Hin|Hnin].
  - by rewrite add_excl_elem.
  - rewrite add_excl_not_elem by done.
    apply NoDup_app. split_and!; [done| |apply NoDup_singleton].
    intros y Hy Hy'. apply list_elem_of_singleton in Hy' as ->. done.
Qed.

Lemma NoDup_add_excl_at (ex : list (list nat)) (a b : nat) :
  (∀ i, NoDup (ex !!! i)) → ∀ i, NoDup (add_excl_at ex a b !!! i).
Proof.
  intros Hnd i. unfold add_excl_at.
  destruct (decide (i = a)) as [->|Hne].
  - destruct (decide (a < length ex)).
    + rewrite list_lookup_total_insert_eq by done. by apply NoDup_add_excl.
    + by rewrite list_insert_ge by lia.
  - by rewrite list_lookup_total_insert_ne.
Qed.

Lemma excl_adds_NoDup (Old : nat → nat → Prop) (ex ex' : list (list nat)) :
  excl_adds Old ex ex' → (∀ i, NoDup (ex !!! i)) → ∀ i, NoDup (ex' !!! i).
Proof.
  induction 1 as [|ex ex' a b _ IH|ex ex' a b _ IH Hab]; intros Hnd.
  - done.
  - by do 2 apply NoDup_add_excl_at; apply IH.
  - by apply NoDup_add_excl_at, IH.
Qed.

(** X20.  When [AddShells] adds a shell, no exclusion list of the
    molecule it returns names an atom twice, whatever the lists held
    before: the new lists are built with [add_excl] from empty lists. *)
Theorem AddShells_exclusions_NoDup `{gmx_tables} `{gmx_atomtypes} `{gmx_molprop}
    (pd : gmx_poldata_t) (mol : MyMol) (i : nat) :
  0 < shells_added pd mol → NoDup (excls_ (AddShells pd mol) !!! i).
Proof.
  intros Hns. unfold shells_added in Hns.
  destruct (shell_renum pd (topology_atoms mol) (plist_ mol !!! F_POLARIZATION))
    as [[[ns renum] p] pol] eqn:Hrenum.
  simpl in Hns.
  destruct (AddShells_components pd mol ns renum p pol Hrenum Hns) as [Hex _].
  rewrite Hex. set (nr := atoms_nr (topology_atoms mol)).
  set (Old := fun _ _ : nat => True).
  match goal with |- NoDup (prune_excl ?ne ?a ?t !!! i) =>
    assert (Hne : ∀ k, NoDup (ne !!! k)) end.
  { apply (excl_adds_NoDup Old (replicate (nr + ns) [])).
    - eapply excl_adds_trans; [|apply excl_adds_foldl; intros ex k _;
                                  apply close_shell_excls_adds].
      eapply excl_adds_trans; [apply polarization_excls_adds|].
      apply excl_adds_foldl. intros ex k _. by apply shell_loop_excls_adds.
    - intros k. rewrite list_lookup_total_alt.
      destruct (replicate (nr + ns) [] !! k) as [l|] eqn:Hl; simpl.
      + apply lookup_replicate in Hl as [-> _]. apply NoDup_nil_2.
      + apply NoDup_nil_2. }
  rewrite list_lookup_total_alt, prune_excl_lookup.
  case_decide.
  - match goal with |- context [?ne !! i] =>
      specialize (Hne i); rewrite list_lookup_total_alt in Hne;
      destruct (ne !! i) as [l|]; simpl in * end.
    + by apply NoDup_filter.
    + apply NoDup_nil_2.
  - rewrite <- list_lookup_total_alt. apply Hne.
Qed.

(** Two polarisable carbon atoms that exclude each other. *)
Lemma AddShells_exclusions_NoDup_witness :
  NoDup (excls_ (AddShells (H := small_tables) polar_poldata ethyne_carbons) !!! 0).
Proof.
  apply (AddShells_exclusions_NoDup (H := small_tables) polar_poldata ethyne_carbons 0).
  vm_compute. lia.
Defined.

(** X21.  When no atom type of the molecule has a polarisability in the
    store, [AddShells] returns the molecule as it was. *)
Theorem AddShells_without_polarizable `{gmx_tables} `{gmx_atomtypes} `{gmx_molprop}
    (pd : gmx_poldata_t) (mol : MyMol) :
  (∀ i, i < atoms_nr (topology_atoms mol) →
        gmx_poldata_get_atype_pol pd (atomtype (topology_atoms mol) !!! i) = None) →
  AddShells pd mol = mol.
Proof.
  intros Hnone. unfold AddShells.
  destruct (shell_renum pd (topology_atoms mol) (plist_ mol !!! F_POLARIZATION))
    as [[[ns renum] p] pol] eqn:Hren.
  apply shell_renum_spec in Hren as (Hns & _ & _ & Hpol).
  assert (Hfalse : ∀ i, i < atoms_nr (topology_atoms mol) →
                        polarizable pd (topology_atoms mol) i = false).
  { intros i Hi. unfold polarizable. rewrite (Hnone i Hi).
    apply bool_decide_eq_false_2. by intros [? ?]. }
  rewrite (shells_before_none _ _ _ Hfalse) in Hns. subst ns. cbn [Nat.ltb Nat.leb].
  assert (Hfilter : filter (fun i => polarizable pd (topology_atoms mol) i = true)
                           (seq 0 (atoms_nr (topology_atoms mol))) = []).
  { apply length_zero_iff_nil. exact (shells_before_none _ _ _ Hfalse). }
  rewrite Hfilter in Hpol. simpl in Hpol. rewrite app_nil_r in Hpol. subst pol.
  assert (Hplist : <[F_POLARIZATION := plist_ mol !!! F_POLARIZATION]> (plist_ mol)
                   = plist_ mol).
  { destruct (plist_ mol !! F_POLARIZATION) as [l|] eqn:Hl.
    - rewrite (list_lookup_total_correct _ _ _ Hl). by apply list_insert_id.
    - apply list_insert_ge. by apply lookup_ge_None. }
  rewrite Hplist. by destruct mol.
Qed.

(** The store [empty_poldata] has no polarisability. *)
Lemma AddShells_without_polarizable_witness :
  AddShells (H := small_tables) empty_poldata ethyne_carbons = ethyne_carbons.
Proof.
  apply (AddShells_without_polarizable (H := small_tables) empty_poldata ethyne_carbons).
  intros i Hi. reflexivity.
Defined.

(** X18.  [AddShells] appends to the polarisation terms of the molecule
    one term for each polarisable atom, in the order of the atoms, between
    the new index of the atom and the index after it, whose first
    coefficient is 0.001 times the polarisability of the atom type; the
    terms that were there stay in front, with their atoms not
    renumbered. *)
Theorem AddShells_polarization_terms `{gmx_tables} `{gmx_atomtypes} `{gmx_molprop}
    (pd : gmx_poldata_t) (mol : MyMol) :
  F_POLARIZATION < length (plist_ mol) →
  let atoms := topology_atoms mol in
  plist_ (AddShells pd mol) !!! F_POLARIZATION
  = plist_ mol !!! F_POLARIZATION
    ++ map (shell_param pd atoms)
           (filter (fun i => polarizable pd atoms i = true) (seq 0 (atoms_nr atoms))).
Proof.
  intros Hlen atoms. unfold AddShells. fold atoms.
  destruct (shell_renum pd atoms (plist_ mol !!! F_POLARIZATION))
    as [[[ns renum] p] pol] eqn:Hren.
  apply shell_renum_spec in Hren as (_ & _ & _ & Hpol).
  destruct (0 <? ns).
  - destruct (foldl (shell_loop _ _ _ _ _) _ _) as [sa ne]. cbn [plist_].
    rewrite renumber_plist_polarization.
    by rewrite list_lookup_total_insert_eq.
  - cbn [plist_]. by rewrite list_lookup_total_insert_eq.
Qed.

(** Two polarisable carbon atoms and no polarisation term before: two
    terms after. *)
Lemma AddShells_polarization_terms_witness :
  length (plist_ (AddShells (H := small_tables) polar_poldata ethyne_carbons) !!! 7) = 2.
Proof.
  pose proof (AddShells_polarization_terms (H := small_tables) polar_poldata ethyne_carbons)
    as Hterms.
  change (F_POLARIZATION (gmx_tables := small_tables)) with 7 in Hterms.
  rewrite Hterms.
  - vm_compute. reflexivity.
  - simpl. lia.
Defined.

(** ** Shells: renumbered interactions *)

Section renumber_lemmas.
Context `{gmx_tables}.

(** The atoms of a term after the loop
    [for (k = 0; k < NRAL(i); k++) a[k] = renum[a[k]]]. *)
Lemma renumber_atoms_lookup (renum a : list nat) (n k : nat) :
  foldl (fun a k => <[k := renum !!! (a !!! k)]> a) a (seq 0 n) !! k
  = if decide (k < n) then (fun v => renum !!! v) <$> a !! k else a !! k.
Proof.
  rewrite (foldl_insert_lookup (fun _ v => renum !!! v)) by apply NoDup_seq.
  destruct (decide (k ∈ seq 0 n)) as [Hin|Hnin].
  - apply elem_of_seq in Hin. by rewrite decide_True by lia.
  - rewrite decide_False; [done|]. intros Hlt. apply Hnin, elem_of_seq. lia.
Qed.

Lemma renumber_plist_lookup (renum : list nat) (plist : list t_params) (ft : nat) :
  renumber_plist renum plist !! ft
  = if decide (ft < F_NRE ∧ ft ≠ F_POLARIZATION)
    then map (fun p => mk_param (foldl (fun a k => <[k := renum !!! (a !!! k)]> a)
                                       (p_a p) (seq 0 (NRAL ft)))
                                (p_c p))
         <$> plist !! ft
    else plist !! ft.
Proof.
  unfold renumber_plist.
  set (g := fun (i : nat) (e : t_params) =>
              if negb (i =? F_POLARIZATION)
              then map (fun p => mk_param (foldl (fun a k => <[k := renum !!! (a !!! k)]> a)
                                                 (p_a p) (seq 0 (NRAL i)))
                                          (p_c p)) e
              else e).
  rewrite (foldl_ext _ (fun pl i => <[i := g i (pl !!! i)]> pl)).
  2:{ intros pl i. unfold g. destruct (negb _); [done|].
      destruct (pl !! i) as [e|] eqn:He.
      - rewrite (list_lookup_total_correct _ _ _ He). symmetry. by apply list_insert_id.
      - symmetry. apply list_insert_ge. by apply lookup_ge_None. }
  rewrite foldl_insert_lookup by apply NoDup_seq.
  destruct (decide (ft ∈ seq 0 F_NRE)) as [Hin|Hnin].
  - apply elem_of_seq in Hin. unfold g.
    destruct (Nat.eqb_spec ft F_POLARIZATION) as [Heq|Hne]; simpl.
    + rewrite decide_False by (intros [_ Hn]; by apply Hn). exact (option_fmap_id _).
    + by rewrite decide_True by (split; [lia|done]).
  - rewrite decide_False; [done|]. intros [Hlt _]. apply Hnin, elem_of_seq. lia.
Qed.

Lemma shells_before_mono (pd : gmx_poldata_t) (atoms : t_atoms) (a n : nat) :
  a ≤ n → shells_before pd atoms a ≤ shells_before pd atoms n.
Proof.
  induction 1 as [|n Han IH]; [done|]. rewrite shells_before_S. lia.
Qed.
End renumber_lemmas.

Lemma lookup_total_fmap_eq {A} `{Inhabited A} (l l' : list A) (g : A → A) (i : nat) :
  l' !! i = g <$> l !! i → g inhabitant = inhabitant → l' !!! i = g (l !!! i).
Proof.
  intros Hl Hg. rewrite !list_lookup_total_alt, Hl. by destruct (l !! i).
Qed.

(** X19.  In every interaction list but the one of the polarisation
    terms, [AddShells] keeps the interactions, their order and their
    coefficients, and replaces each of the first [NRAL ft] atoms of an
    interaction by its new index; the entries of [a] behind them are
    left.  This needs the atoms of the interactions of the list to be atoms
    of the molecule. *)
Theorem AddShells_renumbers_terms `{gmx_tables} `{gmx_atomtypes} `{gmx_molprop}
    (pd : gmx_poldata_t) (mol : MyMol) (ft : nat) :
  ft < F_NRE → ft ≠ F_POLARIZATION →
  let atoms := topology_atoms mol in
  (∀ p k a, p ∈ plist_ mol !!! ft → k < NRAL ft → p_a p !! k = Some a →
            a < atoms_nr atoms) →
  length (plist_ (AddShells pd mol) !!! ft) = length (plist_ mol !!! ft) ∧
  ∀ j p, (plist_ mol !!! ft) !! j = Some p →
    ∃ p', (plist_ (AddShells pd mol) !!! ft) !! j = Some p' ∧
          p_c p' = p_c p ∧
          ∀ k, p_a p' !! k = if decide (k < NRAL ft)
                             then new_index pd atoms <$> p_a p !! k
                             else p_a p !! k.
Proof.
  intros Hft Hne atoms Hrange. unfold AddShells. fold atoms.
  destruct (shell_renum pd atoms (plist_ mol !!! F_POLARIZATION))
    as [[[ns renum] p0] pol] eqn:Hren.
  apply shell_renum_spec in Hren as (Hns & _ & Hre & _).
  destruct (0 <? ns) eqn:Hpos.
  - destruct (foldl (shell_loop _ _ _ _ _) _ _) as [sa ne]. cbn [plist_].
    set (ren := fun p : t_param =>
           mk_param (foldl (fun a k => <[k := renum !!! (a !!! k)]> a)
                           (p_a p) (seq 0 (NRAL ft)))
                    (p_c p)).
    assert (Htot : renumber_plist renum (<[F_POLARIZATION := pol]> (plist_ mol)) !!! ft
                   = map ren (plist_ mol !!! ft)).
    { apply (lookup_total_fmap_eq (plist_ mol) _ (map ren)); [|done].
      rewrite renumber_plist_lookup, decide_True by done.
      by rewrite list_lookup_insert_ne by done. }
    unfold t_params in *. rewrite !Htot. split; [by rewrite length_map|]. intros j p Hp.
    exists (ren p). split.
    { rewrite list_lookup_fmap. by rewrite Hp. }
    cbn [p_c p_a ren].
    split; [done|]. intros k. rewrite renumber_atoms_lookup.
    case_decide as Hk; [|done].
    destruct (p_a p !! k) as [a|] eqn:Ha; [|done]. simpl. f_equal.
    apply Hre. assert (a < atoms_nr atoms); [|lia].
    eapply Hrange; [|done..]. apply list_elem_of_lookup. eauto.
  - cbn [plist_]. apply Nat.ltb_ge in Hpos.
    assert (Hz : shells_before pd atoms (atoms_nr atoms) = 0) by lia.
    unfold t_params in *. rewrite !list_lookup_total_insert_ne by done.
    split; [done|]. intros j p Hp. exists p. split_and!; [done..|].
    intros k. case_decide as Hk; [|done].
    destruct (p_a p !! k) as [a|] eqn:Ha; [|done]. simpl. f_equal.
    assert (Ha' : a < atoms_nr atoms).
    { eapply Hrange; [|done..]. apply list_elem_of_lookup. eauto. }
    unfold new_index.
    pose proof (shells_before_mono pd atoms a (atoms_nr atoms)). lia.
Qed.

(** The bond between the two polarisable carbon atoms 0 and 1: its second
    atom becomes atom 2. *)
Lemma AddShells_renumbers_terms_witness :
  ∃ p', plist_ (AddShells (H := small_tables) polar_poldata ethyne_carbons) !!! 0 = [p'] ∧
        p_a p' !! 1 = Some 2.
Proof.
  destruct (AddShells_renumbers_terms (H := small_tables) polar_poldata ethyne_carbons 0)
    as [Hlen Hterm].
  - simpl. lia.
  - simpl. lia.
  - intros p k a Hp Hk Ha. change (plist_ ethyne_carbons !!! 0) with [bond 0 1] in Hp.
    apply list_elem_of_singleton in Hp as ->.
    change (NRAL (gmx_tables := small_tables) 0) with 2 in Hk.
    change (atoms_nr (topology_atoms ethyne_carbons)) with 2.
    destruct k as [|[|k]]; [| |lia]; simpl in Ha; simplify_eq; lia.
  - destruct (Hterm 0 (bond 0 1)) as (p' & Hp' & _ & Ha); [reflexivity|].
    exists p'. split.
    + change (plist_ ethyne_carbons !!! 0) with [bond 0 1] in Hlen.
      destruct (plist_ (AddShells polar_poldata ethyne_carbons) !!! 0) as [|q [|q' l]];
        simpl in *; simplify_eq; done.
    + rewrite (Ha 1). vm_compute. reflexivity.
Defined.

(** ** The blank topology and the pruned exclusions *)

Lemma lookup_total_replicate_or {A} `{Inhabited A} (n : nat) (x : A) (k : nat) :
  replicate n x !!! k = x ∨ replicate n x !!! k = inhabitant.
Proof.
  rewrite list_lookup_total_alt.
  destruct (replicate n x !! k) as [y|] eqn:Hy; simpl; [left|by right].
  by apply lookup_replicate in Hy as [-> _].
Qed.

Section init_lemmas.
Context `{gmx_tables}.

Lemma init_nbmatrix_functype (vdw_type : Z) (ntype : nat) (ft : list Z)
    (ip : list t_iparams) :
  length ft = ntype * ntype →
  ∀ idx, idx < ntype * ntype →
    (init_nbmatrix vdw_type ntype ft ip).1 !! idx = Some vdw_type.
Proof.
  intros Hlen. unfold init_nbmatrix.
  match goal with |- context [foldl ?f ?s (seq 0 ntype)] =>
    pose proof (foldl_seq_invariant
      (fun i (st : list Z * list t_iparams) =>
         length st.1 = ntype * ntype ∧
         ∀ idx, idx < ntype * i → st.1 !! idx = Some vdw_type)
      f ntype s) as Hinv
  end.
  destruct Hinv as [_ Hall].
  - simpl. split; [done|]. intros; lia.
  - intros i st Hi [Hl Hprev].
    match goal with |- context [foldl ?g st (seq 0 ntype)] =>
      pose proof (foldl_seq_invariant
        (fun j (st' : list Z * list t_iparams) =>
           length st'.1 = ntype * ntype ∧
           ∀ idx, idx < ntype * i + j → st'.1 !! idx = Some vdw_type)
        g ntype st) as Hin
    end.
    destruct Hin as [Hl' Hrow].
    + split; [done|]. intros idx Hidx. apply Hprev. lia.
    + intros j [ft' ip'] Hj [Hl' Hrow]. simpl in *.
      assert (Hstep : length (<[ntype * i + j := vdw_type]> ft') = ntype * ntype ∧
                      ∀ idx, idx < ntype * i + S j →
                             <[ntype * i + j := vdw_type]> ft' !! idx = Some vdw_type).
      { rewrite length_insert. split; [done|]. intros idx Hidx.
        destruct (decide (idx = ntype * i + j)) as [->|Hne].
        - apply list_lookup_insert_eq. nia.
        - rewrite list_lookup_insert_ne by done. apply Hrow. lia. }
      repeat case_decide; simpl; exact Hstep.
    + split; [done|]. intros idx Hidx. apply Hrow. lia.
  - intros idx Hidx. apply Hall. lia.
Qed.

Lemma lookup_total_zero_atoms (n a : nat) : atom (init_t_atoms n) !!! a = zero_atom.
Proof.
  unfold init_t_atoms. simpl. rewrite list_lookup_total_alt.
  destruct (replicate n zero_atom !! a) as [z|] eqn:Hz; simpl; [|done].
  by apply lookup_replicate in Hz as [-> _].
Qed.
End init_lemmas.

(** X8.  The topology that [do_init_mtop] returns has as many atoms as
    the molecule, but they are blank: [init_t_atoms] allocates them and the
    atoms of the molecule are not copied.  There is one charge group for
    each atom, every entry of the table of function types holds the van der
    Waals type of the store, and the 1-4 coefficients computed from this
    topology (two entries of the type matrix times [fudgeLJ]) are all 0,
    whatever the interaction. *)
Theorem do_init_mtop_blank_atoms `{gmx_tables}
    (pd : gmx_poldata_t) (molname : string) (atoms : t_atoms) :
  let mtop := do_init_mtop pd molname atoms in
  moltype_atoms mtop = init_t_atoms (atoms_nr atoms) ∧
  natoms mtop = atoms_nr atoms ∧ molblock_natoms_mol mtop = atoms_nr atoms ∧
  moltype_cgs mtop = seq 0 (S (atoms_nr atoms)) ∧
  (∀ idx, idx < ntypes (ffparams mtop) →
          functype (ffparams mtop) !! idx = Some (gmx_poldata_get_vdw_ftype pd)) ∧
  (∀ (fudgeLJ : Q) (p : t_param),
     Forall (fun c => c == 0)%Q (term_coeffs fudgeLJ mtop F_LJ14 p)).
Proof.
  intros mtop. unfold mtop, do_init_mtop.
  set (ntype := count_types (map atom_type (atom atoms))).
  pose proof (init_nbmatrix_zero (gmx_poldata_get_vdw_ftype pd) ntype (ntype * ntype)
                (replicate (ntype * ntype) 0%Z)) as Hnb.
  pose proof (init_nbmatrix_functype (gmx_poldata_get_vdw_ftype pd) ntype
                (replicate (ntype * ntype) 0%Z) (replicate (ntype * ntype) zero_iparams)
                (length_replicate _ _)) as Hft.
  destruct (init_nbmatrix _ _ _ _) as [ft ip]. simpl in Hnb, Hft.
  destruct Hnb as [_ ->]. cbn [moltype_atoms natoms molblock_natoms_mol moltype_cgs
                                 ffparams ntypes functype].
  split_and!; try done.
  intros fudgeLJ p. unfold term_coeffs. rewrite Nat.eqb_refl.
  cbn [moltype_atoms ffparams atnr iparams].
  rewrite !lookup_total_zero_atoms. cbn [atom_type zero_atom]. cbn [Nat.mul Nat.add].
  assert (Hz : ∀ k, (replicate (ntype * ntype) zero_iparams !!! 0 : t_iparams) !!! k = 0%Q).
  { intros k.
    destruct (lookup_total_replicate_or (ntype * ntype) zero_iparams 0) as [->| ->].
    - unfold zero_iparams, t_iparams.
      by destruct (lookup_total_replicate_or MAXFORCEPARAM 0%Q k) as [->| ->].
    - reflexivity. }
  unfold lj_c6, lj_c12. rewrite !Hz.
  apply Forall_app. split.
  - repeat constructor; Lqa.lra.
  - apply Forall_forall. intros c Hc. apply elem_of_replicate in Hc as [-> _]. reflexivity.
Qed.

Section prune_shell_lemmas.
Context `{gmx_tables} `{gmx_atomtypes}.

(** X15.  [prune_excl] keeps, in the list of each atom below
    [atoms.nr] that is not a shell, the entries that are shells, in their
    order, and nothing else; the lists of shells and the lists behind the
    atoms are not touched and the number of lists is the same. *)
Theorem prune_excl_keeps_shells (excls : list (list nat)) (atoms : t_atoms)
    (atype : gpp_atomtype_t) :
  let shell := is_shell atoms atype in
  let excls' := prune_excl excls atoms atype in
  length excls' = length excls ∧
  ∀ i, excls' !!! i
       = if bool_decide (i < atoms_nr atoms) && negb (shell i)
         then filter (fun ak => shell ak = true) (excls !!! i)
         else excls !!! i.
Proof.
  intros shell excls'. split.
  - unfold excls', prune_excl. apply foldl_preserves; [done|].
    intros ex i Hex. destruct (negb _); [|done]. by rewrite length_insert.
  - intros i. unfold excls'. rewrite !list_lookup_total_alt, prune_excl_lookup.
    fold shell. destruct (decide (i < atoms_nr atoms)) as [Hlt|Hge].
    + rewrite (bool_decide_eq_true_2 _ Hlt). destruct (shell i) eqn:Hs; simpl.
      * rewrite decide_False by (intros [_ ?]; done). done.
      * rewrite decide_True by done. destruct (excls !! i) as [e|]; simpl; [|done].
        apply list_filter_iff. intros ak. by rewrite Is_true_true.
    + rewrite (bool_decide_eq_false_2 _ Hge). simpl.
      rewrite decide_False by (intros [? _]; done). done.
Qed.
End prune_shell_lemmas.

(** X14.  [add_excl] treats the exclusions of an atom as a set: the list
    it returns holds the old entries and [e] and nothing else, keeps the
    old entries at their places, is longer by one exactly when [e] was
    not in the list, has no entry twice if the list had none, and adding
    [e] once more changes nothing. *)
Theorem add_excl_as_set (l : list nat) (e : nat) :
  (∀ y, y ∈ add_excl l e ↔ y ∈ l ∨ y = e) ∧
  l `prefix_of` add_excl l e ∧
  length (add_excl l e) = (if decide (e ∈ l) then length l else S (length l)) ∧
  (NoDup l → NoDup (add_excl l e)) ∧
  add_excl (add_excl l e) e = add_excl l e.
Proof.
  assert (Hin : ∀ y, y ∈ add_excl l e ↔ y ∈ l ∨ y = e) by apply elem_of_add_excl.
  split_and!.
  - done.
  - destruct (decide (e ∈ l)).
    + by rewrite add_excl_elem.
    + rewrite add_excl_not_elem by done. by apply prefix_app_r.
  - case_decide.
    + by rewrite add_excl_elem.
    + rewrite add_excl_not_elem, length_app by done. simpl. lia.
  - intros Hnd. destruct (decide (e ∈ l)) as [He|He].
    + by rewrite add_excl_elem.
    + rewrite add_excl_not_elem by done. apply NoDup_app. split_and!; [done| |apply NoDup_singleton].
      intros y Hy Hy'. apply list_elem_of_singleton in Hy' as ->. done.
  - apply add_excl_elem, Hin. by right.
Qed.

(** ** The table of neighbours *)

Lemma neighbour_table_fold (mbonds : list (nat * nat)) (T : list (list nat)) :
  Forall (fun b => 1 ≤ b.1 ≤ length T ∧ 1 ≤ b.2 ≤ length T) mbonds →
  let T' := foldl (fun bonds '(ai, aj) =>
                     let bonds := <[ai - 1 := bonds !!! (ai - 1) ++ [aj - 1]]> bonds in
                     <[aj - 1 := bonds !!! (aj - 1) ++ [ai - 1]]> bonds) T mbonds in
  length T' = length T ∧
  ∀ i, (∀ j, j ∈ T' !!! i ↔
             j ∈ T !!! i ∨ ∃ b, b ∈ mbonds ∧ (bond_joins b i j ∨ bond_joins b j i)) ∧
       length (T' !!! i)
       = length (T !!! i) + length (filter (fun b => b.1 - 1 = i) mbonds)
         + length (filter (fun b => b.2 - 1 = i) mbonds).
Proof.
  revert T. induction mbonds as [|[ai aj] mbonds IH]; intros T Hall T'.
  - unfold T'. simpl. split; [done|]. intros i. split; [|lia].
    intros j. setoid_rewrite elem_of_nil. naive_solver.
  - apply Forall_cons in Hall as [[[Hi1 Hi2] [Hj1 Hj2]] Hall]. simpl in Hi1, Hi2, Hj1, Hj2.
    set (T1 := <[ai - 1 := T !!! (ai - 1) ++ [aj - 1]]> T).
    set (T2 := <[aj - 1 := T1 !!! (aj - 1) ++ [ai - 1]]> T1).
    change T' with (foldl (fun bonds '(ai, aj) =>
                     let bonds := <[ai - 1 := bonds !!! (ai - 1) ++ [aj - 1]]> bonds in
                     <[aj - 1 := bonds !!! (aj - 1) ++ [ai - 1]]> bonds) T2 mbonds).
    clear T'.
    assert (Hl2 : length T2 = length T) by (unfold T2, T1; by rewrite !length_insert).
    assert (H1 : ∀ i, T1 !!! i = if decide (i = ai - 1) then T !!! i ++ [aj - 1] else T !!! i).
    { intros i. unfold T1. case_decide as Hi; [subst i|].
      - by rewrite list_lookup_total_insert_eq by lia.
      - by rewrite list_lookup_total_insert_ne. }
    assert (H2 : ∀ i, T2 !!! i = if decide (i = aj - 1) then T1 !!! i ++ [ai - 1] else T1 !!! i).
    { intros i. unfold T2. case_decide as Hi; [subst i|].
      - by rewrite list_lookup_total_insert_eq by (unfold T1; rewrite length_insert; lia).
      - by rewrite list_lookup_total_insert_ne. }
    destruct (IH T2) as [Hl IHi].
    { by rewrite Hl2. }
    split; [by rewrite Hl|]. intros i. destruct (IHi i) as [Hin Hlen]. split.
    + intros j. rewrite Hin.
      assert (Hnew : j ∈ T2 !!! i ↔
                     j ∈ T !!! i ∨ bond_joins (ai, aj) i j ∨ bond_joins (ai, aj) j i).
      { rewrite H2, H1. unfold bond_joins. simpl.
        repeat case_decide; rewrite ?elem_of_app, ?list_elem_of_singleton;
          naive_solver lia. }
      rewrite Hnew. setoid_rewrite elem_of_cons. naive_solver.
    + rewrite Hlen, H2, H1, !filter_cons. simpl.
      repeat case_decide; rewrite ?length_app; simpl; lia.
Qed.

(** X3.  The table of neighbours that [MakeSpecialInteractions] builds
    from the bonds of the molecule, whose atoms are numbered from 1 and lie
    in 1..[natom]: it has one list for each atom; atom [j] is in the list of
    atom [i] exactly when a bond joins the two, in either order, so the
    table is symmetric; and the list of an atom has one entry for each end
    of a bond at that atom, a bond that is listed twice being entered
    twice. *)
Theorem neighbour_table_bonds (natom : nat) (mbonds : list (nat * nat)) :
  Forall (fun b => 1 ≤ b.1 ≤ natom ∧ 1 ≤ b.2 ≤ natom) mbonds →
  let bonds := neighbour_table natom mbonds in
  length bonds = natom ∧
  (∀ i j, j ∈ bonds !!! i ↔ ∃ b, b ∈ mbonds ∧ (bond_joins b i j ∨ bond_joins b j i)) ∧
  (∀ i j, j ∈ bonds !!! i ↔ i ∈ bonds !!! j) ∧
  (∀ i, length (bonds !!! i)
        = length (filter (fun b => b.1 - 1 = i) mbonds)
          + length (filter (fun b => b.2 - 1 = i) mbonds)).
Proof.
  intros Hall bonds.
  destruct (neighbour_table_fold mbonds (replicate natom [])) as [Hlen Hi].
  { by rewrite length_replicate. }
  rewrite length_replicate in Hlen.
  assert (Hempty : ∀ i, replicate natom ([] : list nat) !!! i = []).
  { intros i. rewrite list_lookup_total_alt.
    destruct (replicate natom [] !! i) as [l|] eqn:Hl; simpl; [|done].
    by apply lookup_replicate in Hl as [-> _]. }
  assert (Hmem : ∀ i j, j ∈ bonds !!! i ↔
                        ∃ b, b ∈ mbonds ∧ (bond_joins b i j ∨ bond_joins b j i)).
  { intros i j. destruct (Hi i) as [Hin _]. unfold bonds, neighbour_table.
    rewrite Hin, Hempty, elem_of_nil. naive_solver. }
  split_and!.
  - exact Hlen.
  - exact Hmem.
  - intros i j. rewrite !Hmem. naive_solver.
  - intros i. destruct (Hi i) as [_ Hl]. rewrite Hempty in Hl. exact Hl.
Qed.

(** The bonds 1-2 and 1-3 of a molecule of three atoms. *)
Lemma neighbour_table_bonds_witness :
  let bonds := neighbour_table 3 centre_bonds in
  length bonds = 3 ∧
  (∀ i j, j ∈ bonds !!! i ↔
          ∃ b, b ∈ centre_bonds ∧ (bond_joins b i j ∨ bond_joins b j i)) ∧
  (∀ i j, j ∈ bonds !!! i ↔ i ∈ bonds !!! j) ∧
  (∀ i, length (bonds !!! i)
        = length (filter (fun b => b.1 - 1 = i) centre_bonds)
          + length (filter (fun b => b.2 - 1 = i) centre_bonds)).
Proof.
  apply (neighbour_table_bonds 3 centre_bonds).
  repeat constructor; simpl; lia.
Defined.

(** ** Symmetry *)

Lemma Qltb_lt (x y : Q) : Qltb x y = true ↔ (x < y)%Q.
Proof.
  unfold Qltb. rewrite negb_true_iff. split.
  - intros Hle. apply Qnot_le_lt. intros Hyx. apply Qle_bool_iff in Hyx. congruence.
  - intros Hlt. destruct (Qle_bool y x) eqn:Hle; [|done].
    apply Qle_bool_iff in Hle. exfalso. by apply (Qlt_not_le x y).
Qed.

Section symmetric_lemmas.
Context `{gmx_vec}.

Lemma find_mirror_fold (toler : Q) (x : list rvec) (i : nat) (l : list nat)
    (b : list bool) :
  i < length b → Forall (fun j => i < j) l →
  let b' := foldl (fun bSymm j =>
                     if negb (bSymm !!! i) then
                       if Qltb (norm (rvec_add (x !!! i) (x !!! j))) toler
                       then <[j := true]> (<[i := true]> bSymm)
                       else bSymm
                     else bSymm) b l in
  length b' = length b ∧
  b' !!! i = b !!! i || existsb (fun j => Qltb (norm (rvec_add (x !!! i) (x !!! j))) toler) l ∧
  ∀ k, k < i → b' !!! k = b !!! k.
Proof.
  intros Hi Hl. revert b Hi. induction Hl as [|j l Hj Hl IH]; intros b Hi b'.
  - unfold b'. simpl. by rewrite orb_false_r.
  - unfold b'. cbn [foldl existsb].
    destruct (b !!! i) eqn:Hbi; cbn [negb].
    + destruct (IH b Hi) as (Hlen & Hval & Hlow). rewrite Hbi in Hval. done.
    + destruct (Qltb (norm (rvec_add (x !!! i) (x !!! j))) toler) eqn:Ht.
      * destruct (IH (<[j := true]> (<[i := true]> b))) as (Hlen & Hval & Hlow).
        { by rewrite !length_insert. }
        rewrite !length_insert in Hlen.
        rewrite list_lookup_total_insert_ne in Hval by lia.
        rewrite list_lookup_total_insert_eq in Hval by done.
        split_and!; [done|done|]. intros k Hk. rewrite Hlow by done.
        by rewrite !list_lookup_total_insert_ne by lia.
      * destruct (IH b Hi) as (Hlen & Hval & Hlow). rewrite Hbi in Hval. done.
Qed.

Lemma all_flags (b : list bool) (n : nat) :
  foldl (fun all i => all && b !!! i) true (seq 0 n) = true ↔ ∀ i, i < n → b !!! i = true.
Proof.
  induction n as [|n IH].
  - simpl. split; [intros; lia|done].
  - rewrite seq_S, foldl_app. simpl. rewrite andb_true_iff, IH. split.
    + intros [Hall Hn] i Hi. destruct (decide (i = n)) as [->|]; [done|]. apply Hall. lia.
    + intros Hall. split; [intros i Hi|]; apply Hall; lia.
Qed.
End symmetric_lemmas.

(** X4.  [IsSymmetric] answers true exactly when every atom, taken
    relative to the centre of mass, lies within [toler] of the centre or
    has a mirror image among the atoms of a higher index (the norm of the
    sum of the two positions is below [toler]).  The flag that an atom got
    as the mirror image of an earlier atom is overwritten by
    [bSymm[i] = (norm(x_[i]) < toler)] when its own turn comes; so a true
    answer needs the last atom to lie within [toler] of the centre. *)
Theorem IsSymmetric_mirror_above `{gmx_vec} `{gmx_atomtypes} `{gmx_molprop}
    (toler : Q) (mol : MyMol) :
  let atoms := topology_atoms mol in
  let nr := atoms_nr atoms in
  nr ≤ length (x_ mol) →
  let com := centre_of_mass atoms (x_ mol) in
  let x' := fun i => rvec_sub (x_ mol !!! i) com in
  ((IsSymmetric toler mol).1 = true ↔
   ∀ i, i < nr →
     (norm (x' i) < toler)%Q ∨
     ∃ j, i < j < nr ∧ (norm (rvec_add (x' i) (x' j)) < toler)%Q) ∧
  ((IsSymmetric toler mol).1 = true → 0 < nr → (norm (x' (nr - 1)%nat) < toler)%Q).
Proof.
  intros atoms nr Hlen com x'.
  assert (Hmain : (IsSymmetric toler mol).1 = true ↔
            ∀ i, i < nr →
              (norm (x' i) < toler)%Q ∨
              ∃ j, i < j < nr ∧ (norm (rvec_add (x' i) (x' j)) < toler)%Q).
  { unfold IsSymmetric. fold atoms nr com. cbn [fst].
    set (x := foldl (fun x i => <[i := rvec_sub (x !!! i) com]> x) (x_ mol) (seq 0 nr)).
    assert (Hx : ∀ i, i < nr → x !!! i = x' i).
    { intros i Hi. unfold x. rewrite list_lookup_total_alt.
      rewrite (foldl_insert_lookup (fun _ v => rvec_sub v com)) by apply NoDup_seq.
      rewrite decide_True by (apply elem_of_seq; lia).
      destruct (lookup_lt_is_Some_2 (x_ mol) i) as [v Hv]; [lia|].
      rewrite Hv. simpl. unfold x'. by rewrite (list_lookup_total_correct _ _ _ Hv). }
    set (F := fun i => Qltb (norm (x !!! i)) toler
                       || existsb (fun j => Qltb (norm (rvec_add (x !!! i) (x !!! j))) toler)
                                  (seq (i + 1) (nr - (i + 1)))).
    match goal with |- context [foldl ?f (replicate nr false) (seq 0 nr)] =>
      pose proof (foldl_seq_invariant
        (fun k (b : list bool) => length b = nr ∧ ∀ i, i < k → b !!! i = F i)
        f nr (replicate nr false)) as Hinv;
      set (bSymm := foldl f (replicate nr false) (seq 0 nr)) in *
    end.
    destruct Hinv as [_ Hflags].
    - rewrite length_replicate. split; [done|]. intros; lia.
    - intros k b Hk [Hl Hprev].
      destruct (find_mirror_fold toler x k (seq (k + 1) (nr - (k + 1)))
                  (<[k := Qltb (norm (x !!! k)) toler]> b))
        as (Hl' & Hval & Hlow).
      { rewrite length_insert. lia. }
      { apply Forall_forall. intros j Hj. apply elem_of_seq in Hj. lia. }
      rewrite length_insert in Hl'.
      rewrite list_lookup_total_insert_eq in Hval by lia.
      split; [exact (eq_trans Hl' Hl)|]. intros i Hi.
      destruct (decide (i = k)) as [->|Hne].
      + exact Hval.
      + unfold find_mirror. rewrite Hlow by lia.
        rewrite list_lookup_total_insert_ne by done. apply Hprev. lia.
    - rewrite all_flags. split.
      + intros Hall i Hi. specialize (Hall i Hi). rewrite Hflags in Hall by done.
        unfold F in Hall. apply orb_true_iff in Hall as [Hc|Hm].
        * left. rewrite <- (Hx i Hi). by apply Qltb_lt.
        * right. apply existsb_exists in Hm as (j & Hj & Ht).
          apply list_elem_of_In, elem_of_seq in Hj.
          exists j. split; [lia|]. rewrite <- (Hx i Hi), <- (Hx j) by lia. by apply Qltb_lt.
      + intros Hall i Hi. rewrite Hflags by done. unfold F. apply orb_true_iff.
        destruct (Hall i Hi) as [Hc|(j & Hj & Ht)].
        * left. rewrite (Hx i Hi). by apply Qltb_lt.
        * right. apply existsb_exists. exists j. split.
          -- apply list_elem_of_In, elem_of_seq. lia.
          -- rewrite (Hx i Hi), (Hx j) by lia. by apply Qltb_lt. }
  split; [exact Hmain|].
  intros Hsym Hpos. destruct Hmain as [Hmain _]. specialize (Hmain Hsym).
  destruct (Hmain (nr - 1)) as [Hc|(j & Hj & _)]; [lia|done|lia].
Qed.

(** Two carbon atoms at (0,0,0) and (1,0,0) mirror each other in their
    centre of mass (1/2,0,0); the second atom has no atom behind it and
    does not lie at the centre, and the answer is false. *)
Lemma IsSymmetric_mirror_above_witness :
  (IsSymmetric (H := sum_norm) (1 # 10) ethyne_carbons).1 = false.
Proof.
  destruct (IsSymmetric_mirror_above (H := sum_norm) (1 # 10) ethyne_carbons) as [_ Hlast].
  - unfold atoms_nr. simpl. lia.
  - destruct ((IsSymmetric (H := sum_norm) (1 # 10) ethyne_carbons).1) eqn:Hsym; [|done].
    exfalso.
    assert (Hpos : 0 < atoms_nr (topology_atoms ethyne_carbons)) by (unfold atoms_nr; simpl; lia).
    specialize (Hlast eq_refl Hpos). vm_compute in Hlast. discriminate.
Defined.

(** ** The box *)

Lemma extend_box_component (x : list rvec) (st : box_extent) (i m : nat) :
  m < DIM →
  let xi := vec_get (x !!! i) m in
  vec_get (xmin (extend_box x st i)) m
    = (if Qltb xi (vec_get (xmin st) m) then xi else vec_get (xmin st) m) ∧
  vec_get (xmax (extend_box x st i)) m
    = (if Qltb xi (vec_get (xmin st) m) then vec_get (xmax st) m
       else if Qltb (vec_get (xmax st) m) xi then xi else vec_get (xmax st) m).
Proof.
  intros Hm. unfold extend_box, DIM in *.
  destruct st as [c [[a0 a1] a2] [[b0 b1] b2]]. destruct (x !!! i) as [[u0 u1] u2].
  cbn [seq foldl vec_get vec_set fst snd xmin xmax xcom].
  destruct m as [|[|[|m]]]; [| | |lia];
    cbn [seq foldl vec_get vec_set fst snd xmin xmax xcom];
    repeat match goal with
           | |- context [Qltb ?a ?b] =>
               is_var a; is_var b; destruct (Qltb a b);
               cbn [vec_get vec_set fst snd xmin xmax xcom]
           end; done.
Qed.

Lemma put_in_box_entries (natom : nat) (box : matrix) (x : list rvec) (dbox : Q)
    (m n : nat) :
  m < DIM → n < DIM →
  let st := foldl (extend_box x) (mk_extent clear_rvec (x !!! 0) (x !!! 0)) (seq 0 natom) in
  vec_get (vec_get (put_in_box natom box x dbox) m) n
    = if decide (n = m) then (dbox + vec_get (xmax st) m - vec_get (xmin st) m)%Q
      else vec_get (vec_get box m) n.
Proof.
  intros Hm Hn st. unfold put_in_box. fold st. unfold DIM in *.
  destruct box as [[[[r00 r01] r02] [[r10 r11] r12]] [[r20 r21] r22]].
  destruct m as [|[|[|m]]]; [| | |lia]; destruct n as [|[|[|n]]]; try lia; done.
Qed.

(** X5.  For one atom at least, [put_in_box] sets each diagonal entry of
    the box to [dbox] plus the extent of the molecule along that axis: the
    difference of the coordinates of two atoms between which the
    coordinates of all atoms lie.  The [else] before the test of the
    maximum loses nothing, since a coordinate below the minimum is not
    above the maximum.  The entries off the diagonal are left as they
    were. *)
Theorem put_in_box_bounding_box (natom : nat) (box : matrix) (x : list rvec) (dbox : Q) :
  0 < natom → natom ≤ length x →
  let box' := put_in_box natom box x dbox in
  ∀ m, m < DIM →
    (∃ lo hi, lo < natom ∧ hi < natom ∧
       vec_get (vec_get box' m) m
         = (dbox + vec_get (x !!! hi) m - vec_get (x !!! lo) m)%Q ∧
       ∀ i, i < natom →
         (vec_get (x !!! lo) m <= vec_get (x !!! i) m <= vec_get (x !!! hi) m)%Q) ∧
    ∀ n, n < DIM → n ≠ m → vec_get (vec_get box' m) n = vec_get (vec_get box m) n.
Proof.
  intros Hpos Hlen box' m Hm. split.
  - unfold box'. rewrite put_in_box_entries by done. rewrite decide_True by done.
    pose proof (foldl_seq_invariant
      (fun k (st : box_extent) =>
         ∃ lo hi, lo < natom ∧ hi < natom ∧
           vec_get (xmin st) m = vec_get (x !!! lo) m ∧
           vec_get (xmax st) m = vec_get (x !!! hi) m ∧
           (vec_get (x !!! lo) m <= vec_get (x !!! hi) m)%Q ∧
           ∀ i, i < k →
             (vec_get (x !!! lo) m <= vec_get (x !!! i) m <= vec_get (x !!! hi) m)%Q)
      (extend_box x) natom (mk_extent clear_rvec (x !!! 0) (x !!! 0))) as Hinv.
    destruct Hinv as (lo & hi & Hlo & Hhi & Hmin & Hmax & _ & Hall).
    + exists 0, 0. split_and!; [done|done|done|done|apply Qle_refl|intros; lia].
    + intros k st Hk (lo & hi & Hlo & Hhi & Hmin & Hmax & Hle & Hall).
      destruct (extend_box_component x st k m Hm) as [Hmin' Hmax'].
      rewrite Hmin' , Hmax'. clear Hmin' Hmax'. rewrite Hmin, Hmax.
      destruct (Qltb (vec_get (x !!! k) m) (vec_get (x !!! lo) m)) eqn:Hlt.
      * apply Qltb_lt in Hlt. exists k, hi. split_and!; [done|done|done|done|Lqa.lra|].
        intros i Hi. destruct (decide (i = k)) as [->|]; [Lqa.lra|].
        destruct (Hall i) as [? ?]; [lia|]. Lqa.lra.
      * assert (Hge : (vec_get (x !!! lo) m <= vec_get (x !!! k) m)%Q).
        { apply Qnot_lt_le. intros Hc. apply Qltb_lt in Hc. congruence. }
        destruct (Qltb (vec_get (x !!! hi) m) (vec_get (x !!! k) m)) eqn:Hgt.
        -- apply Qltb_lt in Hgt. exists lo, k. split_and!; [done|done|done|done|done|].
           intros i Hi. destruct (decide (i = k)) as [->|]; [Lqa.lra|].
           destruct (Hall i) as [? ?]; [lia|]. Lqa.lra.
        -- assert (Hle' : (vec_get (x !!! k) m <= vec_get (x !!! hi) m)%Q).
           { apply Qnot_lt_le. intros Hc. apply Qltb_lt in Hc. congruence. }
           exists lo, hi. split_and!; [done|done|done|done|done|].
           intros i Hi. destruct (decide (i = k)) as [->|]; [Lqa.lra|].
           apply Hall. lia.
    + exists lo, hi. split_and!; [done|done| |done]. by rewrite Hmin, Hmax.
  - intros n Hn Hne. unfold box'. rewrite put_in_box_entries by done.
    by rewrite decide_False.
Qed.

(** Two atoms at (0,0,0) and (1,0,0) and a box of zeros: an entry off the
    diagonal stays 0. *)
Lemma put_in_box_bounding_box_witness :
  vec_get (vec_get (put_in_box 2 (clear_rvec, clear_rvec, clear_rvec)
                      [(0, 0, 0)%Q; (1, 0, 0)%Q] (3 # 10)) 0) 1 = 0%Q.
Proof.
  destruct (put_in_box_bounding_box 2 (clear_rvec, clear_rvec, clear_rvec)
              [(0, 0, 0)%Q; (1, 0, 0)%Q] (3 # 10)) with (m := 0) as [_ Hoff].
  - lia.
  - simpl. lia.
  - unfold DIM. lia.
  - rewrite Hoff; [reflexivity|unfold DIM; lia|lia].
Defined.

(** ** Terms without parameters in the store *)

Section unmatched_lemmas.
Context `{gmx_tables} `{gmx_strings}.

Lemma for_params_other (plist : list t_params) (ft : Z) (body : t_param → t_param)
    (k : nat) :
  k ≠ Z.to_nat ft → for_params plist ft body !!! k = plist !!! k.
Proof. intros Hne. unfold for_params. by rewrite list_lookup_total_insert_ne. Qed.

Lemma for_params_at (plist : list t_params) (ft : Z) (body : t_param → t_param) :
  for_params plist ft body !!! Z.to_nat ft = map body (plist !!! Z.to_nat ft).
Proof.
  unfold for_params, plist_at.
  destruct (decide (Z.to_nat ft < length plist)) as [Hlt|Hge].
  - by rewrite list_lookup_total_insert_eq.
  - apply Nat.nlt_ge in Hge.
    rewrite list_insert_ge by exact Hge.
    rewrite (list_lookup_total_alt plist), (proj2 (lookup_ge_None plist _) Hge). done.
Qed.

(** The list of the bonds is written by the loop over the bonds only, when
    the angles and the dihedrals have other function types. *)
Lemma get_force_constants_bonds (pd : gmx_poldata_t) (plist : list t_params)
    (atoms : t_atoms) :
  let ftb := Z.to_nat (gmx_poldata_get_bond_ftype pd) in
  ftb ≠ Z.to_nat (gmx_poldata_get_angle_ftype pd) →
  (∀ k, k < egdNR → ftb ≠ Z.to_nat (gmx_poldata_get_dihedral_ftype pd k)) →
  get_force_constants pd plist atoms !!! ftb
  = map (bond_constants pd atoms) (plist !!! ftb).
Proof.
  intros ftb Ha Hd. unfold get_force_constants.
  set (pl1 := for_params plist _ (bond_constants pd atoms)).
  set (pl2 := for_params pl1 _ (angle_constants pd atoms)).
  assert (Hdih : ∀ n, n ≤ egdNR → ∀ pl,
            foldl (fun plist k =>
                     for_params plist (gmx_poldata_get_dihedral_ftype pd k)
                                (dihedral_constants pd k atoms)) pl (seq 0 n) !!! ftb
            = pl !!! ftb).
  { induction n as [|n IH]; intros Hn pl; [done|].
    rewrite seq_S, foldl_app. simpl. rewrite for_params_other by (apply Hd; lia).
    apply IH. lia. }
  rewrite Hdih by done. unfold pl2. rewrite for_params_other by done.
  apply for_params_at.
Qed.

Lemma bond_constants_unmatched (pd : gmx_poldata_t) (atoms : t_atoms) (p : t_param) :
  ((gmx_poldata_search_bond pd (ATP pd atoms (p_a p !!! 0%nat))
      (ATP pd atoms (p_a p !!! 1%nat))).1.1 ≤ 0)%Z →
  bond_constants pd atoms p = p.
Proof.
  intros Hp. unfold bond_constants.
  destruct (gmx_poldata_search_bond _ _ _) as [[found xx] params]. simpl in *.
  destruct (0 <? found)%Z eqn:Hf; [|done]. apply Z.ltb_lt in Hf. lia.
Qed.
End unmatched_lemmas.

Section generation_lemmas.
Context `{gmx_tables} `{gmx_strings} `{gmx_geometry} `{gmx_atomtypes}
        `{gmx_molprop} `{!gmx_generators}.

Lemma GenerateAtoms_fatal_iff (lot : string) (iModel : Z) (mol : MyMol) :
  is_fatal (GenerateAtoms lot iModel mol) ↔
  ∃ catoms, GetLot (molprop mol) lot = Some catoms ∧
            Exists (fun cai => string2unit (ca_unit cai) = (-1)%Z) catoms.
Proof.
  unfold GenerateAtoms. destruct (GetLot (molprop mol) lot) as [catoms|] eqn:Hlot.
  - destruct (decide (Exists (fun cai => string2unit (ca_unit cai) = (-1)%Z) catoms))
      as [Hex|Hnex].
    + pose proof (read_atoms_fatal iModel catoms (mk_atoms [] [] [] [], []) Hex) as Hf.
      destruct (rfold _ _ catoms) as [[atoms x]|msg]; [done|].
      split; [|done]. intros _. by exists catoms.
    + assert (Hall : Forall (fun cai => string2unit (ca_unit cai) ≠ (-1)%Z) catoms).
      { apply Forall_forall. intros cai Hin Hu. apply Hnex, Exists_exists. eauto. }
      pose proof (read_atoms_ok iModel catoms (mk_atoms [] [] [] []) [] Hall) as Hok.
      destruct (rfold _ _ catoms) as [[atoms x]|msg]; [|done].
      cbn [mbind result_bind]. destruct (foldl _ _ _) as [atype atom']. simpl.
      split; [done|]. intros (c & [= <-] & Hex). done.
  - simpl. split; [done|]. intros (c & Hc & _). done.
Qed.

Lemma mv_plists_not_fatal (pd : gmx_poldata_t) (plist : list t_params) (fw : bool) :
  NOTSET ≠ gmx_poldata_get_bond_ftype pd →
  NOTSET ≠ gmx_poldata_get_angle_ftype pd →
  NOTSET ≠ gmx_poldata_get_dihedral_ftype pd egdPDIHS →
  NOTSET ≠ gmx_poldata_get_dihedral_ftype pd egdIDIHS →
  ¬ is_fatal (mv_plists pd plist fw).
Proof.
  intros Hb Ha Hp Hi. unfold mv_plists. rewrite !decide_False by done. simpl. tauto.
Qed.

(** The cases in which [GenerateTopology] ends in a fatal error. *)
Lemma GenerateTopology_fatal_iff
    (pd : gmx_poldata_t) (lot : string) (iModel : Z) (nexcl : nat)
    (bUseVsites bPairs : bool) (edih : eDih) (mol : MyMol) :
  let mol0 := begin_topology pd nexcl mol in
  is_fatal (GenerateTopology pd lot iModel nexcl bUseVsites bPairs edih mol) ↔
  NOTSET = gmx_poldata_get_bond_ftype pd ∨
  NOTSET = gmx_poldata_get_angle_ftype pd ∨
  NOTSET = gmx_poldata_get_dihedral_ftype pd egdIDIHS ∨
  NOTSET = gmx_poldata_get_dihedral_ftype pd egdPDIHS ∨
  ((0 < NAtom (molprop mol0))%Z ∧
   ∃ catoms, GetLot (molprop mol0) lot = Some catoms ∧
             Exists (fun cai => string2unit (ca_unit cai) = (-1)%Z) catoms).
Proof.
  intros mol0. unfold GenerateTopology. fold mol0.
  destruct (decide (NOTSET = gmx_poldata_get_bond_ftype pd)) as [|Hb]; [simpl; tauto|].
  destruct (decide (NOTSET = gmx_poldata_get_angle_ftype pd)) as [|Ha]; [simpl; tauto|].
  destruct (decide (NOTSET = gmx_poldata_get_dihedral_ftype pd egdIDIHS)) as [|Hi];
    [simpl; tauto|].
  destruct (decide (NOTSET = gmx_poldata_get_dihedral_ftype pd egdPDIHS)) as [|Hp];
    [simpl; tauto|].
  assert (Hrest : ∀ st,
            ¬ is_fatal (st ← topology_interactions_block pd bUseVsites bPairs edih
                               (topology_bonds_block st);
                        Ok (topology_mtop_block pd st))).
  { intros st. unfold topology_interactions_block.
    destruct (topology_bonds_block st) as [imm mol1].
    destruct (decide (immOK = imm)); [|simpl; tauto].
    match goal with |- context [mv_plists pd ?pl true] =>
      pose proof (mv_plists_not_fatal pd pl true Hb Ha Hp Hi) as Hmv;
      destruct (mv_plists pd pl true) as [pl'|msg]
    end; simpl in *; tauto. }
  unfold topology_atoms_block.
  destruct (decide (NAtom (molprop mol0) ≤ 0)%Z) as [Hn|Hn].
  - rewrite (decide_False (P := immOK = immAtomTypes)) by done.
    cbn [mbind result_bind]. split.
    + intros Hf. by apply Hrest in Hf.
    + intros [?|[?|[?|[?|[Hpos _]]]]]; try done. lia.
  - rewrite decide_True by done.
    pose proof (GenerateAtoms_fatal_iff lot iModel (fresh_topology mol0)) as Hgen.
    change (molprop (fresh_topology mol0)) with (molprop mol0) in Hgen.
    destruct (GenerateAtoms lot iModel (fresh_topology mol0)) as [st|msg].
    + cbn [mbind result_bind]. split.
      * intros Hf. by apply Hrest in Hf.
      * intros [?|[?|[?|[?|[_ Hex]]]]]; try done. by apply Hgen in Hex.
    + simpl in *. split; [|done]. intros _. do 4 right. split; [lia|]. by apply Hgen.
Qed.
End generation_lemmas.

(** C3 (the code at the failing input).  A bond for whose bond types
    the search of the store returns 0 is left by [get_force_constants] as
    it was, with the coefficients it had, and the other bonds of the list
    are processed as usual; here the bonds have a function type of their
    own.  [GenerateTopology] ends in a fatal error in these cases only: a
    function type of the store is [NOTSET], or an atom of the calculation
    has an unknown unit of length.  A search of the store without a match
    is not among them.  [UpdateIdef], which makes the same search for the
    same bond, does end in a fatal error that names the bond types.  For
    the two carbons joined by a bond and the store without parameters,
    [GenerateTopology] returns [immOK] and a topology whose bond has the
    coefficients 0, and [UpdateIdef] on that topology is fatal. *)
Theorem get_force_constants_unmatched_not_fatal
    `{gmx_tables} `{gmx_strings} `{gmx_geometry} `{gmx_atomtypes}
    `{gmx_molprop} `{!gmx_generators} (pd : gmx_poldata_t) :
  (∀ (plist : list t_params) (atoms : t_atoms) (j : nat) (p : t_param),
     let ftb := Z.to_nat (gmx_poldata_get_bond_ftype pd) in
     ftb ≠ Z.to_nat (gmx_poldata_get_angle_ftype pd) →
     (∀ k, k < egdNR → ftb ≠ Z.to_nat (gmx_poldata_get_dihedral_ftype pd k)) →
     (plist !!! ftb) !! j = Some p →
     (gmx_poldata_search_bond pd (ATP pd atoms (p_a p !!! 0%nat))
        (ATP pd atoms (p_a p !!! 1%nat))).1.1 = 0%Z →
     (get_force_constants pd plist atoms !!! ftb) !! j = Some p ∧
     get_force_constants pd plist atoms !!! ftb
     = map (bond_constants pd atoms) (plist !!! ftb)) ∧
  (∀ (lot : string) (iModel : Z) (nexcl : nat) (bUseVsites bPairs : bool) (edih : eDih)
     (mol : MyMol),
     let mol0 := begin_topology pd nexcl mol in
     is_fatal (GenerateTopology pd lot iModel nexcl bUseVsites bPairs edih mol) ↔
     NOTSET = gmx_poldata_get_bond_ftype pd ∨
     NOTSET = gmx_poldata_get_angle_ftype pd ∨
     NOTSET = gmx_poldata_get_dihedral_ftype pd egdIDIHS ∨
     NOTSET = gmx_poldata_get_dihedral_ftype pd egdPDIHS ∨
     ((0 < NAtom (molprop mol0))%Z ∧
      ∃ catoms, GetLot (molprop mol0) lot = Some catoms ∧
                Exists (fun cai => string2unit (ca_unit cai) = (-1)%Z) catoms)) ∧
  (∀ (bOpt : opt_flags) (molname : string) (atoms : t_atoms) (il : list (list nat))
     (ip : list t_iparams),
     opt_bonds bOpt = true → bond_missing pd atoms il →
     is_fatal (UpdateIdef pd bOpt molname atoms il ip)) ∧
  (∃ mol' mtop' il',
     GenerateTopology (H := small_tables) (H0 := plain_strings) (H1 := flat_geometry)
       (H4 := idle_generators) empty_poldata "B3LYP" 0 3 false true edihAll
       (new_mymol bonded_carbons) = Ok (immOK, mol') ∧
     plist_ mol' !!! 0%nat = [mk_param [0; 1; 0; 0; 0; 0] (replicate 12 0%Q)] ∧
     mtop_ mol' = Some mtop' ∧ ltop_ mol' = Some il' ∧
     UpdateIdef (H := small_tables) (H0 := plain_strings) empty_poldata
       (mk_opt true true true true) "C2" (topology_atoms mol') il'
       (iparams (ffparams mtop'))
     = Fatal "There are no parameters for bond c3-c3 in the force field").
Proof.
  split_and!.
  - intros plist atoms j p ftb Ha Hd Hj Hsearch.
    pose proof (get_force_constants_bonds pd plist atoms Ha Hd) as Hlist.
    fold ftb in Hlist. split; [|exact Hlist].
    transitivity (map (bond_constants pd atoms) (plist !!! ftb) !! j);
      [exact (f_equal (fun l => l !! j) Hlist)|].
    rewrite list_lookup_fmap.
    transitivity (bond_constants pd atoms <$> Some p);
      [exact (f_equal (fmap (bond_constants pd atoms)) Hj)|].
    simpl. f_equal. apply bond_constants_unmatched.
    apply Z.eq_le_incl. exact Hsearch.
  - intros. apply GenerateTopology_fatal_iff.
  - intros bOpt molname atoms il ip Hopt Hmiss. unfold UpdateIdef. rewrite Hopt.
    apply (update_bonds_fatal pd atoms il ip) in Hmiss.
    destruct (update_bonds pd atoms il ip) as [ip1|msg]; [done|]. done.
  - do 3 eexists. split_and!; [vm_compute; reflexivity|vm_compute; reflexivity|
      reflexivity|reflexivity|vm_compute; reflexivity].
Qed.

(** The bond of [unset_bond_plist] between two carbons, whose first
    constant is [NOTSET], and the store without parameters: the bond is
    left as it was. *)
Lemma get_force_constants_unmatched_not_fatal_witness :
  (get_force_constants (H := small_tables) (H0 := plain_strings)
     empty_poldata unset_bond_plist two_carbons !!! 0) !! 0 = Some unset_bond.
Proof.
  refine (proj1 (proj1 (get_force_constants_unmatched_not_fatal
            (H := small_tables) (H0 := plain_strings) (H1 := flat_geometry)
            (H3 := data_molprop) (H4 := idle_generators) empty_poldata)
            unset_bond_plist two_carbons 0 unset_bond _ _ _ _)).
  - intros Heq. vm_compute in Heq. discriminate.
  - intros k Hk. change (egdNR (gmx_tables := small_tables)) with 2 in Hk.
    destruct k as [|[|k]]; [intros Heq; vm_compute in Heq; discriminate..|lia].
  - reflexivity.
  - reflexivity.
Defined.
